(** * neo-go: execution context, memory pool, transaction hashes, storage iterator

    A shallow embedding of the parts of the node that its specification
    makes promises about:

    - [VmContext]  : pkg/vm/context.go (instruction fetch and operand reads);
    - [Interp]     : an instruction fetching its operand through those reads;
    - [Arith]      : the integer opcodes behind the dispatch table [opFunc];
    - [Mempool]    : package mempool (priority order, Add, Remove, RemoveStale)
                     and the grouping of inputs of package transaction;
    - [Tx], [TxWire]: package transaction (lazily memoised hashes, wire form);
    - [StorageFind]: pkg/core/interop/storage/find.go (the Find iterator);
    - [MemStore]   : pkg/core/storage/memory_store.go.

    Go values are modelled as follows: [int] is a [Z] whose increments wrap
    at 64 bits, a byte is a [byte], a slice is a [list] (a possibly nil slice
    an [option (list _)]), a Go map is a [gmap], a pointer to an immutable
    record is the record, and a call that may panic returns [outcome]. *)

From Stdlib Require Import ZArith Lia.
From Stdlib.Strings Require Import Byte.
From stdpp Require Import base option list gmap strings sorting.

Local Open Scope Z_scope.
Set Warnings "-register-all,-clear-no-such-hyp".

(** ** Outcome of a Go call that may panic *)

Inductive outcome (A : Type) : Type :=
| Ok (a : A)
| Panic (msg : string).
Arguments Ok {A} a.
Arguments Panic {A} msg.

(** ** Machine integers *)

Module GoInt.

(** Go's [int] on the 64-bit targets the node is built for. *)
Definition maxInt : Z := 2 ^ 63 - 1.
Definition minInt : Z := - 2 ^ 63.

(** The value an [int] expression has after two's-complement wrap-around. *)
Definition wrap (z : Z) : Z := (z + 2 ^ 63) mod 2 ^ 64 - 2 ^ 63.

(** [s[i]] on a slice: [None] stands for the run-time index panic. *)
Definition index {A} (s : list A) (i : Z) : option A :=
  if i <? 0 then None else s !! Z.to_nat i.

(** [s[lo:hi]] with [hi <= len(s)] already established by the caller;
    [None] stands for the run-time slice-bounds panic. *)
Definition slice {A} (s : list A) (lo hi : Z) : option (list A) :=
  if (0 <=? lo) && (lo <=? hi) && (hi <=? Z.of_nat (length s))
  then Some (take (Z.to_nat (hi - lo)) (drop (Z.to_nat lo) s))
  else None.

End GoInt.

(** ** pkg/vm/context.go *)

Module VmContext.

Definition Instruction : Type := byte.

(** Modelled from the spec: the opcode enumeration (instructions.go) is not
    among the sources; RET and NOP carry the values of the published NEO
    instruction set, which the spec fixes as a closed enumeration. *)
Definition RET : Instruction := x66.
Definition NOP : Instruction := x61.

Record Context : Type := mkContext {
  ip : Z;                  (* instruction pointer *)
  prog : list byte;        (* the raw program script *)
  breakPoints : list Z
}.

Definition set_ip (c : Context) (v : Z) : Context :=
  {| ip := v; prog := prog c; breakPoints := breakPoints c |}.

Definition NewContext (b : list byte) : Context :=
  {| ip := -1; prog := b; breakPoints := [] |}.

Definition len_prog (c : Context) : Z := Z.of_nat (length (prog c)).

(** [c.ip++], then RET past the end, else the opcode under the pointer. *)
Definition Next (c : Context) : outcome (Instruction * Context) :=
  let c1 := set_ip c (GoInt.wrap (ip c + 1)) in
  if len_prog c1 <=? ip c1 then Ok (RET, c1)
  else match GoInt.index (prog c1) (ip c1) with
       | Some b => Ok (b, c1)
       | None => Panic "index out of range"
       end.

Definition IP (c : Context) : Z := GoInt.wrap (ip c + 1).

Definition LenInstr (c : Context) : Z := len_prog c.

Definition CurrInstr (c : Context) : outcome (Z * Instruction) :=
  if ip c <? 0 then Ok (ip c, NOP)
  else match GoInt.index (prog c) (ip c) with
       | Some b => Ok (ip c, b)
       | None => Panic "index out of range"
       end.

(** encoding/binary's LittleEndian.Uint16 / Uint32 on a slice that is long
    enough (the reads below only pass slices of the exact width). *)
Fixpoint le_value (bs : list byte) : Z :=
  match bs with
  | [] => 0
  | b :: rest => Z.of_N (Byte.to_N b) + 256 * le_value rest
  end.

Definition LittleEndian_Uint (width : nat) (bs : list byte) : option Z :=
  if decide (width ≤ length bs)%nat then Some (le_value (take width bs)) else None.

Definition readUint (width : Z) (msg : string) (c : Context) : outcome (Z * Context) :=
  let start := IP c in
  let end_ := GoInt.wrap (IP c + width) in
  if len_prog c <? end_ then Panic msg
  else match GoInt.slice (prog c) start end_ with
       | None => Panic "slice bounds out of range"
       | Some bs =>
           match LittleEndian_Uint (Z.to_nat width) bs with
           | None => Panic "index out of range"
           | Some val => Ok (val, set_ip c (GoInt.wrap (ip c + width)))
           end
       end.

Definition readUint32 : Context -> outcome (Z * Context) :=
  readUint 4 "failed to read uint32 parameter".

Definition readUint16 : Context -> outcome (Z * Context) :=
  readUint 2 "failed to read uint16 parameter".

(** [readBytes] returns a possibly nil slice: [None] is Go's nil. *)
Definition readBytes (n : Z) (c : Context) : outcome (option (list byte) * Context) :=
  let start := IP c in
  let end_ := GoInt.wrap (IP c + n) in
  if len_prog c <? end_ then Ok (None, c)
  else if n <? 0 then Panic "makeslice: len out of range"
  else match GoInt.slice (prog c) start end_ with
       | None => Panic "slice bounds out of range"
       | Some bs => Ok (Some bs, set_ip c (GoInt.wrap (ip c + n)))
       end.

(** [c.readBytes(1)[0]]: indexing the nil slice panics. *)
Definition readByte (c : Context) : outcome (byte * Context) :=
  match readBytes 1 c with
  | Panic m => Panic m
  | Ok (None, _) => Panic "index out of range"
  | Ok (Some bs, c1) =>
      match bs with
      | b :: _ => Ok (b, c1)
      | [] => Panic "index out of range"
      end
  end.

Definition readVarBytes (c : Context) : outcome (option (list byte) * Context) :=
  match readByte c with
  | Panic m => Panic m
  | Ok (n, c1) => readBytes (Z.of_N (Byte.to_N n)) c1
  end.

(** [Copy] shares the program and the breakpoints with the original. *)
Definition Copy (c : Context) : Context :=
  {| ip := ip c; prog := prog c; breakPoints := breakPoints c |}.

Definition Program (c : Context) : list byte := prog c.

Definition atBreakPoint (c : Context) : bool :=
  existsb (fun n => n =? ip c) (breakPoints c).

(** [n] calls of [Next] in a row: the opcodes they return and the context
    they leave. *)
Fixpoint fetch (n : nat) (c : Context) : outcome (list Instruction * Context) :=
  match n with
  | O => Ok ([], c)
  | S k =>
      match Next c with
      | Panic msg => Panic msg
      | Ok (op, c1) =>
          match fetch k c1 with
          | Panic msg => Panic msg
          | Ok (ops, c2) => Ok (op :: ops, c2)
          end
      end
  end.

End VmContext.

(** ** package mempool *)

Module Mempool.

(** A [util.Uint256] is taken as the 256-bit number its 32 bytes spell, a
    [util.Fixed8] as the 64-bit integer it wraps. *)
Definition Uint256 : Type := Z.
Definition Fixed8 : Type := Z.

(** [transaction.TXType] is a byte; only [ClaimType] is looked at here. *)
Definition TXType : Type := Z.
Definition ClaimType : TXType := 2.

(** pkg/core/transaction/input.go *)
Record Input : Type := mkInput {
  PrevHash : Uint256;
  PrevIndex : Z
}.

(** Go's [==] on the struct: both fields agree. *)
Definition Input_eqb (a b : Input) : bool :=
  (PrevHash a =? PrevHash b) && (PrevIndex a =? PrevIndex b).

(** The fields of a transaction the pool reads. [Hash] stands for the
    memoised [t.Hash()]. *)
Record Transaction : Type := mkTransaction {
  Type_ : TXType;
  Inputs : list Input;
  Hash : Uint256
}.

(** The [Feer] interface: the three calls [Add] makes. *)
Record Feer : Type := mkFeer {
  NetworkFee : Transaction -> Fixed8;
  IsLowPriority : Fixed8 -> bool;
  FeePerByte : Transaction -> Fixed8
}.

Record item : Type := mkItem {
  txn : Transaction;
  timeStamp : Z;
  perByteFee : Fixed8;
  netFee : Fixed8;
  isLowPrio : bool
}.

Record Pool : Type := mkPool {
  verifiedMap : gmap Z item;
  verifiedTxes : list item;
  capacity : nat
}.

Inductive Error : Type := ErrConflict | ErrDup | ErrOOM.

(** Go's [sort.Search]: binary search for the least index in [0, n) at
    which [f] holds ([n] if none). [f] is partial: [None] is a panic inside
    the callback, and [None] is also returned if the loop has not finished
    within [fuel] rounds (it always has: see [search_loop_fuel]). *)
Fixpoint search_loop (fuel : nat) (f : nat -> option bool) (i j : nat) : option nat :=
  if (i <? j)%nat then
    match fuel with
    | O => None
    | S fuel' =>
        let h := ((i + j) / 2)%nat in
        match f h with
        | None => None
        | Some false => search_loop fuel' f (h + 1)%nat j
        | Some true => search_loop fuel' f i h
        end
    end
  else Some i.

Definition sort_Search (n : nat) (f : nat -> option bool) : option nat :=
  search_loop n f 0%nat n.

(** [copy(s[n+1:], s[n:])]: an overlapping move of [len(s) - n - 1]
    elements one place to the right. *)
Definition copy_up (s : list item) (n : nat) : list item :=
  take (n + 1) s ++ take (length s - (n + 1)) (drop n s).

Section Comparisons.

(** [Fixed8.CompareTo] and [Uint256.CompareTo] live in package util, which
    is not among the sources: they are parameters of the model. *)
Variable Fixed8_CompareTo : Fixed8 -> Fixed8 -> Z.
Variable Uint256_CompareTo : Uint256 -> Uint256 -> Z.

(** [otherP] is a pointer: [None] is nil. *)
Definition CompareTo (p : item) (otherP : option item) : Z :=
  match otherP with
  | None => 1
  | Some o =>
      let fees :=
        (* Fees sorted ascending. *)
        let ret := Fixed8_CompareTo (perByteFee p) (perByteFee o) in
        if negb (ret =? 0) then ret
        else
          let ret := Fixed8_CompareTo (netFee p) (netFee o) in
          if negb (ret =? 0) then ret
          else
            (* Transaction hash sorted descending. *)
            Uint256_CompareTo (Hash (txn o)) (Hash (txn p)) in
      if negb (isLowPrio p) && isLowPrio o then 1
      else if isLowPrio p && negb (isLowPrio o) then -1
      else if isLowPrio p && isLowPrio o then
        let thisIsClaimTx := Type_ (txn p) =? ClaimType in
        let otherIsClaimTx := Type_ (txn o) =? ClaimType in
        if negb (Bool.eqb thisIsClaimTx otherIsClaimTx)
        then (if thisIsClaimTx then 1 else -1)
        else fees
      else fees
  end.

(** [items.Less] *)
Definition Less (p : list item) (i j : nat) : option bool :=
  match p !! i, p !! j with
  | Some a, Some b => Some (CompareTo a (Some b) <? 0)
  | _, _ => None
  end.

Definition count (mp : Pool) : Z := Z.of_nat (length (verifiedTxes mp)).
Definition Count (mp : Pool) : Z := count mp.

Definition containsKey (mp : Pool) (hash : Uint256) : bool :=
  match verifiedMap mp !! hash with
  | Some _ => true
  | None => false
  end.
Definition ContainsKey (mp : Pool) (hash : Uint256) : bool := containsKey mp hash.

(** The triple loop returns false at the first shared input. *)
Definition verifyInputs (mp : Pool) (tx : Transaction) : bool :=
  if (length (Inputs tx) =? 0)%nat then true
  else
    forallb (fun it =>
      forallb (fun i =>
        forallb (fun j => negb (Input_eqb i j)) (Inputs tx))
        (Inputs (txn it)))
      (verifiedTxes mp).

Definition Verify (mp : Pool) (tx : Transaction) : bool := verifyInputs mp tx.

(** The item [Add] builds before it takes the lock. *)
Definition newItem (t : Transaction) (fee : Feer) (now : Z) : item :=
  let pItem :=
    {| txn := t; timeStamp := now; perByteFee := FeePerByte fee t;
       netFee := NetworkFee fee t; isLowPrio := false |} in
  {| txn := txn pItem; timeStamp := timeStamp pItem;
     perByteFee := perByteFee pItem; netFee := netFee pItem;
     isLowPrio := IsLowPriority fee (netFee pItem) |}.

(** The tail of [Add]: move the new item from the last slot to slot [n].
    [None] is the panic of a slice expression or an index out of range. *)
Definition place (txes : list item) (n : nat) (pItem : item) : option (list item) :=
  if negb (Z.of_nat n =? Z.of_nat (length txes) - 1)
  then
    if (n + 1 <=? length txes)%nat
    then Some (<[n := pItem]> (copy_up txes n))
    else None
  else Some txes.

(** The callback [Add] hands to [sort.Search]. *)
Definition probe (x : item) (l : list item) (n : nat) : option bool :=
  match l !! n with
  | Some o => Some (0 <? CompareTo x (Some o))
  | None => None
  end.

Definition Add (mp : Pool) (t : Transaction) (fee : Feer) (now : Z)
  : outcome (option Error * Pool) :=
  let pItem := newItem t fee now in
  if negb (verifyInputs mp t) then Ok (Some ErrConflict, mp)
  else if containsKey mp (Hash t) then Ok (Some ErrDup, mp)
  else
    let vmap := <[Hash t := pItem]> (verifiedMap mp) in
    let txes := verifiedTxes mp in
    match sort_Search (length txes) (probe pItem txes) with
    | None => Panic "index out of range"
    | Some n =>
        if (length txes =? capacity mp)%nat then
          if (n =? length txes)%nat
          then Ok (Some ErrOOM, mkPool vmap txes (capacity mp))
          else
            match GoInt.index txes (Z.of_nat (length txes) - 1) with
            | None => Panic "index out of range"
            | Some unlucky =>
                let vmap := delete (Hash (txn unlucky)) vmap in
                let txes := <[(length txes - 1)%nat := pItem]> txes in
                match place txes n pItem with
                | None => Panic "slice bounds out of range"
                | Some txes => Ok (None, mkPool vmap txes (capacity mp))
                end
            end
        else
          let txes := txes ++ [pItem] in
          match place txes n pItem with
          | None => Panic "slice bounds out of range"
          | Some txes => Ok (None, mkPool vmap txes (capacity mp))
          end
    end.

(** Requests served one after the other, whatever each [Add] answers. *)
Fixpoint AddAll (mp : Pool) (fee : Feer) (reqs : list (Transaction * Z)) : outcome Pool :=
  match reqs with
  | [] => Ok mp
  | (t, now) :: rest =>
      match Add mp t fee now with
      | Ok (_, mp') => AddAll mp' fee rest
      | Panic msg => Panic msg
      end
  end.

(** The slice is in descending order of priority. *)
Definition descending (l : list item) : Prop :=
  StronglySorted (fun a b => 0 <= CompareTo a (Some b)) l.

End Comparisons.

(** The index at which the search loop of [Remove] breaks (the length of
    the slice if it never does). *)
Fixpoint Remove_loop (hash : Uint256) (txes : list item) : nat :=
  match txes with
  | [] => 0%nat
  | it :: rest => if hash =? Hash (txn it) then 0%nat else S (Remove_loop hash rest)
  end.

(** The loop [for num := range mp.verifiedTxes] declares a variable of its
    own, so what it finds is dropped and the [num] declared before it is
    still 0 when the slice is cut. *)
Definition Remove (mp : Pool) (hash : Uint256) : Pool :=
  match verifiedMap mp !! hash with
  | Some _ =>
      let num := 0%nat in
      let vmap := delete hash (verifiedMap mp) in
      let txes := verifiedTxes mp in
      let _ := Remove_loop hash txes in
      let len := Z.of_nat (length txes) in
      if Z.of_nat num <? len - 1
      then mkPool vmap (take num txes ++ drop (num + 1) txes) (capacity mp)
      else if Z.of_nat num =? len - 1
      then mkPool vmap (take num txes) (capacity mp)
      else mkPool vmap txes (capacity mp)
  | None => mp
  end.

(** One pass over the slice: kept items are appended to a new slice, the
    others are deleted from the map. *)
Definition RemoveStale (mp : Pool) (isOK : Transaction -> bool) : Pool :=
  let step (acc : gmap Z item * list item) (itm : item) :=
    if isOK (txn itm) then (acc.1, acc.2 ++ [itm])
    else (delete (Hash (txn itm)) acc.1, acc.2) in
  let r := foldl step (verifiedMap mp, []) (verifiedTxes mp) in
  mkPool r.1 r.2 (capacity mp).

Definition NewMemPool (capacity : nat) : Pool :=
  mkPool ∅ [] capacity.

Definition TryGetValue (mp : Pool) (hash : Uint256) : option Transaction :=
  match verifiedMap mp !! hash with
  | Some pItem => Some (txn pItem)
  | None => None
  end.

Definition GetVerifiedTransactions (mp : Pool) : list Transaction :=
  map txn (verifiedTxes mp).

(** *** The pool as its callers drive it *)

Inductive Op : Type :=
| OpAdd (t : Transaction) (fee : Feer) (now : Z)
| OpRemove (hash : Uint256)
| OpRemoveStale (isOK : Transaction -> bool).

Section Runs.

Variable Fixed8_CompareTo : Fixed8 -> Fixed8 -> Z.
Variable Uint256_CompareTo : Uint256 -> Uint256 -> Z.

Definition apply_op (mp : Pool) (op : Op) : outcome Pool :=
  match op with
  | OpAdd t fee now =>
      match Add Fixed8_CompareTo Uint256_CompareTo mp t fee now with
      | Ok (_, mp') => Ok mp'
      | Panic msg => Panic msg
      end
  | OpRemove hash => Ok (Remove mp hash)
  | OpRemoveStale isOK => Ok (RemoveStale mp isOK)
  end.

Fixpoint run (ops : list Op) (mp : Pool) : outcome Pool :=
  match ops with
  | [] => Ok mp
  | op :: rest =>
      match apply_op mp op with
      | Ok mp' => run rest mp'
      | Panic msg => Panic msg
      end
  end.

End Runs.

(** *** Vocabulary of the statements *)

Definition isClaim (x : item) : bool := Type_ (txn x) =? ClaimType.

(** The three priority classes: high priority, low-priority claim, other
    low priority. *)
Definition rank (x : item) : Z :=
  if isLowPrio x then (if isClaim x then 1 else 0) else 2.

(** [above p o]: [p] comes before [o] in the lexicographic order of class,
    fee per byte, network fee and (reversed) hash. *)
Definition above (p o : item) : Prop :=
  rank o < rank p \/
  (rank p = rank o /\
   (perByteFee o < perByteFee p \/
    (perByteFee p = perByteFee o /\
     (netFee o < netFee p \/
      (netFee p = netFee o /\ Hash (txn p) < Hash (txn o)))))).

Definition level (p o : item) : Prop :=
  rank p = rank o /\ perByteFee p = perByteFee o /\ netFee p = netFee o /\
  Hash (txn p) = Hash (txn o).

(** The class of a transaction under a fee policy: 2 for high priority,
    1 for a low-priority claim, 0 for any other low-priority
    transaction. *)
Definition tx_class (fee : Feer) (t : Transaction) : Z :=
  if IsLowPriority fee (NetworkFee fee t)
  then (if Type_ t =? ClaimType then 1 else 0)
  else 2.

(** [outranks fee t u]: under the fee policy [fee] the transaction [t] has
    priority over [u]: the higher class, then the higher fee per byte, then
    the higher network fee, then the lower hash. *)
Definition outranks (fee : Feer) (t u : Transaction) : Prop :=
  tx_class fee u < tx_class fee t \/
  (tx_class fee t = tx_class fee u /\
   (FeePerByte fee u < FeePerByte fee t \/
    (FeePerByte fee t = FeePerByte fee u /\
     (NetworkFee fee u < NetworkFee fee t \/
      (NetworkFee fee t = NetworkFee fee u /\ Hash t < Hash u))))).

(** The slice after the new item has gone to slot [n]. *)
Definition insert_at (n : nat) (x : item) (l : list item) : list item :=
  take n l ++ x :: drop n l.

Definition hashes (l : list item) : list Uint256 := map (fun e => Hash (txn e)) l.

Definition inputs_disjoint (a b : Transaction) : Prop :=
  forall i, i ∈ Inputs a -> i ∉ Inputs b.

Fixpoint conflict_free_txs (ts : list Transaction) : Prop :=
  match ts with
  | [] => True
  | t :: rest => Forall (inputs_disjoint t) rest /\ conflict_free_txs rest
  end.

Definition conflict_free (l : list item) : Prop := conflict_free_txs (map txn l).

Definition requested (fee : Feer) (reqs : list (Transaction * Z)) : list item :=
  map (fun r => newItem r.1 fee r.2) reqs.

Section Filled.

Variable Fixed8_CompareTo : Fixed8 -> Fixed8 -> Z.
Variable Uint256_CompareTo : Uint256 -> Uint256 -> Z.

(** A pool of capacity [C] that has been offered the items [P]: it holds
    the best of them in order and [D] is what it turned away or evicted. *)
Record filled (C : nat) (P : list item) (mp : Pool) (D : list item) : Prop := {
  filled_capacity : capacity mp = C;
  filled_sorted : descending Fixed8_CompareTo Uint256_CompareTo (verifiedTxes mp);
  filled_length : length (verifiedTxes mp) = (length P `min` C)%nat;
  filled_keys : forall h, is_Some (verifiedMap mp !! h) -> h ∈ hashes P;
  filled_perm : verifiedTxes mp ++ D ≡ₚ P;
  filled_dropped : forall d k, d ∈ D -> k ∈ verifiedTxes mp ->
    CompareTo Fixed8_CompareTo Uint256_CompareTo d (Some k) < 0
}.

End Filled.

(** *** pkg/core/transaction/input.go: grouping inputs *)

Section Grouping.

Variable Uint256_CompareTo : Uint256 -> Uint256 -> Z.

(** Go's [sort.Slice], given the less function and the slice: a parameter
    of the model (its order among equal elements is not specified). *)
Variable sort_Slice : (Input -> Input -> bool) -> list Input -> list Input.

(** The less function [GroupInputsByPrevHash] sorts with. *)
Definition byPrevHash (a b : Input) : bool :=
  Uint256_CompareTo (PrevHash a) (PrevHash b) <? 0.

(** The loop over the sorted pointers: [i] is the index of the head of
    [rest]; a change of hash closes the group [ptrs[first:i]]. *)
Fixpoint group_loop (ptrs rest : list Input) (i first : nat)
    (currentHash : Uint256) (res : list (list Input)) : nat * list (list Input) :=
  match rest with
  | [] => (first, res)
  | p :: rest' =>
      if negb (currentHash =? PrevHash p)
      then group_loop ptrs rest' (S i) i (PrevHash p)
             (res ++ [take (i - first) (drop first ptrs)])
      else group_loop ptrs rest' (S i) first currentHash res
  end.

(** [None] is the nil result for no inputs. *)
Definition GroupInputsByPrevHash (ins : list Input)
  : outcome (option (list (list Input))) :=
  if (length ins =? 0)%nat then Ok None
  else
    let ptrs := sort_Slice byPrevHash ins in
    match ptrs with
    | [] => Panic "index out of range"
    | p0 :: _ =>
        let '(first, res) := group_loop ptrs ptrs 0 0 (PrevHash p0) [] in
        Ok (Some (res ++ [drop first ptrs]))
    end.

End Grouping.

(** An instance of [sort.Slice], for running the model: a merge sort that
    puts [a] before [b] unless [b] is less than [a]. *)
Definition merge_sort_Slice (less : Input -> Input -> bool) (l : list Input)
  : list Input :=
  @merge_sort Input (fun a b => less b a = false)
    (fun a b => decide (less b a = false)) l.

(** Every input of the group spends an output of transaction [h]. *)
Definition uniform (g : list Input) (h : Uint256) : Prop :=
  Forall (fun x => PrevHash x = h) g.

(** No group is empty, a group holds one previous hash, and two groups next
    to each other hold different ones. *)
Definition well_grouped (gs : list (list Input)) : Prop :=
  Forall (fun g => g <> [] /\ exists h, uniform g h) gs /\
  forall k g1 g2 a b,
    gs !! k = Some g1 -> gs !! S k = Some g2 -> a ∈ g1 -> b ∈ g2 ->
    PrevHash a <> PrevHash b.

(** An instance of the two comparison parameters, for running the model:
    the difference of the two numbers. *)
Definition difference (a b : Z) : Z := a - b.

End Mempool.

(** ** package io: the binary writer *)

Module BinIO.

(** Modelled from the spec: package io's writer (binaryrw.go) is not among
    the sources, only its tests are (TestWriteLE, TestWriteVarUint*,
    TestBinWriter_WriteArray, TestBufBinWriterErr): multi-byte values are
    little-endian, a length is a variable-size integer (one byte below
    0xfd, otherwise a marker 0xfd / 0xfe / 0xff and 2 / 4 / 8 bytes), an
    array is its length and then its elements, the first error sticks and
    [Bytes] of a writer in error is nil. *)
Record BinWriter : Type := mkWriter {
  buf : list byte;
  Err : option string
}.

Definition NewBufBinWriter : BinWriter := mkWriter [] None.

Definition byte_of_Z (z : Z) : byte :=
  match Byte.of_N (Z.to_N (z mod 256)) with
  | Some b => b
  | None => x00
  end.

Fixpoint le_bytes (width : nat) (v : Z) : list byte :=
  match width with
  | O => []
  | S w => byte_of_Z v :: le_bytes w (v / 256)
  end.

Definition WriteBytes (bs : list byte) (w : BinWriter) : BinWriter :=
  match Err w with
  | Some _ => w
  | None => mkWriter (buf w ++ bs) None
  end.

Definition WriteB (b : byte) : BinWriter -> BinWriter := WriteBytes [b].
Definition WriteU16LE (v : Z) : BinWriter -> BinWriter := WriteBytes (le_bytes 2 v).
Definition WriteU32LE (v : Z) : BinWriter -> BinWriter := WriteBytes (le_bytes 4 v).
Definition WriteU64LE (v : Z) : BinWriter -> BinWriter := WriteBytes (le_bytes 8 v).

Definition WriteVarUint (val : Z) (w : BinWriter) : BinWriter :=
  if val <? 253 then WriteB (byte_of_Z val) w
  else if val <? 65536 then WriteU16LE val (WriteB xfd w)
  else if val <? 4294967296 then WriteU32LE val (WriteB xfe w)
  else WriteU64LE val (WriteB xff w).

Definition WriteVarBytes (b : list byte) (w : BinWriter) : BinWriter :=
  WriteBytes b (WriteVarUint (Z.of_nat (length b)) w).

(** What one element's [EncodeBinary] does to the writer: the bytes it
    appends, or the error it raises ([None]). *)
Definition EncodeBinary {A} (enc : A -> option (list byte)) (a : A) (w : BinWriter)
  : BinWriter :=
  match Err w with
  | Some _ => w
  | None =>
      match enc a with
      | Some bs => mkWriter (buf w ++ bs) None
      | None => mkWriter (buf w) (Some "element encoding failed")
      end
  end.

Definition WriteArray {A} (enc : A -> option (list byte)) (arr : list A) (w : BinWriter)
  : BinWriter :=
  foldl (fun w a => EncodeBinary enc a w) (WriteVarUint (Z.of_nat (length arr)) w) arr.

(** The writer [w] had [p] been written before everything else. *)
Definition prepend (p : list byte) (w : BinWriter) : BinWriter :=
  mkWriter (p ++ buf w) (Err w).

(** The writer [w'] is [w] after more writes: with more bytes at its end
    or an error raised, or [w] itself if [w] is in error. *)
Definition extends (w w' : BinWriter) : Prop :=
  match Err w with
  | Some _ => w' = w
  | None => exists bs, buf w' = buf w ++ bs
  end.

(** [BufBinWriter.Bytes]: nil once an error is set. *)
Definition Bytes (w : BinWriter) : option (list byte) :=
  match Err w with
  | Some _ => None
  | None => Some (buf w)
  end.

End BinIO.

(** ** package transaction *)

Module Tx.

Import BinIO.

Definition Uint256 : Type := Z.
Definition Uint160 : Type := Z.

Section Transaction.

(** Types and functions of packages that are not among the sources
    (transaction attributes, cosigners and witnesses, util and
    crypto/hash): parameters of the model. *)
Variables Attribute Cosigner Witness : Type.
Variable Attribute_encoding : Attribute -> option (list byte).
Variable Cosigner_encoding : Cosigner -> option (list byte).
Variable Uint160_encoding : Uint160 -> option (list byte).
Variable Sha256 : list byte -> Uint256.
Variable BytesBE : Uint256 -> list byte.

Record Transaction : Type := mkTransaction {
  Version : Z;
  Nonce : Z;
  Sender : Uint160;
  SystemFee : Z;
  NetworkFee : Z;
  ValidUntilBlock : Z;
  Script : list byte;
  Attributes : list Attribute;
  Cosigners : list Cosigner;
  Scripts : list Witness;
  Network : Z;
  hash : Uint256;               (* double SHA256, memoised *)
  verificationHash : Uint256;   (* single SHA256, memoised *)
  Trimmed : bool
}.

(** [util.Uint256{}] *)
Definition zero256 : Uint256 := 0.

Definition NewTrimmedTX (h : Uint256) : Transaction :=
  {| Version := 0; Nonce := 0; Sender := 0; SystemFee := 0; NetworkFee := 0;
     ValidUntilBlock := 0; Script := []; Attributes := []; Cosigners := [];
     Scripts := []; Network := 0; hash := h; verificationHash := zero256;
     Trimmed := true |}.

(** [nonce] is the value [rand.Uint32()] returns. *)
Definition New (network : Z) (script : list byte) (gas : Z) (nonce : Z) : Transaction :=
  {| Version := 0; Nonce := nonce; Sender := 0; SystemFee := gas; NetworkFee := 0;
     ValidUntilBlock := 0; Script := script; Attributes := []; Cosigners := [];
     Scripts := []; Network := network; hash := zero256;
     verificationHash := zero256; Trimmed := false |}.

(** [uint64(x)] of an int64. *)
Definition uint64 (x : Z) : Z := x mod 2 ^ 64.

Definition encodeHashableFields (t : Transaction) (bw : BinWriter) : BinWriter :=
  if (length (Script t) =? 0)%nat
  then mkWriter (buf bw) (Some "transaction has no script")
  else
    let bw := WriteB (byte_of_Z (Version t)) bw in
    let bw := WriteU32LE (Nonce t) bw in
    let bw := EncodeBinary Uint160_encoding (Sender t) bw in
    let bw := WriteU64LE (uint64 (SystemFee t)) bw in
    let bw := WriteU64LE (uint64 (NetworkFee t)) bw in
    let bw := WriteU32LE (ValidUntilBlock t) bw in
    let bw := WriteArray Attribute_encoding (Attributes t) bw in
    let bw := WriteArray Cosigner_encoding (Cosigners t) bw in
    WriteVarBytes (Script t) bw.

(** The part of the transaction which must be signed; [None] is nil. *)
Definition GetSignedPart (t : Transaction) : option (list byte) :=
  let buf := NewBufBinWriter in
  let buf := WriteU32LE (Network t) buf in
  let buf := encodeHashableFields t buf in
  Bytes buf.

Definition updateHashes (t : Transaction) (b : list byte) : Transaction :=
  let vh := Sha256 b in
  {| Version := Version t; Nonce := Nonce t; Sender := Sender t;
     SystemFee := SystemFee t; NetworkFee := NetworkFee t;
     ValidUntilBlock := ValidUntilBlock t; Script := Script t;
     Attributes := Attributes t; Cosigners := Cosigners t;
     Scripts := Scripts t; Network := Network t;
     hash := Sha256 (BytesBE vh); verificationHash := vh;
     Trimmed := Trimmed t |}.

(** Returns the error, if any, and the transaction as it is left. *)
Definition createHash (t : Transaction) : option string * Transaction :=
  match GetSignedPart t with
  | None => (Some "failed to serialize hashable data", t)
  | Some b => (None, updateHashes t b)
  end.

Definition Hash (t : Transaction) : outcome (Uint256 * Transaction) :=
  if hash t =? zero256 then
    match createHash t with
    | (Some _, _) => Panic "failed to compute hash!"
    | (None, t1) => Ok (hash t1, t1)
    end
  else Ok (hash t, t).

Definition VerificationHash (t : Transaction) : outcome (Uint256 * Transaction) :=
  if verificationHash t =? zero256 then
    match createHash t with
    | (Some _, _) => Panic "failed to compute hash!"
    | (None, t1) => Ok (verificationHash t1, t1)
    end
  else Ok (verificationHash t, t).

(** A caller's view of a transaction: the two hash accessors, called in
    any order. *)
Inductive call : Type := CallHash | CallVerificationHash.

Definition perform (c : call) (t : Transaction) : outcome (Uint256 * Transaction) :=
  match c with
  | CallHash => Hash t
  | CallVerificationHash => VerificationHash t
  end.

Fixpoint after (cs : list call) (t : Transaction) : outcome Transaction :=
  match cs with
  | [] => Ok t
  | c :: rest =>
      match perform c t with
      | Ok (_, t1) => after rest t1
      | Panic m => Panic m
      end
  end.

(** What the two accessors are expected to return for the signed part [b]. *)
Definition expected (c : call) (b : list byte) : Uint256 :=
  match c with
  | CallHash => Sha256 (BytesBE (Sha256 b))
  | CallVerificationHash => Sha256 b
  end.

(** Each memo field is still unset or holds the hash of the signed part. *)
Definition memo_ok (b : list byte) (t : Transaction) : Prop :=
  (hash t = zero256 \/ hash t = expected CallHash b) /\
  (verificationHash t = zero256 \/ verificationHash t = expected CallVerificationHash b).

End Transaction.

Arguments hash {Attribute Cosigner Witness} _.
Arguments verificationHash {Attribute Cosigner Witness} _.
Arguments Network {Attribute Cosigner Witness} _.
Arguments Script {Attribute Cosigner Witness} _.

End Tx.

(** *** The wire form of a transaction *)

Module TxWire.

Import BinIO Tx.

Section Wire.

Variables Attribute Cosigner Witness : Type.
Variable Attribute_encoding : Attribute -> option (list byte).
Variable Cosigner_encoding : Cosigner -> option (list byte).
Variable Uint160_encoding : Uint160 -> option (list byte).
Variable Witness_encoding : Witness -> option (list byte).

(** [Transaction.EncodeBinary]: the hashable fields, then the witnesses. *)
Definition EncodeBinary (t : Transaction Attribute Cosigner Witness) (bw : BinWriter)
  : BinWriter :=
  let bw := encodeHashableFields Attribute Cosigner Witness
              Attribute_encoding Cosigner_encoding Uint160_encoding t bw in
  WriteArray Witness_encoding (Scripts Attribute Cosigner Witness t) bw.

(** [Transaction.Bytes]; [None] is nil. *)
Definition Bytes (t : Transaction Attribute Cosigner Witness) : option (list byte) :=
  let buf := NewBufBinWriter in
  let buf := EncodeBinary t buf in
  BinIO.Bytes buf.

End Wire.

End TxWire.

(** ** pkg/core/interop/storage/find.go *)

Module StorageFind.

(** Modelled from the spec: package stackitem is not among the sources; the
    item variants are those of the spec's data model. [Value()] of a
    ByteArray or a Buffer is a byte slice, of an Array or a Struct a slice
    of items. *)
Inductive Item : Type :=
| Null
| BoolT (b : bool)
| Integer (z : Z)
| ByteArray (bs : list byte)
| Buffer (bs : list byte)
| Array (items : list Item)
| Struct (items : list Item)
| Map (entries : list (Item * Item))
| Interop
| Pointer (pos : Z).

Record MapElement : Type := mkElement {
  Key : Item;
  Value_ : Item
}.

(** [it.Value().([]byte)]: [None] is the failed type assertion. *)
Definition as_bytes (it : Item) : option (list byte) :=
  match it with
  | ByteArray bs | Buffer bs => Some bs
  | _ => None
  end.

(** [it.Value().([]stackitem.Item)] *)
Definition as_items (it : Item) : option (list Item) :=
  match it with
  | Array l | Struct l => Some l
  | _ => None
  end.

Definition FindDefault : Z := 0.
Definition FindKeysOnly : Z := Z.shiftl 1 0.
Definition FindRemovePrefix : Z := Z.shiftl 1 1.
Definition FindValuesOnly : Z := Z.shiftl 1 2.
Definition FindDeserialize : Z := Z.shiftl 1 3.
Definition FindPick0 : Z := Z.shiftl 1 4.
Definition FindPick1 : Z := Z.shiftl 1 5.
Definition FindAll : Z :=
  Z.lor FindDefault (Z.lor FindKeysOnly (Z.lor FindRemovePrefix (Z.lor FindValuesOnly
    (Z.lor FindDeserialize (Z.lor FindPick0 FindPick1))))).

Record Iterator : Type := mkIterator {
  m : list MapElement;
  opts : Z;
  index : Z
}.

Definition NewIterator (elems : list MapElement) (opts : Z) : Iterator :=
  {| m := elems; opts := opts; index := -1 |}.

Definition Next (s : Iterator) : bool * Iterator :=
  let s1 :=
    if index s <? Z.of_nat (length (m s))
    then {| m := m s; opts := opts s; index := GoInt.wrap (index s + 1) |}
    else s in
  (index s1 <? Z.of_nat (length (m s1)), s1).

Definition has (o flag : Z) : bool := negb (Z.land o flag =? 0).

Section Value.

(** [stackitem.DeserializeItem]: [None] is a decoding error. *)
Variable DeserializeItem : list byte -> option Item.

Definition Value (s : Iterator) : outcome Item :=
  match GoInt.index (m s) (index s) with
  | None => Panic "index out of range"
  | Some e =>
      match as_bytes (Key e) with
      | None => Panic "interface conversion"
      | Some key =>
          let key' :=
            if has (opts s) FindRemovePrefix
            then GoInt.slice key 1 (Z.of_nat (length key))
            else Some key in
          match key' with
          | None => Panic "slice bounds out of range"
          | Some key =>
              if has (opts s) FindKeysOnly then Ok (ByteArray key)
              else
                let value := Ok (Value_ e) in
                let value :=
                  if has (opts s) FindDeserialize then
                    match as_bytes (Value_ e) with
                    | None => Panic "interface conversion"
                    | Some bs =>
                        match DeserializeItem bs with
                        | None => Panic "deserialization error"
                        | Some v => Ok v
                        end
                    end
                  else value in
                let pick (i : Z) (value : outcome Item) : outcome Item :=
                  match value with
                  | Panic msg => Panic msg
                  | Ok v =>
                      match as_items v with
                      | None => Panic "interface conversion"
                      | Some items =>
                          match GoInt.index items i with
                          | None => Panic "index out of range"
                          | Some x => Ok x
                          end
                      end
                  end in
                let value :=
                  if has (opts s) FindPick0 then pick 0 value
                  else if has (opts s) FindPick1 then pick 1 value
                  else value in
                match value with
                | Panic msg => Panic msg
                | Ok value =>
                    if has (opts s) FindValuesOnly then Ok value
                    else Ok (Struct [ByteArray key; value])
                end
          end
      end
  end.

End Value.

Section Iterate.

Variable DeserializeItem : list byte -> option Item.

(** [k] calls of [Next] in a row. *)
Fixpoint advance (k : nat) (s : Iterator) : Iterator :=
  match k with
  | O => s
  | S k' => advance k' (Next s).2
  end.

(** The loop of the iterator's users,
    [for it.Next() { out = append(out, it.Value()) }]; [None] if it has
    not come to its end within [fuel] rounds. *)
Fixpoint collect (fuel : nat) (s : Iterator) : option (outcome (list Item)) :=
  match fuel with
  | O => None
  | S fuel' =>
      let '(more, s1) := Next s in
      if more then
        match Value DeserializeItem s1 with
        | Panic msg => Some (Panic msg)
        | Ok v =>
            match collect fuel' s1 with
            | None => None
            | Some (Panic msg) => Some (Panic msg)
            | Some (Ok vs) => Some (Ok (v :: vs))
            end
        end
      else Some (Ok [])
  end.

End Iterate.

End StorageFind.

(** ** package vm: the states of the machine *)

Module Vm.

(** Modelled from the spec: the state enum of the VM, {None, Halt, Fault,
    Break}; [Vmstate] is its name in the signature of [stackInfo]. *)
Inductive Vmstate : Type := NONE | HALT | FAULT | BREAK.

(** Modelled from the spec: the VM's part of the error taxonomy. *)
Inductive VMError : Type :=
| StackUnderflow
| TypeMismatch
| ArithmeticOverflow
| InvalidJumpTarget
| GasLimitExceeded
| UnhandledException
| InvalidInterop
| SerializationError.

End Vm.

(** ** package vm: an instruction fetching its operand *)

Module Interp.

Import Vm VmContext.

(** The operand reads of context.go an instruction can ask for. *)
Inductive Operand : Type :=
| OpUint16
| OpUint32
| OpBytes (n : Z)
| OpVarBytes.

(** What a read hands to the instruction. *)
Inductive Immediate : Type :=
| Number (v : Z)
| Data (bs : list byte).

(** The read of context.go behind each operand, with its result as the
    instruction receives it: [None] is the nil slice. *)
Definition read (o : Operand) (c : Context) : outcome (option Immediate * Context) :=
  match o with
  | OpUint16 =>
      match readUint16 c with
      | Ok (v, c1) => Ok (Some (Number v), c1)
      | Panic msg => Panic msg
      end
  | OpUint32 =>
      match readUint32 c with
      | Ok (v, c1) => Ok (Some (Number v), c1)
      | Panic msg => Panic msg
      end
  | OpBytes n =>
      match readBytes n c with
      | Ok (b, c1) => Ok (Data <$> b, c1)
      | Panic msg => Panic msg
      end
  | OpVarBytes =>
      match readVarBytes c with
      | Ok (b, c1) => Ok (Data <$> b, c1)
      | Panic msg => Panic msg
      end
  end.

(** Modelled from the spec: the interpreter (Run, the instruction handlers
    and the recovery around them, package vm) is not among the sources. By
    the spec an out-of-bounds operand read faults rather than panics, and
    every error inside the VM surfaces as the Fault state, never as a panic
    of the host: a Go panic raised while the operand is read is recovered
    into Fault, and an operand that could not be read (the nil slice) is an
    error of the instruction. Otherwise the instruction goes on, in state
    None, with the operand. *)
Definition fetchOperand (o : Operand) (c : Context)
  : Vmstate * option Immediate * Context :=
  match read o c with
  | Panic _ => (FAULT, None, c)
  | Ok (None, c1) => (FAULT, None, c1)
  | Ok (Some v, c1) => (NONE, Some v, c1)
  end.

End Interp.

(** ** package vm: the integer opcodes behind [opFunc] *)

Module Arith.

Import Vm.

(** The entries of the dispatch table [opFunc] that leave an integer on the
    stack: six take one operand, twelve take two. The table's comparisons
    and tests (LT, NUMEQUAL, NZ, WITHIN and the like) leave a Bool, which no
    bit width bounds; they are not listed. *)
Inductive Instruction : Type :=
| INC | DEC | SIGN | NEGATE | ABS | INVERT
| ADD | SUB | MUL | DIV | MOD | SHL | SHR | MIN | MAX | AND | OR | XOR.

(** Modelled from the spec: the stack items for which the spec states a
    rule of coercion to Integer. *)
Inductive StackItem : Type :=
| Integer (z : Z)
| BoolT (b : bool)
| ByteString (bs : list byte)
| Array (items : list StackItem)
| Struct (items : list StackItem)
| Map (entries : list (StackItem * StackItem)).

Definition Estack : Type := list StackItem.

Section Width.

(** Modelled from the spec: the maximum bit width of an Integer is a
    configuration parameter (the spec leaves its value open). *)
Variable MaxBitWidth : Z.

(** The quotient and the remainder of two big integers for a divisor other
    than zero: the spec does not say how they round. *)
Variables quotient remainder : Z -> Z -> Z.

(** The error of an operation that has no result (a zero divisor, a
    negative shift count): the spec names none. *)
Variable undefined_error : VMError.

(** The number of bits of the two's-complement form of [r], sign bit
    included: 1 for 0 and -1, 8 for 127 and -128, 9 for 128 and -129. *)
Definition bitLen (r : Z) : Z :=
  if 0 <=? r then Z.log2_up (r + 1) + 1 else Z.log2_up (- r) + 1.

(** A result exceeds the maximum bit width when its two's-complement form
    needs more bits than that. *)
Definition fits (r : Z) : bool := bitLen r <=? MaxBitWidth.

(** Bytes read as a little-endian two's-complement number. *)
Definition signed_le (bs : list byte) : Z :=
  let u := VmContext.le_value bs in
  let w := 8 * Z.of_nat (length bs) in
  if (w =? 0) || (u <? 2 ^ (w - 1)) then u else u - 2 ^ w.

(** Modelled from the spec: [TryInteger]. A Boolean is 0 or 1, a ByteString
    is its bytes as a little-endian two's-complement number up to the
    maximum width, and an Array, a Struct or a Map is not coercible;
    [None] is the failed coercion. *)
Definition TryInteger (it : StackItem) : option Z :=
  match it with
  | Integer z => Some z
  | BoolT b => Some (if b then 1 else 0)
  | ByteString bs =>
      if 8 * Z.of_nat (length bs) <=? MaxBitWidth then Some (signed_le bs) else None
  | Array _ | Struct _ | Map _ => None
  end.

(** Modelled from the spec: the integer handlers of package vm (Add, Sub,
    Mul and the others named in [opFunc]) are not among the sources. Each
    pops its operands, the right one first, coerces them with
    [TryInteger], computes on the unbounded integers and faults with
    ArithmeticOverflow instead of pushing a result that exceeds the maximum
    bit width. *)
Definition settle (r : option Z) (rest : Estack) : Vmstate * option VMError * Estack :=
  match r with
  | None => (FAULT, Some undefined_error, rest)
  | Some r =>
      if fits r then (NONE, None, Integer r :: rest)
      else (FAULT, Some ArithmeticOverflow, rest)
  end.

Definition unop (f : Z -> option Z) (st : Estack) : Vmstate * option VMError * Estack :=
  match st with
  | x :: rest =>
      match TryInteger x with
      | Some a => settle (f a) rest
      | None => (FAULT, Some TypeMismatch, rest)
      end
  | [] => (FAULT, Some StackUnderflow, st)
  end.

Definition binop (f : Z -> Z -> option Z) (st : Estack)
  : Vmstate * option VMError * Estack :=
  match st with
  | y :: x :: rest =>
      match TryInteger y, TryInteger x with
      | Some b, Some a => settle (f a b) rest
      | _, _ => (FAULT, Some TypeMismatch, rest)
      end
  | _ => (FAULT, Some StackUnderflow, st)
  end.

Definition Inc := unop (fun a => Some (a + 1)).
Definition Dec := unop (fun a => Some (a - 1)).
Definition Sign := unop (fun a => Some (Z.sgn a)).
Definition Negate := unop (fun a => Some (- a)).
Definition Abs := unop (fun a => Some (Z.abs a)).
Definition Invert := unop (fun a => Some (Z.lnot a)).
Definition Add := binop (fun a b => Some (a + b)).
Definition Sub := binop (fun a b => Some (a - b)).
Definition Mul := binop (fun a b => Some (a * b)).
Definition Div := binop (fun a b => if b =? 0 then None else Some (quotient a b)).
Definition Mod := binop (fun a b => if b =? 0 then None else Some (remainder a b)).
Definition Shl := binop (fun a b => if b <? 0 then None else Some (Z.shiftl a b)).
Definition Shr := binop (fun a b => if b <? 0 then None else Some (Z.shiftr a b)).
Definition Min := binop (fun a b => Some (Z.min a b)).
Definition Max := binop (fun a b => Some (Z.max a b)).
Definition And := binop (fun a b => Some (Z.land a b)).
Definition Or := binop (fun a b => Some (Z.lor a b)).
Definition Xor := binop (fun a b => Some (Z.lxor a b)).

(** The dispatch table [opFunc], restricted to the opcodes above. *)
Definition opFunc (op : Instruction) : Estack -> Vmstate * option VMError * Estack :=
  match op with
  | XOR => Xor
  | OR => Or
  | AND => And
  | INVERT => Invert
  | MIN => Min
  | MAX => Max
  | SHR => Shr
  | SHL => Shl
  | INC => Inc
  | DEC => Dec
  | DIV => Div
  | MOD => Mod
  | MUL => Mul
  | ABS => Abs
  | SIGN => Sign
  | NEGATE => Negate
  | ADD => Add
  | SUB => Sub
  end.

Definition executeOp (op : Instruction) (st : Estack) : Vmstate * option VMError * Estack :=
  opFunc op st.

(** An integer of at most [MaxBitWidth] bits. *)
Definition in_range (r : Z) : Prop :=
  - 2 ^ (MaxBitWidth - 1) <= r < 2 ^ (MaxBitWidth - 1).

(** The outcome [res] of an opcode whose exact result is [r]: [r] on top of
    [rest] if it is in range, and the ArithmeticOverflow fault if not. *)
Definition exact_or_overflow (res : Vmstate * option VMError * Estack)
    (r : Z) (rest : Estack) : Prop :=
  (in_range r -> res = (NONE, None, Integer r :: rest)) /\
  (~ in_range r -> res = (FAULT, Some ArithmeticOverflow, rest)).

(** Every Integer on the stack is in range. *)
Definition bounded (st : Estack) : Prop :=
  Forall (fun it => forall z, it = Integer z -> in_range z) st.

End Width.

End Arith.

(** ** pkg/core/storage/memory_store.go *)

Module MemStore.

(** A key is the Go string made of the key bytes; a value is a possibly
    nil byte slice; the map [del], used as a set, is a [gset]. *)
Definition bytes : Type := option (list byte).

Record MemoryStore : Type := mkStore {
  mem : gmap string bytes;
  del : gset string
}.

Record MemoryBatch : Type := mkBatch {
  m : gmap string bytes;
  bdel : gset string
}.

Inductive StoreError : Type := ErrKeyNotFound.

(** [MemoryBatch.Put] stores a copy, which is never nil. *)
Definition Batch_Put (b : MemoryBatch) (k : string) (v : bytes) : MemoryBatch :=
  let vcopy := Some (default [] v) in
  mkBatch (<[k := vcopy]> (m b)) (bdel b ∖ {[k]}).

Definition Batch_Delete (b : MemoryBatch) (k : string) : MemoryBatch :=
  mkBatch (delete k (m b)) (bdel b ∪ {[k]}).

Definition NewMemoryStore : MemoryStore := mkStore ∅ ∅.

Definition newMemoryBatch : MemoryBatch := mkBatch ∅ ∅.

(** The value and the error, as Go returns them. *)
Definition Get (s : MemoryStore) (key : string) : bytes * option StoreError :=
  match mem s !! key with
  | Some val => (val, None)
  | None => (None, Some ErrKeyNotFound)
  end.

Definition Put (s : MemoryStore) (key : string) (value : bytes) : MemoryStore :=
  mkStore (<[key := value]> (mem s)) (del s ∖ {[key]}).

Definition Delete (s : MemoryStore) (key : string) : MemoryStore :=
  mkStore (delete key (mem s)) (del s ∪ {[key]}).

(** [PutBatch] with the orders in which its two [range] loops happen to
    visit the batch: first the deletions, then the puts. *)
Definition PutBatch_in (dels : list string) (puts : list (string * bytes))
    (s : MemoryStore) : MemoryStore :=
  foldl (fun s kv => Put s kv.1 kv.2) (foldl Delete s dels) puts.

Definition PutBatch (s : MemoryStore) (b : MemoryBatch) : MemoryStore :=
  PutBatch_in (elements (bdel b)) (map_to_list (m b)) s.

(** [Seek] with the order in which its loop visits the map: the calls it
    makes to [f]. *)
Definition Seek_in (order : list (string * bytes)) (key : string)
  : list (string * bytes) :=
  List.filter (fun kv => String.prefix key kv.1) order.

Definition Seek (s : MemoryStore) (key : string) : list (string * bytes) :=
  Seek_in (map_to_list (mem s)) key.

(** [Persist] into another memory store, with the orders of its two loops.
    The result is the number of keys put, the store left behind and the
    store written to; a memory store never returns an error. *)
Definition Persist_in (puts : list (string * bytes)) (dels : list string)
    (ps : MemoryStore) : Z * MemoryStore * MemoryStore :=
  let batch := newMemoryBatch in
  let batch := foldl (fun b kv => Batch_Put b kv.1 kv.2) batch puts in
  let batch := foldl Batch_Delete batch dels in
  let keys := Z.of_nat (length puts) in
  let dkeys := Z.of_nat (length dels) in
  let ps := if negb (keys =? 0) || negb (dkeys =? 0) then PutBatch ps batch else ps in
  (keys, NewMemoryStore, ps).

Definition Persist (s ps : MemoryStore) : Z * MemoryStore * MemoryStore :=
  Persist_in (map_to_list (mem s)) (elements (del s)) ps.

(** The stores a caller can build. *)
Inductive StoreOp : Type :=
| SPut (key : string) (value : bytes)
| SDelete (key : string)
| SPutBatch (b : MemoryBatch).

Definition store_op (s : MemoryStore) (op : StoreOp) : MemoryStore :=
  match op with
  | SPut k v => Put s k v
  | SDelete k => Delete s k
  | SPutBatch b => PutBatch s b
  end.

(** The batches a caller can build. *)
Inductive BatchOp : Type :=
| BPut (key : string) (value : bytes)
| BDelete (key : string).

Definition batch_op (b : MemoryBatch) (op : BatchOp) : MemoryBatch :=
  match op with
  | BPut k v => Batch_Put b k v
  | BDelete k => Batch_Delete b k
  end.

End MemStore.

(** ** Sample values for running the model *)

Module Samples.
Import Mempool.

Definition in1 : Input := mkInput 11 0.
Definition in2 : Input := mkInput 12 0.
Definition in3 : Input := mkInput 13 1.

(** Three payments that spend different outputs, and a fourth that spends
    what [txB] spends. The fee is read off the hash: 5, 3, 7 and 9. *)
Definition txA : Transaction := mkTransaction 128 [in1] 501.
Definition txB : Transaction := mkTransaction 128 [in2] 302.
Definition txC : Transaction := mkTransaction 128 [in3] 703.
Definition txD : Transaction := mkTransaction 128 [in2] 904.

Definition feer : Feer :=
  mkFeer (fun t => Hash t / 100) (fun f => f <? 0) (fun t => Hash t / 100).

(** A pool of capacity 1 that holds [txA]. *)
Definition poolA : Pool :=
  mkPool {[ 501 := newItem txA feer 0 ]} [newItem txA feer 0] 1.

(** A pool of capacity 2 that holds [txA] and [txB]. *)
Definition poolAB : Pool :=
  mkPool (<[ 302 := newItem txB feer 1 ]> {[ 501 := newItem txA feer 0 ]})
         [newItem txA feer 0; newItem txB feer 1] 2.

(** Two low-priority items: a claim with a small fee, a payment with a
    large one. *)
Definition claimItem : item :=
  mkItem (mkTransaction ClaimType [] 1) 0 1 0 true.
Definition paymentItem : item :=
  mkItem (mkTransaction 128 [] 2) 0 100 0 true.

(** A fee policy under which every transaction is of low priority, a
    claim that pays 1 and a payment that pays 100. *)
Definition lowFeer : Feer :=
  mkFeer (fun t => Hash t / 100) (fun _ => true) (fun t => Hash t / 100).
Definition claimTx : Transaction := mkTransaction ClaimType [] 100.
Definition paymentTx : Transaction := mkTransaction 128 [in3] 10000.

(** A payment that spends what [txA] spends. *)
Definition txE : Transaction := mkTransaction 128 [in1] 605.

End Samples.

Module TxSamples.
Import BinIO Tx.

(** A stand-in for the digest, for running the model: any function of the
    bytes will do. *)
Definition digest (bs : list byte) : Uint256 := 1 + VmContext.le_value bs.
Definition bytes_of (h : Uint256) : list byte := le_bytes 32 h.
Definition uint160_bytes (u : Uint160) : option (list byte) := Some (le_bytes 20 u).
Definition no_encoding (_ : unit) : option (list byte) := Some [].

End TxSamples.

Module FindSamples.
Import StorageFind.

(** A deserializer that accepts nothing. *)
Definition no_items (_ : list byte) : option Item := None.

Definition entry : MapElement :=
  mkElement (ByteArray [x0a; x0b; x01]) (ByteArray [x2a]).

End FindSamples.

(** * Properties *)

Section ContextFacts.
Import VmContext.

Lemma wrap_small z : GoInt.minInt <= z <= GoInt.maxInt -> GoInt.wrap z = z.
Proof.
  unfold GoInt.wrap, GoInt.minInt, GoInt.maxInt. intros H.
  rewrite Z.mod_small; lia.
Qed.

Lemma index_Some {A} (s : list A) i :
  0 <= i < Z.of_nat (length s) -> exists x, GoInt.index s i = Some x /\ s !! Z.to_nat i = Some x.
Proof.
  intros H. unfold GoInt.index.
  destruct (Z.ltb_spec i 0); [lia|].
  destruct (lookup_lt_is_Some_2 s (Z.to_nat i)) as [x Hx]; [lia|].
  exists x. by rewrite Hx.
Qed.

Lemma slice_in_bounds {A} (s : list A) lo hi :
  0 <= lo <= hi -> hi <= Z.of_nat (length s) ->
  GoInt.slice s lo hi = Some (take (Z.to_nat (hi - lo)) (drop (Z.to_nat lo) s)).
Proof.
  intros H1 H2. unfold GoInt.slice.
  destruct (Z.leb_spec 0 lo); [|lia].
  destruct (Z.leb_spec lo hi); [|lia].
  destruct (Z.leb_spec hi (Z.of_nat (length s))); [|lia].
  reflexivity.
Qed.

(** C10. [Next] moves the instruction pointer on by one. If that takes it to
    the end of the program or beyond (the position [IP] reports is not
    below [LenInstr]), [Next] returns RET, so a script without a trailing
    RET ends by an implicit one; otherwise it returns the opcode byte at the
    new position. *)
Theorem Next_fetch (c : Context) :
  -1 <= ip c -> ip c < GoInt.maxInt ->
  (LenInstr c <= IP c -> Next c = Ok (RET, set_ip c (ip c + 1))) /\
  (IP c < LenInstr c ->
   exists b, prog c !! Z.to_nat (ip c + 1) = Some b /\
             Next c = Ok (b, set_ip c (ip c + 1))).
Proof.
  intros Hlo Hhi.
  assert (Hw : GoInt.wrap (ip c + 1) = ip c + 1).
  { apply wrap_small. unfold GoInt.minInt, GoInt.maxInt in *. lia. }
  unfold IP, LenInstr, Next. rewrite Hw. cbn [ip prog set_ip len_prog].
  unfold len_prog. cbn [prog set_ip].
  split; intros H.
  - destruct (Z.leb_spec (Z.of_nat (length (prog c))) (ip c + 1)); [done|lia].
  - destruct (Z.leb_spec (Z.of_nat (length (prog c))) (ip c + 1)); [lia|].
    destruct (index_Some (prog c) (ip c + 1)) as (b & Hb1 & Hb2); [lia|].
    exists b. by rewrite Hb1.
Qed.

Lemma readUint_overrun width msg (c : Context) :
  -1 <= ip c <= 2 ^ 32 -> 0 <= width <= 2 ^ 32 ->
  LenInstr c < IP c + width -> readUint width msg c = Panic msg.
Proof.
  intros Hip Hw H. unfold readUint, IP, LenInstr in *.
  rewrite (wrap_small (ip c + 1)) in * by (unfold GoInt.minInt, GoInt.maxInt; lia).
  rewrite (wrap_small (ip c + 1 + width)) by (unfold GoInt.minInt, GoInt.maxInt; lia).
  destruct (Z.ltb_spec (len_prog c) (ip c + 1 + width)); [done|lia].
Qed.

Lemma readUint_in_bounds width msg (c : Context) :
  -1 <= ip c <= 2 ^ 32 -> 0 <= width <= 2 ^ 32 ->
  IP c + width <= LenInstr c ->
  readUint width msg c =
    Ok (le_value (take (Z.to_nat width) (drop (Z.to_nat (IP c)) (prog c))),
        set_ip c (ip c + width)).
Proof.
  intros Hip Hw H. unfold readUint, IP, LenInstr in *.
  rewrite (wrap_small (ip c + 1)) in * by (unfold GoInt.minInt, GoInt.maxInt; lia).
  rewrite (wrap_small (ip c + 1 + width)) by (unfold GoInt.minInt, GoInt.maxInt; lia).
  rewrite (wrap_small (ip c + width)) by (unfold GoInt.minInt, GoInt.maxInt; lia).
  destruct (Z.ltb_spec (len_prog c) (ip c + 1 + width)); [lia|].
  unfold len_prog in *.
  rewrite slice_in_bounds by lia.
  replace (ip c + 1 + width - (ip c + 1)) with width by lia.
  unfold LittleEndian_Uint.
  rewrite length_take, length_drop.
  destruct (decide _) as [_|Hn]; [|lia].
  by rewrite take_take, Nat.min_id.
Qed.

Lemma readBytes_overrun n (c : Context) :
  -1 <= ip c <= 2 ^ 32 -> 0 <= n <= 2 ^ 32 ->
  LenInstr c < IP c + n -> readBytes n c = Ok (None, c).
Proof.
  intros Hip Hn H. unfold readBytes, IP, LenInstr in *.
  rewrite (wrap_small (ip c + 1)) in * by (unfold GoInt.minInt, GoInt.maxInt; lia).
  rewrite (wrap_small (ip c + 1 + n)) by (unfold GoInt.minInt, GoInt.maxInt; lia).
  destruct (Z.ltb_spec (len_prog c) (ip c + 1 + n)); [done|lia].
Qed.

Lemma readBytes_in_bounds n (c : Context) :
  -1 <= ip c <= 2 ^ 32 -> 0 <= n <= 2 ^ 32 ->
  IP c + n <= LenInstr c ->
  readBytes n c =
    Ok (Some (take (Z.to_nat n) (drop (Z.to_nat (IP c)) (prog c))),
        set_ip c (ip c + n)).
Proof.
  intros Hip Hn H. unfold readBytes, IP, LenInstr in *.
  rewrite (wrap_small (ip c + 1)) in * by (unfold GoInt.minInt, GoInt.maxInt; lia).
  rewrite (wrap_small (ip c + 1 + n)) by (unfold GoInt.minInt, GoInt.maxInt; lia).
  rewrite (wrap_small (ip c + n)) by (unfold GoInt.minInt, GoInt.maxInt; lia).
  destruct (Z.ltb_spec (len_prog c) (ip c + 1 + n)); [lia|].
  destruct (Z.ltb_spec n 0); [lia|].
  unfold len_prog in *.
  rewrite slice_in_bounds by lia.
  by replace (ip c + 1 + n - (ip c + 1)) with n by lia.
Qed.

(** The length byte is there, the payload is not. *)
Lemma readVarBytes_overrun (c : Context) (b : byte) :
  -1 <= ip c < 2 ^ 32 ->
  prog c !! Z.to_nat (IP c) = Some b ->
  LenInstr c < IP c + 1 + Z.of_N (Byte.to_N b) ->
  readVarBytes c = Ok (None, set_ip c (ip c + 1)).
Proof.
  intros Hip Hb H.
  assert (HIP : IP c = ip c + 1).
  { unfold IP. apply wrap_small. unfold GoInt.minInt, GoInt.maxInt; lia. }
  assert (HIP' : IP (set_ip c (ip c + 1)) = ip c + 2).
  { unfold IP. cbn [ip set_ip]. rewrite wrap_small; [lia|].
    unfold GoInt.minInt, GoInt.maxInt; lia. }
  assert (Hlen : IP c + 1 <= LenInstr c).
  { apply lookup_lt_Some in Hb. unfold LenInstr, len_prog. lia. }
  pose proof (Byte.to_N_bounded b) as Hb256.
  unfold readVarBytes, readByte.
  rewrite readBytes_in_bounds by lia.
  change (Z.to_nat 1) with 1%nat.
  rewrite (drop_S _ b _ Hb). cbn [take].
  apply readBytes_overrun.
  - cbn [ip set_ip]. lia.
  - lia.
  - rewrite HIP'. change (LenInstr (set_ip c (ip c + 1))) with (LenInstr c). lia.
Qed.

(** With nothing left to read, [readByte] indexes the nil slice. *)
Lemma readByte_exhausted (c : Context) :
  -1 <= ip c <= 2 ^ 32 -> LenInstr c <= IP c ->
  readByte c = Panic "index out of range".
Proof.
  intros Hip H. unfold readByte. by rewrite readBytes_overrun by lia.
Qed.

Lemma readVarBytes_in_bounds (c : Context) (b : byte) :
  -1 <= ip c < 2 ^ 32 ->
  prog c !! Z.to_nat (IP c) = Some b ->
  IP c + 1 + Z.of_N (Byte.to_N b) <= LenInstr c ->
  readVarBytes c =
    Ok (Some (take (N.to_nat (Byte.to_N b)) (drop (Z.to_nat (IP c) + 1) (prog c))),
        set_ip c (ip c + 1 + Z.of_N (Byte.to_N b))).
Proof.
  intros Hip Hb H.
  assert (HIP : IP c = ip c + 1).
  { unfold IP. apply wrap_small. unfold GoInt.minInt, GoInt.maxInt; lia. }
  assert (HIP' : IP (set_ip c (ip c + 1)) = ip c + 2).
  { unfold IP. cbn [ip set_ip]. rewrite wrap_small; [lia|].
    unfold GoInt.minInt, GoInt.maxInt; lia. }
  pose proof (Byte.to_N_bounded b) as Hb256.
  unfold readVarBytes, readByte.
  rewrite readBytes_in_bounds by lia.
  change (Z.to_nat 1) with 1%nat.
  rewrite (drop_S _ b _ Hb). cbn [take].
  rewrite readBytes_in_bounds; cbn [ip set_ip]; [|lia|lia|].
  2:{ rewrite HIP'. change (LenInstr (set_ip c (ip c + 1))) with (LenInstr c). lia. }
  rewrite HIP', HIP. cbn [prog set_ip]. do 3 f_equal.
  f_equal; [lia|]. f_equal. lia.
Qed.

(** The reads themselves signal an overrun each in its own way: the 2- and
    4-byte reads by a panic with a message of their own, [readBytes] by the
    nil slice. *)
Lemma readUint32_panics :
  readUint32 (NewContext [x01; x02]) = Panic "failed to read uint32 parameter" /\
  readBytes 3 (NewContext [x01; x02]) = Ok (None, NewContext [x01; x02]).
Proof. split; reflexivity. Qed.
End ContextFacts.

Section OperandFacts.
Import Vm VmContext Interp.

(** C2. For every execution context (instruction pointer from -1 up, below
    2^32) an instruction that asks for an operand the program is too short
    for ends in the Fault state, without a result and without a byte
    outside the buffer being read: the 2-byte read, the 4-byte read, the
    read of [n] bytes, and the length-prefixed read, both when there is no
    length byte left and when the length byte announces more bytes than
    are left (the length byte is then consumed). An operand that fits is
    the little-endian value, or the bytes, found after the instruction
    pointer, the VM stays in state None, and the pointer has moved by the
    width read. *)
Theorem reads_past_the_end (c : Context) (n : Z) :
  -1 <= ip c < 2 ^ 32 -> 0 <= n < 2 ^ 32 ->
  (LenInstr c < IP c + 2 -> fetchOperand OpUint16 c = (FAULT, None, c)) /\
  (LenInstr c < IP c + 4 -> fetchOperand OpUint32 c = (FAULT, None, c)) /\
  (LenInstr c < IP c + n -> fetchOperand (OpBytes n) c = (FAULT, None, c)) /\
  (LenInstr c <= IP c -> fetchOperand OpVarBytes c = (FAULT, None, c)) /\
  (forall b, prog c !! Z.to_nat (IP c) = Some b ->
             LenInstr c < IP c + 1 + Z.of_N (Byte.to_N b) ->
             fetchOperand OpVarBytes c = (FAULT, None, set_ip c (ip c + 1))) /\
  (IP c + 2 <= LenInstr c ->
   fetchOperand OpUint16 c =
     (NONE, Some (Number (le_value (take 2 (drop (Z.to_nat (IP c)) (prog c))))),
      set_ip c (ip c + 2))) /\
  (IP c + 4 <= LenInstr c ->
   fetchOperand OpUint32 c =
     (NONE, Some (Number (le_value (take 4 (drop (Z.to_nat (IP c)) (prog c))))),
      set_ip c (ip c + 4))) /\
  (IP c + n <= LenInstr c ->
   fetchOperand (OpBytes n) c =
     (NONE, Some (Data (take (Z.to_nat n) (drop (Z.to_nat (IP c)) (prog c)))),
      set_ip c (ip c + n))) /\
  (forall b, prog c !! Z.to_nat (IP c) = Some b ->
             IP c + 1 + Z.of_N (Byte.to_N b) <= LenInstr c ->
             fetchOperand OpVarBytes c =
               (NONE,
                Some (Data (take (N.to_nat (Byte.to_N b))
                                 (drop (Z.to_nat (IP c) + 1) (prog c)))),
                set_ip c (ip c + 1 + Z.of_N (Byte.to_N b)))).
Proof.
  intros Hip Hn. unfold fetchOperand, read, readUint16, readUint32.
  split; [|split; [|split; [|split; [|split; [|split; [|split; [|split]]]]]]].
  - intros H. by rewrite readUint_overrun by lia.
  - intros H. by rewrite readUint_overrun by lia.
  - intros H. by rewrite readBytes_overrun by lia.
  - intros H. unfold readVarBytes. by rewrite readByte_exhausted by lia.
  - intros b Hb H. by rewrite (readVarBytes_overrun c b) by (done || lia).
  - intros H. by rewrite readUint_in_bounds by lia.
  - intros H. by rewrite readUint_in_bounds by lia.
  - intros H. by rewrite readBytes_in_bounds by lia.
  - intros b Hb H. by rewrite (readVarBytes_in_bounds c b) by (done || lia).
Qed.

(** Operands asked of one-, two- and three-byte programs. *)
Lemma reads_past_the_end_witness :
  fetchOperand OpUint16 (NewContext [x01]) = (FAULT, None, NewContext [x01]) /\
  fetchOperand OpUint32 (NewContext [x01; x02]) = (FAULT, None, NewContext [x01; x02]) /\
  fetchOperand (OpBytes 3) (NewContext [x01; x02]) = (FAULT, None, NewContext [x01; x02]) /\
  fetchOperand OpVarBytes (NewContext []) = (FAULT, None, NewContext []) /\
  fetchOperand OpVarBytes (NewContext [x02; x0a]) =
    (FAULT, None, set_ip (NewContext [x02; x0a]) 0) /\
  fetchOperand OpUint16 (NewContext [x01; x02]) =
    (NONE, Some (Number 513), set_ip (NewContext [x01; x02]) 1) /\
  fetchOperand OpVarBytes (NewContext [x02; x0a; x0b]) =
    (NONE, Some (Data [x0a; x0b]), set_ip (NewContext [x02; x0a; x0b]) 2).
Proof.
  destruct (reads_past_the_end (NewContext [x01]) 3) as (H16 & _); [cbn; lia | lia |].
  destruct (reads_past_the_end (NewContext [x01; x02]) 3)
    as (_ & H32 & Hb & _ & _ & Hin & _); [cbn; lia | lia |].
  destruct (reads_past_the_end (NewContext []) 3) as (_ & _ & _ & Hv0 & _);
    [cbn; lia | lia |].
  destruct (reads_past_the_end (NewContext [x02; x0a]) 3) as (_ & _ & _ & _ & Hv1 & _);
    [cbn; lia | lia |].
  destruct (reads_past_the_end (NewContext [x02; x0a; x0b]) 3)
    as (_ & _ & _ & _ & _ & _ & _ & _ & Hv2); [cbn; lia | lia |].
  split; [apply H16; vm_compute; reflexivity|].
  split; [apply H32; vm_compute; reflexivity|].
  split; [apply Hb; vm_compute; reflexivity|].
  split; [apply Hv0; vm_compute; discriminate|].
  split; [apply (Hv1 x02); [reflexivity|vm_compute; reflexivity]|].
  split; [apply Hin; vm_compute; discriminate|].
  apply (Hv2 x02); [reflexivity|vm_compute; discriminate].
Defined.
End OperandFacts.

Section ContextSteps.
Import VmContext.

(** The one-byte script PUSH1: the first [Next] fetches it, the second one
    returns RET. *)
Lemma Next_fetch_witness :
  Next (NewContext [x51]) = Ok (x51, set_ip (NewContext [x51]) 0) /\
  Next (set_ip (NewContext [x51]) 0) = Ok (RET, set_ip (NewContext [x51]) 1).
Proof.
  split.
  - destruct (Next_fetch (NewContext [x51])) as [_ H]; [cbn; lia | vm_compute; reflexivity |].
    destruct H as (b & Hb & ->); [vm_compute; reflexivity|].
    cbn in Hb. by injection Hb as <-.
  - destruct (Next_fetch (set_ip (NewContext [x51]) 0)) as [H _];
      [cbn; lia | vm_compute; reflexivity |].
    apply H. vm_compute. discriminate.
Defined.
End ContextSteps.

Section PoolStructure.
Import Mempool.

Variable fcmp : Fixed8 -> Fixed8 -> Z.
Variable ucmp : Uint256 -> Uint256 -> Z.

Local Abbreviation cmp := (CompareTo fcmp ucmp).
Local Abbreviation probe := (Mempool.probe fcmp ucmp).

(** ** sort.Search *)

Lemma search_loop_unfold fuel f i j :
  search_loop fuel f i j =
  if (i <? j)%nat then
    match fuel with
    | O => None
    | S fuel' =>
        match f ((i + j) / 2)%nat with
        | None => None
        | Some false => search_loop fuel' f ((i + j) / 2 + 1)%nat j
        | Some true => search_loop fuel' f i ((i + j) / 2)%nat
        end
    end
  else Some i.
Proof. destruct fuel; reflexivity. Qed.

Lemma search_loop_range fuel f i j r :
  (i <= j)%nat -> search_loop fuel f i j = Some r -> (i <= r <= j)%nat.
Proof.
  revert i j. induction fuel as [|fuel IH]; intros i j Hij; rewrite search_loop_unfold.
  - destruct (Nat.ltb_spec i j); [done|]. intros [= <-]. lia.
  - destruct (Nat.ltb_spec i j) as [Hlt|]; [|intros [= <-]; lia].
    pose proof (Nat.div_mod_eq (i + j) 2) as Hd.
    pose proof (Nat.mod_upper_bound (i + j) 2) as Hm.
    destruct (f _) as [[|]|]; [| |done]; intros Hr; apply IH in Hr; lia.
Qed.

Lemma search_loop_total fuel f i j :
  (forall k, (k < j)%nat -> is_Some (f k)) -> (j - i <= fuel)%nat ->
  is_Some (search_loop fuel f i j).
Proof.
  revert i j. induction fuel as [|fuel IH]; intros i j Hf Hfuel; rewrite search_loop_unfold.
  - destruct (Nat.ltb_spec i j); [lia|]. by eexists.
  - destruct (Nat.ltb_spec i j) as [Hlt|]; [|by eexists].
    pose proof (Nat.div_mod_eq (i + j) 2) as Hd.
    pose proof (Nat.mod_upper_bound (i + j) 2) as Hm.
    destruct (Hf ((i + j) / 2)%nat) as [b ->]; [lia|].
    destruct b; apply IH; try lia; intros k Hk; apply Hf; lia.
Qed.

Lemma search_loop_first fuel f i j r :
  (forall k, (k < j)%nat -> is_Some (f k)) ->
  (forall k k', (i <= k <= k')%nat -> (k' < j)%nat -> f k = Some true -> f k' = Some true) ->
  (i <= j)%nat ->
  search_loop fuel f i j = Some r ->
  (forall k, (i <= k < r)%nat -> f k = Some false) /\
  (forall k, (r <= k < j)%nat -> f k = Some true).
Proof.
  revert i j. induction fuel as [|fuel IH]; intros i j Hdef Hmono Hij; rewrite search_loop_unfold.
  - destruct (Nat.ltb_spec i j); [done|]. intros [= <-]. split; intros; lia.
  - destruct (Nat.ltb_spec i j) as [Hlt|]; [|intros [= <-]; split; intros; lia].
    pose proof (Nat.div_mod_eq (i + j) 2) as Hd.
    pose proof (Nat.mod_upper_bound (i + j) 2) as Hm.
    set (h := ((i + j) / 2)%nat) in *.
    destruct (f h) as [[|]|] eqn:Hfh; [| |done]; intros Hr.
    + pose proof Hr as Hrange. apply search_loop_range in Hrange; [|lia].
      apply IH in Hr as [Hlo Hhi];
        [|intros; apply Hdef; lia|intros; apply (Hmono k k'); auto; lia|lia].
      split; [done|]. intros k Hk.
      destruct (decide (k < h)%nat); [apply Hhi; lia|].
      apply (Hmono h k); auto; lia.
    + pose proof Hr as Hrange. apply search_loop_range in Hrange; [|lia].
      apply IH in Hr as [Hlo Hhi];
        [|intros; apply Hdef; lia|intros; apply (Hmono k k'); auto; lia|lia].
      split; [|done]. intros k Hk.
      destruct (decide (h < k)%nat); [apply Hlo; lia|].
      destruct (Hdef k) as [[|] Hfk]; [lia| |done].
      rewrite (Hmono k h) in Hfh; auto; [done|lia..].
Qed.

(** ** The slice surgery of Add *)

Lemma place_insert_at l x n :
  (n <= length l)%nat -> place (l ++ [x]) n x = Some (insert_at n x l).
Proof.
  intros Hn. unfold place, insert_at. rewrite length_app. cbn [length].
  destruct (Z.eqb_spec (Z.of_nat n) (Z.of_nat (length l + 1) - 1)) as [He|He]; cbn [negb].
  - assert (n = length l) as -> by lia.
    by rewrite take_ge, drop_ge by lia.
  - assert (n < length l)%nat by lia.
    destruct (Nat.leb_spec (n + 1) (length l + 1)); [|lia].
    f_equal. unfold copy_up. rewrite length_app. cbn [length].
    rewrite take_app_le by lia.
    rewrite drop_app_le by lia.
    rewrite take_app_le by (rewrite length_drop; lia).
    replace (length l + 1 - (n + 1))%nat with (length (drop n l)) by (rewrite length_drop; lia).
    rewrite firstn_all.
    destruct (lookup_lt_is_Some_2 l n) as [y Hy]; [lia|].
    rewrite <- (take_drop n l) at 1.
    replace (n + 1)%nat with (length (take n l) + 1)%nat by (rewrite length_take; lia).
    rewrite take_app_add'; [|done].
    rewrite (drop_S _ _ _ Hy). cbn [take].
    rewrite <- app_assoc. cbn [app].
    rewrite insert_app_r_alt by (rewrite length_take; lia).
    replace (n - length (take n l))%nat with 0%nat by (rewrite length_take; lia).
    reflexivity.
Qed.

Lemma insert_at_perm n x l : insert_at n x l ≡ₚ x :: l.
Proof.
  unfold insert_at. rewrite <- Permutation_middle. by rewrite take_drop.
Qed.

Lemma insert_at_length n x l : length (insert_at n x l) = S (length l).
Proof. by rewrite insert_at_perm. Qed.

Lemma probe_total x l k : (k < length l)%nat -> is_Some (probe x l k).
Proof.
  intros Hk. unfold probe.
  destruct (lookup_lt_is_Some_2 l k Hk) as [o ->]. by eexists.
Qed.

Lemma Add_cases mp t fee now :
  verifyInputs mp t = true -> containsKey mp (Hash t) = false ->
  let x := newItem t fee now in
  let l := verifiedTxes mp in
  let vmap := <[Hash t := x]> (verifiedMap mp) in
  exists n, sort_Search (length l) (probe x l) = Some n /\ (n <= length l)%nat /\
    if decide (length l = capacity mp) then
      if decide (n = length l)
      then Add fcmp ucmp mp t fee now = Ok (Some ErrOOM, mkPool vmap l (capacity mp))
      else exists l' u, l = l' ++ [u] /\
             Add fcmp ucmp mp t fee now =
               Ok (None, mkPool (delete (Hash (txn u)) vmap) (insert_at n x l') (capacity mp))
    else Add fcmp ucmp mp t fee now =
           Ok (None, mkPool vmap (insert_at n x l) (capacity mp)).
Proof.
  intros Hv Hc x l vmap.
  destruct (search_loop_total (length l) (probe x l) 0 (length l)) as [n Hn];
    [intros; by apply probe_total|lia|].
  pose proof Hn as Hrange. apply search_loop_range in Hrange; [|lia].
  exists n. split; [done|]. split; [lia|].
  unfold Add. rewrite Hv, Hc. cbn [negb].
  fold x. fold l.
  change (sort_Search (length l) _) with (search_loop (length l) (probe x l) 0 (length l)).
  rewrite Hn. clearbody l.
  destruct (decide (length l = capacity mp)) as [Hcap|Hcap].
  - rewrite <- Hcap, Nat.eqb_refl.
    destruct (decide (n = length l)) as [->|Hne].
    + by rewrite Nat.eqb_refl.
    + destruct (Nat.eqb_spec n (length l)); [done|].
      destruct l as [|u l' _] using rev_ind; [cbn in *; lia|].
      exists l', u. split; [done|].
      rewrite length_app in *. cbn [length] in *.
      unfold GoInt.index.
      destruct (Z.ltb_spec (Z.of_nat (length l' + 1) - 1) 0); [lia|].
      replace (Z.to_nat (Z.of_nat (length l' + 1) - 1)) with (length l' + 0)%nat by lia.
      rewrite lookup_app_r, Nat.add_comm; [|lia].
      replace (0 + length l' - length l')%nat with 0%nat by lia. cbn [lookup list_lookup].
      replace (length l' + 1 - 1)%nat with (length l' + 0)%nat by lia.
      rewrite insert_app_r. cbn [insert list_insert].
      rewrite place_insert_at by lia. done.
  - destruct (Nat.eqb_spec (length l) (capacity mp)); [done|].
    rewrite place_insert_at by lia. done.
Qed.

(** ** Input conflicts *)

Lemma Input_eqb_eq a b : Input_eqb a b = true <-> a = b.
Proof.
  unfold Input_eqb. destruct a as [h1 i1], b as [h2 i2]. cbn.
  rewrite andb_true_iff, !Z.eqb_eq. split; [intros [-> ->]; done|]. by intros [= -> ->].
Qed.

Lemma verifyInputs_true mp t :
  verifyInputs mp t = true <->
  (forall e, e ∈ verifiedTxes mp -> inputs_disjoint (txn e) t).
Proof.
  unfold verifyInputs, inputs_disjoint.
  destruct (Nat.eqb_spec (length (Inputs t)) 0) as [Hnil|Hnil].
  - apply nil_length_inv in Hnil. rewrite Hnil. split; [|done].
    intros _ e _ i _ Hi. by apply not_elem_of_nil in Hi.
  - rewrite forallb_forall. split.
    + intros H e He i Hi Hj.
      apply list_elem_of_In in He. specialize (H e He).
      rewrite forallb_forall in H. apply list_elem_of_In in Hi. specialize (H i Hi).
      rewrite forallb_forall in H. apply list_elem_of_In in Hj. specialize (H i Hj).
      apply negb_true_iff in H.
      assert (Input_eqb i i = true) by by apply Input_eqb_eq. congruence.
    + intros H e He. apply list_elem_of_In in He.
      rewrite forallb_forall. intros i Hi. apply list_elem_of_In in Hi.
      rewrite forallb_forall. intros j Hj. apply list_elem_of_In in Hj.
      apply negb_true_iff. destruct (Input_eqb i j) eqn:Heq; [|done].
      apply Input_eqb_eq in Heq as ->. by destruct (H e He j Hi).
Qed.

Lemma containsKey_false mp h :
  containsKey mp h = false <-> verifiedMap mp !! h = None.
Proof. unfold containsKey. by destruct (verifiedMap mp !! h). Qed.


(** ** Conflict freedom is kept by every operation *)

Lemma inputs_disjoint_sym a b : inputs_disjoint a b -> inputs_disjoint b a.
Proof. intros H i Hi Hj. by apply (H i Hj). Qed.

Lemma conflict_free_txs_submseteq l1 l2 :
  l1 ⊆+ l2 -> conflict_free_txs l2 -> conflict_free_txs l1.
Proof.
  induction 1 as [|x l1 l2 Hsub IH|x y l|x l1 l2 Hsub IH|l1 l2 l3 _ IH1 _ IH2]; cbn.
  - done.
  - intros [Hx Hcf]. split; [|by apply IH].
    rewrite Forall_forall in *. intros y Hy. apply Hx. by apply (elem_of_submseteq l1).
  - intros (Hy & Hx & Hcf). apply Forall_cons in Hy as [Hyx Hy].
    repeat split; [|done..]. constructor; [by apply inputs_disjoint_sym|done].
  - intros [_ Hcf]. by apply IH.
  - intros Hcf. by apply IH1, IH2.
Qed.

Lemma conflict_free_submseteq l1 l2 :
  l1 ⊆+ l2 -> conflict_free l2 -> conflict_free l1.
Proof.
  unfold conflict_free. intros Hsub. apply conflict_free_txs_submseteq.
  by apply fmap_submseteq.
Qed.

Lemma conflict_free_txs_lookup l : forall i j a b,
  conflict_free_txs l -> i <> j -> l !! i = Some a -> l !! j = Some b ->
  inputs_disjoint a b.
Proof.
  induction l as [|x l IH]; intros i j a b Hcf Hij Ha Hb; [done|].
  destruct Hcf as [Hx Hcf]. rewrite Forall_forall in Hx.
  destruct i as [|i], j as [|j]; cbn in Ha, Hb; simplify_eq.
  - apply Hx. by apply list_elem_of_lookup_2 in Hb.
  - apply inputs_disjoint_sym, Hx. by apply list_elem_of_lookup_2 in Ha.
  - apply (IH i j); auto.
Qed.

Lemma conflict_free_lookup l i j a b :
  conflict_free l -> i <> j -> l !! i = Some a -> l !! j = Some b ->
  inputs_disjoint (txn a) (txn b).
Proof.
  intros Hcf Hij Ha Hb. apply (conflict_free_txs_lookup (map txn l) i j); [done..| |].
  - by rewrite list_lookup_fmap, Ha.
  - by rewrite list_lookup_fmap, Hb.
Qed.

(** [Add] always returns; what it leaves in the slice is drawn from the
    old slice and the new item, and the new item only gets in if it
    passed [verifyInputs]. *)
Lemma Add_result mp t fee now :
  exists err mp',
    Add fcmp ucmp mp t fee now = Ok (err, mp') /\
    capacity mp' = capacity mp /\
    ((verifyInputs mp t = true /\
      verifiedTxes mp' ⊆+ newItem t fee now :: verifiedTxes mp) \/
     verifiedTxes mp' = verifiedTxes mp).
Proof.
  destruct (verifyInputs mp t) eqn:Hv.
  2:{ exists (Some ErrConflict), mp. unfold Add. rewrite Hv. cbn. auto. }
  destruct (containsKey mp (Hash t)) eqn:Hc.
  { exists (Some ErrDup), mp. unfold Add. rewrite Hv, Hc. cbn. auto. }
  destruct (Add_cases mp t fee now Hv Hc) as (n & Hn & Hle & Hadd).
  destruct (decide _) as [Hfull|Hroom].
  - destruct (decide _) as [->|Hne].
    + eexists _, _. split; [exact Hadd|]. cbn. auto.
    + destruct Hadd as (l' & u & Hl & Hadd).
      eexists _, _. split; [exact Hadd|]. cbn. split; [done|]. left. split; [done|].
      rewrite insert_at_perm, Hl. apply submseteq_skip. by apply submseteq_inserts_r.
  - eexists _, _. split; [exact Hadd|]. cbn. split; [done|]. left. split; [done|].
    by rewrite insert_at_perm.
Qed.

Lemma Remove_sublist mp h : verifiedTxes (Remove mp h) `sublist_of` verifiedTxes mp.
Proof.
  unfold Remove. destruct (verifiedMap mp !! h); [|done].
  repeat case_match; cbn [verifiedTxes take app Nat.add drop].
  - destruct (verifiedTxes mp); [done|]. by apply sublist_cons.
  - apply sublist_nil_l.
  - done.
Qed.

Lemma Remove_submseteq mp h : verifiedTxes (Remove mp h) ⊆+ verifiedTxes mp.
Proof. apply sublist_submseteq, Remove_sublist. Qed.

Lemma RemoveStale_loop (isOK : Transaction -> bool) l : forall (vm : gmap Z item) acc,
  (foldl (fun (acc : gmap Z item * list item) itm =>
            if isOK (txn itm) then (acc.1, acc.2 ++ [itm])
            else (delete (Hash (txn itm)) acc.1, acc.2)) (vm, acc) l).2 =
  acc ++ List.filter (fun itm => isOK (txn itm)) l.
Proof.
  induction l as [|e l IH]; intros vm acc; cbn [foldl List.filter].
  - by rewrite app_nil_r.
  - destruct (isOK (txn e)); cbn [fst snd]; rewrite IH; [|done].
    by rewrite <- app_assoc.
Qed.

Lemma RemoveStale_txes mp isOK :
  verifiedTxes (RemoveStale mp isOK) =
  List.filter (fun itm => isOK (txn itm)) (verifiedTxes mp).
Proof. unfold RemoveStale. cbn [verifiedTxes]. by rewrite RemoveStale_loop. Qed.

Lemma RemoveStale_sublist mp isOK :
  verifiedTxes (RemoveStale mp isOK) `sublist_of` verifiedTxes mp.
Proof.
  rewrite RemoveStale_txes.
  induction (verifiedTxes mp) as [|e l IH]; cbn; [done|].
  destruct (isOK (txn e)); by constructor.
Qed.

Lemma RemoveStale_submseteq mp isOK :
  verifiedTxes (RemoveStale mp isOK) ⊆+ verifiedTxes mp.
Proof. apply sublist_submseteq, RemoveStale_sublist. Qed.

Lemma apply_op_conflict_free mp op :
  conflict_free (verifiedTxes mp) ->
  exists mp', apply_op fcmp ucmp mp op = Ok mp' /\ conflict_free (verifiedTxes mp').
Proof.
  intros Hcf. destruct op as [t fee now|h|isOK]; cbn [apply_op].
  - destruct (Add_result mp t fee now) as (err & mp' & -> & _ & [[Hv Hsub]|Heq]);
      exists mp'; (split; [done|]); [|by rewrite Heq].
    apply (conflict_free_submseteq _ _ Hsub). unfold conflict_free. cbn [map newItem txn].
    split; [|done]. rewrite Forall_forall. intros t' Ht'.
    apply list_elem_of_fmap in Ht' as (e & -> & He).
    apply inputs_disjoint_sym. by apply (proj1 (verifyInputs_true mp t) Hv).
  - eexists. split; [done|]. by apply (conflict_free_submseteq _ _ (Remove_submseteq mp h)).
  - eexists. split; [done|].
    by apply (conflict_free_submseteq _ _ (RemoveStale_submseteq mp isOK)).
Qed.

Lemma run_conflict_free ops : forall mp,
  conflict_free (verifiedTxes mp) ->
  exists mp', run fcmp ucmp ops mp = Ok mp' /\ conflict_free (verifiedTxes mp').
Proof.
  induction ops as [|op ops IH]; intros mp Hcf; cbn [run].
  - by exists mp.
  - destruct (apply_op_conflict_free mp op Hcf) as (mp1 & -> & Hcf1). by apply IH.
Qed.

(** What the conflict check does achieve. A transaction that spends an
    input some entry of the list spends is refused with ErrConflict and the
    pool is left as it was; and in every pool reached from an empty one by
    Add, Remove and RemoveStale, no two entries of the list share an
    input. The map is another matter, see
    [Add_accepts_conflict_after_Remove]. *)
Theorem Add_rejects_conflicts :
  (forall mp t fee now,
     (exists e i, e ∈ verifiedTxes mp /\ i ∈ Inputs (txn e) /\ i ∈ Inputs t) ->
     Add fcmp ucmp mp t fee now = Ok (Some ErrConflict, mp)) /\
  (forall C ops,
     exists mp, run fcmp ucmp ops (NewMemPool C) = Ok mp /\
       forall i j a b, i <> j ->
         verifiedTxes mp !! i = Some a -> verifiedTxes mp !! j = Some b ->
         inputs_disjoint (txn a) (txn b)).
Proof.
  split.
  - intros mp t fee now (e & i & He & Hi & Hj). unfold Add.
    destruct (verifyInputs mp t) eqn:Hv; [|done].
    destruct (proj1 (verifyInputs_true mp t) Hv e He i Hi Hj).
  - intros C ops. destruct (run_conflict_free ops (NewMemPool C)) as (mp & Hrun & Hcf); [done|].
    exists mp. split; [done|]. intros i j a b. by apply conflict_free_lookup.
Qed.
End PoolStructure.

Section PoolOrder.
Import Mempool.

Variable fcmp : Fixed8 -> Fixed8 -> Z.
Variable ucmp : Uint256 -> Uint256 -> Z.
Hypothesis fcmp_lt : forall f g, fcmp f g < 0 <-> f < g.
Hypothesis fcmp_eq : forall f g, fcmp f g = 0 <-> f = g.
Hypothesis ucmp_lt : forall u v, ucmp u v < 0 <-> u < v.
Hypothesis ucmp_eq : forall u v, ucmp u v = 0 <-> u = v.

Local Abbreviation cmp := (CompareTo fcmp ucmp).
Local Abbreviation probe := (Mempool.probe fcmp ucmp).
Local Abbreviation descending := (Mempool.descending fcmp ucmp).
Local Abbreviation AddAll := (Mempool.AddAll fcmp ucmp).
Local Abbreviation filled := (Mempool.filled fcmp ucmp).

Lemma cmp_sign p o :
  (0 < cmp p (Some o) <-> above p o) /\
  (cmp p (Some o) < 0 <-> above o p) /\
  (cmp p (Some o) = 0 <-> level p o).
Proof.
  pose proof (fcmp_lt (perByteFee p) (perByteFee o)).
  pose proof (fcmp_eq (perByteFee p) (perByteFee o)).
  pose proof (fcmp_lt (netFee p) (netFee o)).
  pose proof (fcmp_eq (netFee p) (netFee o)).
  pose proof (ucmp_lt (Hash (txn o)) (Hash (txn p))).
  pose proof (ucmp_eq (Hash (txn o)) (Hash (txn p))).
  unfold above, level, rank, isClaim, CompareTo.
  destruct (isLowPrio p), (isLowPrio o); cbn [negb andb];
    destruct (Type_ (txn p) =? ClaimType), (Type_ (txn o) =? ClaimType);
    cbn [Bool.eqb negb];
    repeat match goal with
           | |- context [negb (?a =? 0)] => destruct (Z.eqb_spec a 0); cbn [negb]
           end; lia.
Qed.

Lemma above_trans a b c : above a b -> above b c \/ level b c -> above a c.
Proof. unfold above, level. lia. Qed.

Lemma above_level_trans a b c : above a b \/ level a b -> above b c -> above a c.
Proof. unfold above, level. lia. Qed.

Lemma above_total a b : above a b \/ level a b \/ above b a.
Proof. unfold above, level. lia. Qed.

Lemma above_asym a b : above a b -> ~ above b a /\ ~ level a b.
Proof. unfold above, level. lia. Qed.

Lemma cmp_pos a b : 0 < cmp a (Some b) <-> above a b.
Proof. apply cmp_sign. Qed.

Lemma cmp_neg a b : cmp a (Some b) < 0 <-> above b a.
Proof. apply cmp_sign. Qed.

Lemma cmp_zero a b : cmp a (Some b) = 0 <-> level a b.
Proof. apply cmp_sign. Qed.

Lemma cmp_nonneg a b : 0 <= cmp a (Some b) <-> above a b \/ level a b.
Proof.
  rewrite <- cmp_pos, <- cmp_zero. lia.
Qed.

Lemma cmp_flip a b : 0 < cmp a (Some b) <-> cmp b (Some a) < 0.
Proof. by rewrite cmp_pos, cmp_neg. Qed.

Lemma cmp_trans_gt a b c :
  0 < cmp a (Some b) -> 0 <= cmp b (Some c) -> 0 < cmp a (Some c).
Proof. rewrite !cmp_pos, cmp_nonneg. apply above_trans. Qed.

Lemma cmp_trans_ge a b c :
  0 <= cmp a (Some b) -> 0 <= cmp b (Some c) -> 0 <= cmp a (Some c).
Proof.
  rewrite !cmp_nonneg. unfold above, level. lia.
Qed.

Lemma cmp_zero_hash a b : cmp a (Some b) = 0 -> Hash (txn a) = Hash (txn b).
Proof. rewrite cmp_zero. unfold level. lia. Qed.

(** ** Descending order *)

Lemma level_sym a b : level a b -> level b a.
Proof. unfold level. lia. Qed.

Lemma cmp_nonpos_flip a b : cmp a (Some b) <= 0 -> 0 <= cmp b (Some a).
Proof.
  intros H. apply cmp_nonneg.
  destruct (above_total a b) as [Hab|[Hab|Hab]].
  - apply cmp_pos in Hab. lia.
  - right. by apply level_sym.
  - by left.
Qed.

Lemma descending_take_drop n l o1 o2 :
  descending l -> o1 ∈ take n l -> o2 ∈ drop n l -> 0 <= cmp o1 (Some o2).
Proof.
  intros Hs H1 H2. unfold descending in Hs. rewrite <- (take_drop n l) in Hs.
  by apply (StronglySorted_app_1_elem_of _ _ _ _ _ Hs).
Qed.

Lemma probe_true x l k o :
  l !! k = Some o -> probe x l k = Some true -> 0 < cmp x (Some o).
Proof.
  unfold probe. intros -> H. apply (f_equal (from_option id false)) in H.
  cbn [from_option id] in H. by apply Z.ltb_lt.
Qed.

Lemma probe_false x l k o :
  l !! k = Some o -> probe x l k = Some false -> cmp x (Some o) <= 0.
Proof.
  unfold probe. intros -> H. apply (f_equal (from_option id true)) in H.
  cbn [from_option id] in H. by apply Z.ltb_ge.
Qed.

Lemma probe_true_intro x l k o :
  l !! k = Some o -> 0 < cmp x (Some o) -> probe x l k = Some true.
Proof.
  unfold probe. intros -> H. f_equal. by apply Z.ltb_lt.
Qed.

Lemma probe_monotone x l k k' :
  descending l -> (k <= k')%nat ->
  probe x l k = Some true -> (k' < length l)%nat -> probe x l k' = Some true.
Proof.
  intros Hs Hk Hp Hk'.
  destruct (lookup_lt_is_Some_2 l k' Hk') as [b Hb].
  destruct (lookup_lt_is_Some_2 l k) as [a Ha]; [lia|].
  apply (probe_true x l k a Ha) in Hp.
  apply (probe_true_intro x l k' b Hb).
  destruct (decide (k = k')) as [->|Hne]; [by simplify_eq|].
  apply (cmp_trans_gt x a b); [done|].
  apply (descending_take_drop k' l); [done| |].
  - apply elem_of_take. exists k. split; [done|lia].
  - apply list_elem_of_lookup. exists 0%nat. by rewrite lookup_drop, Nat.add_0_r.
Qed.

(** Where the binary search of [Add] lands in a descending slice. *)
Lemma search_position x l n :
  descending l -> sort_Search (length l) (probe x l) = Some n ->
  (forall o, o ∈ take n l -> cmp x (Some o) <= 0) /\
  (forall o, o ∈ drop n l -> 0 < cmp x (Some o)).
Proof.
  intros Hs Hn. unfold sort_Search in Hn.
  destruct (search_loop_first (length l) (probe x l) 0%nat (length l) n) as [Hlo Hhi]; [| |lia|done|].
  { intros k Hk. by apply (probe_total fcmp ucmp). }
  { intros k k' Hk Hk' Hp. apply (probe_monotone x l k k'); [done|lia|done..]. }
  split; intros o Ho.
  - apply elem_of_take in Ho as (i & Hi & Hin).
    assert (Hi' : (0 <= i < n)%nat) by lia.
    by apply (probe_false x l i o Hi), Hlo.
  - apply list_elem_of_lookup in Ho as (i & Hi). rewrite lookup_drop in Hi.
    pose proof (lookup_lt_Some _ _ _ Hi) as Hlt.
    assert (Hi' : (n <= n + i < length l)%nat) by lia.
    by apply (probe_true x l (n + i) o Hi), Hhi.
Qed.

Lemma insert_at_descending n x l :
  descending l ->
  (forall o, o ∈ take n l -> cmp x (Some o) <= 0) ->
  (forall o, o ∈ drop n l -> 0 < cmp x (Some o)) ->
  descending (insert_at n x l).
Proof.
  intros Hs Hlo Hhi. unfold descending, insert_at.
  pose proof Hs as Hs'. unfold descending in Hs'. rewrite <- (take_drop n l) in Hs'.
  apply StronglySorted_app in Hs' as (Hcross & Hs1 & Hs2).
  apply StronglySorted_app_2; [|done|].
  - intros x1 x2 H1 H2. apply elem_of_cons in H2 as [->|H2].
    + apply cmp_nonpos_flip. by apply Hlo.
    + by apply Hcross.
  - constructor; [done|]. apply Forall_forall. intros o Ho.
    apply Hhi in Ho. lia.
Qed.

(** ** Add at capacity *)

Lemma cmp_neg_of_nonpos a b :
  Hash (txn a) <> Hash (txn b) -> cmp a (Some b) <= 0 -> cmp a (Some b) < 0.
Proof.
  intros Hne Hle. destruct (Z.eq_dec (cmp a (Some b)) 0) as [H0|]; [|lia].
  by apply cmp_zero_hash in H0.
Qed.

Lemma descending_last_lowest l u e :
  descending (l ++ [u]) -> e ∈ l ++ [u] -> cmp u (Some e) <= 0.
Proof.
  intros Hs He. apply elem_of_app in He as [He|He].
  - apply StronglySorted_app in Hs as (Hcross & _ & _).
    specialize (Hcross e u He ltac:(set_solver)). cbn in Hcross.
    destruct (above_total u e) as [H|[H|H]].
    + apply cmp_nonneg in Hcross as [Hc|Hc].
      * by destruct (above_asym _ _ Hc).
      * apply level_sym in Hc. apply cmp_zero in Hc. lia.
    + apply cmp_zero in H. lia.
    + apply cmp_neg in H. lia.
  - apply list_elem_of_singleton in He as ->.
    assert (level u u) as H by (unfold level; lia). apply cmp_zero in H. lia.
Qed.

Lemma Add_full mp t fee now :
  let x := newItem t fee now in
  let l := verifiedTxes mp in
  descending l -> length l = capacity mp ->
  verifyInputs mp t = true -> containsKey mp (Hash t) = false ->
  (forall e, e ∈ l -> Hash (txn e) <> Hash t) ->
  ((forall e, e ∈ l -> cmp x (Some e) < 0) /\
   Add fcmp ucmp mp t fee now =
     Ok (Some ErrOOM, mkPool (<[Hash t := x]> (verifiedMap mp)) l (capacity mp)))
  \/
  ((exists e, e ∈ l /\ 0 < cmp x (Some e)) /\
   exists l' u n,
     l = l' ++ [u] /\ 0 < cmp x (Some u) /\
     (forall o, o ∈ take n l' -> cmp x (Some o) <= 0) /\
     (forall o, o ∈ drop n l' -> 0 < cmp x (Some o)) /\
     Add fcmp ucmp mp t fee now =
       Ok (None, mkPool (delete (Hash (txn u)) (<[Hash t := x]> (verifiedMap mp)))
                        (insert_at n x l') (capacity mp))).
Proof.
  intros x l Hs Hcap Hv Hc Hnew.
  destruct (Add_cases fcmp ucmp mp t fee now Hv Hc) as (n & Hn & Hle & Hadd).
  fold x l in Hn, Hle, Hadd.
  destruct (search_position x l n Hs Hn) as [Hlo Hhi].
  destruct (decide (length l = capacity mp)) as [_|]; [|done].
  destruct (decide (n = length l)) as [->|Hne].
  - left. split; [|done]. intros e He.
    apply cmp_neg_of_nonpos; [cbn; intros Heq; by apply (Hnew e)|].
    apply Hlo. by rewrite take_ge.
  - right. destruct Hadd as (l' & u & Hl & Hadd).
    assert (Hn' : (n <= length l')%nat).
    { rewrite Hl, length_app in Hle, Hne. cbn in Hle, Hne. lia. }
    assert (Hu : 0 < cmp x (Some u)).
    { apply Hhi. rewrite Hl, drop_app_le by done. set_solver. }
    split; [exists u; split; [rewrite Hl; set_solver|done]|].
    exists l', u, n. split; [done|]. split; [done|].
    split; [|split; [|done]].
    + intros o Ho. apply Hlo. rewrite Hl, take_app_le by done. done.
    + intros o Ho. apply Hhi. rewrite Hl, drop_app_le by done. set_solver.
Qed.

(** ** Filling a pool *)

Lemma hashes_perm l1 l2 : l1 ≡ₚ l2 -> hashes l1 ≡ₚ hashes l2.
Proof. intros H. unfold hashes. by rewrite H. Qed.

Lemma NoDup_hashes_ne l a b i j :
  NoDup (hashes l) -> i <> j -> l !! i = Some a -> l !! j = Some b ->
  Hash (txn a) <> Hash (txn b).
Proof.
  intros Hnd Hij Ha Hb Heq. apply Hij.
  apply (NoDup_lookup _ i j (Hash (txn a)) Hnd); unfold hashes.
  - by rewrite list_lookup_fmap, Ha.
  - by rewrite list_lookup_fmap, Hb, Heq.
Qed.

Lemma filled_step C P mp D t fee now :
  filled C P mp D ->
  NoDup (Hash t :: hashes P) ->
  (forall e, e ∈ P -> inputs_disjoint (txn e) t) ->
  exists err mp' D',
    Add fcmp ucmp mp t fee now = Ok (err, mp') /\
    filled C (newItem t fee now :: P) mp' D'.
Proof.
  intros [Hcap Hs Hlen Hkeys Hperm Hdrop] Hnd Hdis.
  set (x := newItem t fee now). set (l := verifiedTxes mp) in *.
  apply NoDup_cons in Hnd as [Hfresh HndP].
  assert (HlP : forall e, e ∈ l -> e ∈ P).
  { intros e He. rewrite <- Hperm. set_solver. }
  assert (Hv : verifyInputs mp t = true).
  { apply verifyInputs_true. intros e He. apply Hdis. by apply HlP. }
  assert (Hc : containsKey mp (Hash t) = false).
  { apply containsKey_false. destruct (verifiedMap mp !! Hash t) eqn:E; [|done].
    destruct Hfresh. apply Hkeys. by eexists. }
  assert (Hnew : forall e, e ∈ P -> Hash (txn e) <> Hash t).
  { intros e He Heq. apply Hfresh. rewrite <- Heq. unfold hashes.
    apply list_elem_of_fmap. by exists e. }
  assert (Hkeys' : forall u h,
    is_Some (delete u (<[Hash t := x]> (verifiedMap mp)) !! h) \/
    is_Some (<[Hash t := x]> (verifiedMap mp) !! h) ->
    h ∈ hashes (x :: P)).
  { intros u h [Hh|Hh].
    - destruct (decide (u = h)) as [->|Hne]; [rewrite lookup_delete_eq in Hh; by destruct Hh|].
      rewrite lookup_delete_ne in Hh by done.
      destruct (decide (Hash t = h)) as [<-|Hne']; [cbn; set_solver|].
      rewrite lookup_insert_ne in Hh by done. cbn. apply elem_of_cons. right. by apply Hkeys.
    - destruct (decide (Hash t = h)) as [<-|Hne']; [cbn; set_solver|].
      rewrite lookup_insert_ne in Hh by done. cbn. apply elem_of_cons. right. by apply Hkeys. }
  destruct (decide (length l = capacity mp)) as [Hfull|Hroom].
  - destruct (Add_full mp t fee now Hs Hfull Hv Hc) as [[Hbelow Hadd]|[_ Hevict]].
    { intros e He. apply Hnew. by apply HlP. }
    + (* out of memory: the new item joins the dropped ones *)
      exists (Some ErrOOM), (mkPool (<[Hash t := x]> (verifiedMap mp)) l (capacity mp)), (x :: D).
      split; [done|]. split; cbn [capacity verifiedTxes verifiedMap].
      * done.
      * done.
      * cbn [length]. fold l in Hlen. lia.
      * intros h Hh. apply (Hkeys' 0 h). by right.
      * fold l in Hperm. rewrite <- Hperm. by rewrite <- Permutation_middle.
      * intros d k Hd Hk. apply elem_of_cons in Hd as [->|Hd]; [by apply Hbelow|].
        by apply Hdrop.
    + (* eviction of the last item *)
      destruct Hevict as (l' & u & n & Hl & Hxu & Hlo & Hhi & Hadd). fold l in Hl.
      exists None, (mkPool (delete (Hash (txn u)) (<[Hash t := x]> (verifiedMap mp)))
                            (insert_at n x l') (capacity mp)), (u :: D).
      split; [done|]. fold l in Hperm, Hlen, Hdrop. clearbody l.
      assert (Hs' : descending l') by (unfold descending in *; rewrite Hl in Hs;
                                       by apply StronglySorted_app_1_l in Hs).
      split; cbn [capacity verifiedTxes verifiedMap].
      * done.
      * by apply insert_at_descending.
      * rewrite insert_at_length. cbn [length].
        rewrite Hl, length_app in Hlen, Hfull. cbn [length] in Hlen, Hfull. lia.
      * intros h Hh. apply (Hkeys' (Hash (txn u)) h). by left.
      * rewrite insert_at_perm. cbn. constructor. rewrite <- Hperm, Hl.
        rewrite <- app_assoc. done.
      * intros d k Hd Hk. rewrite insert_at_perm in Hk.
        assert (Hux : cmp u (Some x) < 0) by by apply cmp_flip.
        assert (Hul : forall k', k' ∈ l' -> cmp u (Some k') < 0).
        { intros k' Hk'. apply cmp_neg_of_nonpos.
          - apply list_elem_of_lookup in Hk' as [i Hi].
            assert (HndL : NoDup (hashes (l ++ D))) by by rewrite (hashes_perm _ _ Hperm).
            unfold hashes in HndL. rewrite map_app in HndL. apply NoDup_app in HndL as [HndL _].
            apply (NoDup_hashes_ne l u k' (length l') i HndL).
            + apply lookup_lt_Some in Hi. lia.
            + rewrite Hl. by rewrite lookup_app_r, Nat.sub_diag by lia.
            + rewrite Hl. by rewrite lookup_app_l by (apply lookup_lt_Some in Hi; lia).
          - apply (descending_last_lowest l'); [by rewrite <- Hl|set_solver]. }
        apply elem_of_cons in Hd as [->|Hd].
        -- apply elem_of_cons in Hk as [->|Hk]; [done|by apply Hul].
        -- assert (Hdu : cmp d (Some u) < 0) by (apply Hdrop; [done|rewrite Hl; set_solver]).
           apply elem_of_cons in Hk as [->|Hk].
           ++ apply cmp_neg. apply cmp_neg in Hdu. apply cmp_pos in Hxu.
              apply (above_trans x u d); auto.
           ++ apply Hdrop; [done|rewrite Hl; set_solver].
  - (* there is room: nothing has been dropped so far *)
    destruct (Add_cases fcmp ucmp mp t fee now Hv Hc) as (n & Hn & Hle & Hadd).
    fold x l in Hn, Hle, Hadd.
    destruct (decide (length l = capacity mp)) as [|_]; [done|].
    destruct (search_position x l n Hs Hn) as [Hlo Hhi].
    assert (HD : D = []).
    { apply nil_length_inv. apply Permutation_length in Hperm.
      rewrite length_app in Hperm. fold l in Hlen. lia. }
    subst D.
    exists None, (mkPool (<[Hash t := x]> (verifiedMap mp)) (insert_at n x l) (capacity mp)), [].
    split; [done|]. split; cbn [capacity verifiedTxes verifiedMap].
    + done.
    + by apply insert_at_descending.
    + rewrite insert_at_length. cbn [length]. fold l in Hlen. lia.
    + intros h Hh. apply (Hkeys' 0 h). by right.
    + rewrite app_nil_r in *. rewrite insert_at_perm. by constructor.
    + intros d k Hd. by apply not_elem_of_nil in Hd.
Qed.

Lemma filled_empty C : filled C [] (NewMemPool C) [].
Proof.
  split; cbn; try done.
  - constructor.
  - intros h [v Hv]. by rewrite lookup_empty in Hv.
  - intros d k Hd. by apply not_elem_of_nil in Hd.
Qed.

Lemma AddAll_filled C fee reqs : forall P mp D,
  filled C P mp D ->
  NoDup (hashes P ++ map (fun r => Hash r.1) reqs) ->
  (forall e r, e ∈ P -> r ∈ reqs -> inputs_disjoint (txn e) r.1) ->
  conflict_free_txs (map fst reqs) ->
  exists mp' D',
    AddAll mp fee reqs = Ok mp' /\
    filled C (rev (requested fee reqs) ++ P) mp' D'.
Proof.
  induction reqs as [|[t now] rest IH]; intros P mp D Hf Hnd Hdis Hcf.
  - exists mp, D. by split.
  - cbn [map fst] in Hnd, Hcf. destruct Hcf as [Hhead Hcf].
    destruct (filled_step C P mp D t fee now Hf) as (err & mp1 & D1 & Hadd & Hf1).
    { apply (NoDup_Permutation_proper _ _ (Permutation_middle _ _ _)) in Hnd.
      apply NoDup_cons in Hnd as [Hfresh Hnd]. apply NoDup_cons. split.
      - intros Hin. apply Hfresh. set_solver.
      - by apply NoDup_app in Hnd as [Hnd _]. }
    { intros e He. apply (Hdis e (t, now)); set_solver. }
    destruct (IH (newItem t fee now :: P) mp1 D1 Hf1) as (mp' & D' & Hall & Hf').
    + cbn [hashes map app]. cbn [newItem txn].
      by apply (NoDup_Permutation_proper _ _ (Permutation_middle _ _ _)) in Hnd.
    + intros e r He Hr. apply elem_of_cons in He as [->|He].
      * cbn [newItem txn]. rewrite Forall_forall in Hhead. apply Hhead.
        apply list_elem_of_fmap. by exists r.
      * apply Hdis; set_solver.
    + done.
    + exists mp', D'. cbn [AddAll]. rewrite Hadd. split; [done|].
      unfold requested in *. cbn [map rev]. by rewrite <- app_assoc.
Qed.

(** ** Every reachable pool is in descending order *)

Lemma descending_sublist l1 l2 :
  l1 `sublist_of` l2 -> descending l2 -> descending l1.
Proof.
  unfold Mempool.descending.
  induction 1 as [|x l1 l2 Hsub IH|x l1 l2 Hsub IH]; intros Hs.
  - done.
  - apply StronglySorted_inv in Hs as [Hs Hx]. constructor; [by apply IH|].
    rewrite Forall_forall in *. intros y Hy. apply Hx.
    by apply (elem_of_submseteq l1), sublist_submseteq.
  - apply StronglySorted_inv in Hs as [Hs _]. by apply IH.
Qed.

Lemma Add_descending mp t fee now :
  descending (verifiedTxes mp) ->
  exists err mp',
    Add fcmp ucmp mp t fee now = Ok (err, mp') /\ descending (verifiedTxes mp').
Proof.
  intros Hs.
  destruct (verifyInputs mp t) eqn:Hv.
  2:{ exists (Some ErrConflict), mp. unfold Add. by rewrite Hv. }
  destruct (containsKey mp (Hash t)) eqn:Hc.
  { exists (Some ErrDup), mp. unfold Add. by rewrite Hv, Hc. }
  destruct (Add_cases fcmp ucmp mp t fee now Hv Hc) as (n & Hn & Hle & Hadd).
  destruct (search_position _ _ n Hs Hn) as [Hlo Hhi].
  destruct (decide _) as [Hfull|Hroom].
  - destruct (decide _) as [->|Hne].
    + eexists _, _. by split; [exact Hadd|].
    + destruct Hadd as (l' & u & Hl & Hadd).
      eexists _, _. split; [exact Hadd|]. cbn [verifiedTxes].
      rewrite Hl in Hs, Hlo, Hhi, Hle, Hne. rewrite length_app in Hle, Hne.
      cbn [length] in Hle, Hne.
      apply insert_at_descending.
      * unfold Mempool.descending in *. by apply StronglySorted_app_1_l in Hs.
      * intros o Ho. apply Hlo. by rewrite take_app_le by lia.
      * intros o Ho. apply Hhi. rewrite drop_app_le by lia. set_solver.
  - eexists _, _. split; [exact Hadd|]. by apply insert_at_descending.
Qed.

Lemma run_descending ops : forall mp,
  descending (verifiedTxes mp) ->
  exists mp', run fcmp ucmp ops mp = Ok mp' /\ descending (verifiedTxes mp').
Proof.
  induction ops as [|op ops IH]; intros mp Hs; cbn [run].
  - by exists mp.
  - destruct op as [t fee now|h|isOK]; cbn [apply_op].
    + destruct (Add_descending mp t fee now Hs) as (err & mp1 & -> & Hs1). by apply IH.
    + apply IH. by apply (descending_sublist _ _ (Remove_sublist mp h)).
    + apply IH. by apply (descending_sublist _ _ (RemoveStale_sublist mp isOK)).
Qed.

Lemma AddAll_retains C fee reqs :
  NoDup (map (fun r => Hash r.1) reqs) ->
  conflict_free_txs (map fst reqs) ->
  exists mp dropped,
    AddAll (NewMemPool C) fee reqs = Ok mp /\
    length (verifiedTxes mp) = (length reqs `min` C)%nat /\
    descending (verifiedTxes mp) /\
    verifiedTxes mp ++ dropped ≡ₚ requested fee reqs /\
    (forall d k, d ∈ dropped -> k ∈ verifiedTxes mp -> cmp d (Some k) < 0).
Proof.
  intros Hnd Hcf.
  destruct (AddAll_filled C fee reqs [] (NewMemPool C) [] (filled_empty C))
    as (mp & D & Hall & [_ Hs Hlen _ Hperm Hdrop]); [done| |done|].
  { intros e r He. by apply not_elem_of_nil in He. }
  exists mp, D. split; [done|].
  rewrite app_nil_r in *. rewrite length_rev in Hlen. unfold requested in Hlen.
  rewrite length_map in Hlen. split; [done|]. split; [done|]. split; [|done].
  by rewrite Hperm, <- Permutation_rev.
Qed.

Lemma above_newItem (fee : Feer) (t u : Transaction) (n1 n2 : Z) :
  above (newItem t fee n1) (newItem u fee n2) <-> outranks fee t u.
Proof. reflexivity. Qed.

Lemma requested_elem (fee : Feer) (reqs : list (Transaction * Z)) (e : item) :
  e ∈ requested fee reqs -> exists now, e = newItem (txn e) fee now.
Proof.
  unfold requested. intros He. apply list_elem_of_fmap in He as ([t now] & -> & _).
  by exists now.
Qed.

(** C3, as the code has it. [Add] builds the new item from the transaction
    and the fee policy: its class (high priority above a low-priority
    claim above any other low-priority transaction), fee per byte and
    network fee. On a pool that is at capacity and in descending order,
    adding a transaction that shares no input with an entry and whose hash
    is neither a key of the map nor carried by an entry returns ErrOOM
    exactly when every entry has priority over the new item (higher class,
    then higher fee per byte, then higher network fee, then lower hash),
    and then the list is unchanged; otherwise the last entry, over which
    every other entry has priority or which it equals in rank, is evicted,
    the new item is placed in order and the count stays the same. Hence
    offering more than [C] transactions with distinct hashes and no shared
    inputs to an empty pool of capacity [C] leaves it with exactly [C] of
    them, in order, each of which has priority over every transaction
    that was refused or evicted. The order assumed of the pool holds in
    every pool reached from an empty one. *)
Theorem Add_capacity_policy :
  (forall mp t fee now,
     let x := newItem t fee now in
     let l := verifiedTxes mp in
     descending l -> length l = capacity mp ->
     verifyInputs mp t = true -> containsKey mp (Hash t) = false ->
     (forall e, e ∈ l -> Hash (txn e) <> Hash t) ->
     (txn x = t /\ rank x = tx_class fee t /\
      perByteFee x = FeePerByte fee t /\ netFee x = NetworkFee fee t) /\
     ((exists mp', Add fcmp ucmp mp t fee now = Ok (Some ErrOOM, mp')) <->
      (forall e, e ∈ l -> above e x)) /\
     (forall mp', Add fcmp ucmp mp t fee now = Ok (Some ErrOOM, mp') ->
        verifiedTxes mp' = l) /\
     ((forall e, e ∈ l -> above e x) \/ (exists e, e ∈ l /\ above x e)) /\
     ((exists e, e ∈ l /\ above x e) ->
      exists l' u mp',
        l = l' ++ [u] /\
        (forall e, e ∈ l -> above e u \/ level e u) /\
        Add fcmp ucmp mp t fee now = Ok (None, mp') /\
        verifiedTxes mp' ≡ₚ x :: l' /\
        descending (verifiedTxes mp') /\
        Count mp' = Count mp /\
        ContainsKey mp' (Hash t) = true /\
        ContainsKey mp' (Hash (txn u)) = false)) /\
  (forall C fee reqs,
     NoDup (map (fun r => Hash r.1) reqs) ->
     conflict_free_txs (map fst reqs) ->
     (C < length reqs)%nat ->
     exists mp dropped,
       AddAll (NewMemPool C) fee reqs = Ok mp /\
       Count mp = Z.of_nat C /\
       descending (verifiedTxes mp) /\
       GetVerifiedTransactions mp ++ dropped ≡ₚ map fst reqs /\
       (forall d k, d ∈ dropped -> k ∈ GetVerifiedTransactions mp ->
          outranks fee k d)) /\
  (forall C ops,
     exists mp, run fcmp ucmp ops (NewMemPool C) = Ok mp /\
                descending (verifiedTxes mp)).
Proof.
  split; [|split].
  - intros mp t fee now x l Hs Hfull Hv Hc Hnew.
    split; [done|].
    destruct (Add_full mp t fee now Hs Hfull Hv Hc Hnew) as [[Hbelow Hadd]|[Hex Hevict]];
      fold x l in Hadd || fold x l in Hevict.
    + fold x l in Hbelow.
      assert (Hall : forall e, e ∈ l -> above e x).
      { intros e He. apply cmp_neg. by apply Hbelow. }
      split; [|split; [|split]].
      * split; [done|]. intros _. by eexists.
      * intros mp'. fold x l in Hadd. rewrite Hadd. by intros [= <-].
      * by left.
      * intros (e & He & Hpos). destruct (above_asym _ _ (Hall e He)) as [Hn _].
        by destruct Hn.
    + destruct Hevict as (l' & u & n & Hl & Hxu & Hlo & Hhi & Hadd).
      fold x l in Hl, Hxu, Hlo, Hhi, Hadd.
      assert (Hs' : descending l').
      { unfold Mempool.descending in *. fold l in Hs. rewrite Hl in Hs.
        by apply StronglySorted_app_1_l in Hs. }
      assert (Hex' : exists e, e ∈ l /\ above x e).
      { destruct Hex as (e & He & Hpos). fold x l in He, Hpos. exists e.
        split; [done|]. by apply cmp_pos. }
      split; [|split; [|split]].
      * rewrite Hadd. split; [by intros [mp' [=]]|].
        intros Hall. destruct Hex' as (e & He & Hab).
        destruct (above_asym _ _ (Hall e He)) as [Hn _]. by destruct Hn.
      * intros mp'. by rewrite Hadd.
      * by right.
      * intros _. eexists l', u, _. split; [done|]. split; [|split; [exact Hadd|]].
        { intros e He. apply cmp_nonneg. apply cmp_nonpos_flip.
          apply (descending_last_lowest l'); [|by rewrite <- Hl].
          rewrite <- Hl. exact Hs. }
        cbn [verifiedTxes]. split; [apply insert_at_perm|].
        split; [by apply insert_at_descending|].
        assert (Hut : Hash (txn u) <> Hash t).
        { apply Hnew. fold l. rewrite Hl. set_solver. }
        split; [|split].
        -- unfold Count, count. cbn [verifiedTxes]. rewrite insert_at_length.
           fold l. rewrite Hl, length_app. cbn [length]. lia.
        -- unfold ContainsKey, containsKey. cbn [verifiedMap].
           by rewrite lookup_delete_ne, lookup_insert_eq.
        -- unfold ContainsKey, containsKey. cbn [verifiedMap].
           by rewrite lookup_delete_eq.
  - intros C fee reqs Hnd Hcf Hlt.
    destruct (AddAll_retains C fee reqs Hnd Hcf) as (mp & D & Hall & Hlen & Hdesc & Hperm & Hrest).
    exists mp, (map txn D). split; [done|]. split; [unfold Count, count; lia|].
    split; [done|]. split.
    + unfold GetVerifiedTransactions. rewrite <- map_app, Hperm.
      unfold requested. rewrite map_map. done.
    + intros d k Hd Hk. unfold GetVerifiedTransactions in Hk.
      apply list_elem_of_fmap in Hd as (d' & -> & Hd').
      apply list_elem_of_fmap in Hk as (k' & -> & Hk').
      pose proof (Hrest d' k' Hd' Hk') as Hcmp. apply cmp_neg in Hcmp.
      destruct (requested_elem fee reqs d') as [nd Hnd'].
      { rewrite <- Hperm. set_solver. }
      destruct (requested_elem fee reqs k') as [nk Hnk'].
      { rewrite <- Hperm. set_solver. }
      rewrite Hnd', Hnk' in Hcmp. by apply above_newItem in Hcmp.
  - intros C ops. apply run_descending. constructor.
Qed.

(** ** The order itself *)

(** C4, as the code has it. A high-priority item compares above a
    low-priority one; among low-priority items a claim transaction compares
    above any other transaction, whatever the fees; within one class (high
    priority, low-priority claim, other low priority) the higher fee per
    byte wins, then the higher network fee, then the lower hash, and items
    equal in all of these compare equal. The result depends on nothing but
    the priority flag, being a claim, the two fees and the hash. *)
Theorem CompareTo_order (p o : item) :
  (isLowPrio p = false -> isLowPrio o = true -> 0 < cmp p (Some o)) /\
  (isLowPrio p = true -> isLowPrio o = false -> cmp p (Some o) < 0) /\
  (isLowPrio p = true -> isLowPrio o = true ->
   isClaim p = true -> isClaim o = false -> 0 < cmp p (Some o)) /\
  (isLowPrio p = true -> isLowPrio o = true ->
   isClaim p = false -> isClaim o = true -> cmp p (Some o) < 0) /\
  (rank p = rank o ->
   (perByteFee o < perByteFee p -> 0 < cmp p (Some o)) /\
   (perByteFee p < perByteFee o -> cmp p (Some o) < 0) /\
   (perByteFee p = perByteFee o ->
    (netFee o < netFee p -> 0 < cmp p (Some o)) /\
    (netFee p < netFee o -> cmp p (Some o) < 0) /\
    (netFee p = netFee o ->
     (Hash (txn p) < Hash (txn o) -> 0 < cmp p (Some o)) /\
     (Hash (txn o) < Hash (txn p) -> cmp p (Some o) < 0) /\
     (Hash (txn p) = Hash (txn o) -> cmp p (Some o) = 0)))) /\
  (forall p' o',
     isLowPrio p' = isLowPrio p -> isClaim p' = isClaim p ->
     perByteFee p' = perByteFee p -> netFee p' = netFee p ->
     Hash (txn p') = Hash (txn p) ->
     isLowPrio o' = isLowPrio o -> isClaim o' = isClaim o ->
     perByteFee o' = perByteFee o -> netFee o' = netFee o ->
     Hash (txn o') = Hash (txn o) ->
     cmp p' (Some o') = cmp p (Some o)).
Proof.
  pose proof (cmp_pos p o) as Hpos. pose proof (cmp_neg p o) as Hneg.
  pose proof (cmp_zero p o) as Hzero.
  unfold above, level in *.
  repeat split.
  - intros Hp Ho. apply Hpos. unfold rank. rewrite Hp, Ho. destruct (isClaim o); lia.
  - intros Hp Ho. apply Hneg. unfold rank. rewrite Hp, Ho. destruct (isClaim p); lia.
  - intros Hp Ho Hcp Hco. apply Hpos. unfold rank. rewrite Hp, Ho, Hcp, Hco. lia.
  - intros Hp Ho Hcp Hco. apply Hneg. unfold rank. rewrite Hp, Ho, Hcp, Hco. lia.
  - intros. apply Hpos. lia.
  - intros. apply Hneg. lia.
  - intros. apply Hpos. lia.
  - intros. apply Hneg. lia.
  - intros. apply Hpos. lia.
  - intros. apply Hneg. lia.
  - intros. apply Hzero. lia.
  - intros p' o' Hp1 Hp2 Hp3 Hp4 Hp5 Ho1 Ho2 Ho3 Ho4 Ho5.
    unfold CompareTo. unfold isClaim in Hp2, Ho2.
    by rewrite Hp1, Hp2, Hp3, Hp4, Hp5, Ho1, Ho2, Ho3, Ho4, Ho5.
Qed.
End PoolOrder.

Section WriterFacts.
Import BinIO.

Lemma WriteBytes_prepend p bs w :
  WriteBytes bs (prepend p w) = prepend p (WriteBytes bs w).
Proof.
  unfold WriteBytes, prepend. destruct w as [b [e|]]; cbn; [done|].
  by rewrite app_assoc.
Qed.

Lemma WriteVarUint_prepend p v w :
  WriteVarUint v (prepend p w) = prepend p (WriteVarUint v w).
Proof.
  unfold WriteVarUint, WriteB, WriteU16LE, WriteU32LE, WriteU64LE.
  repeat case_match; by rewrite !WriteBytes_prepend.
Qed.

Lemma EncodeBinary_prepend {A} (enc : A -> option (list byte)) p a w :
  EncodeBinary enc a (prepend p w) = prepend p (EncodeBinary enc a w).
Proof.
  unfold EncodeBinary, prepend. destruct w as [b [e|]]; cbn; [done|].
  destruct (enc a); cbn; [|done]. by rewrite app_assoc.
Qed.

Lemma WriteArray_prepend {A} (enc : A -> option (list byte)) p arr w :
  WriteArray enc arr (prepend p w) = prepend p (WriteArray enc arr w).
Proof.
  unfold WriteArray. rewrite WriteVarUint_prepend.
  generalize (WriteVarUint (Z.of_nat (length arr)) w). clear w.
  induction arr as [|a arr IH]; intros w; cbn [foldl]; [done|].
  by rewrite EncodeBinary_prepend, IH.
Qed.

Lemma WriteVarBytes_prepend p b w :
  WriteVarBytes b (prepend p w) = prepend p (WriteVarBytes b w).
Proof. unfold WriteVarBytes. by rewrite WriteVarUint_prepend, WriteBytes_prepend. Qed.

Lemma Bytes_prepend p w :
  Bytes (prepend p w) = (fun b => p ++ b) <$> Bytes w.
Proof. unfold Bytes, prepend. cbn. by destruct (Err w). Qed.
End WriterFacts.

Section TxFacts.
Import BinIO Tx.

Variables Attribute Cosigner Witness : Type.
Variable aenc : Attribute -> option (list byte).
Variable cenc : Cosigner -> option (list byte).
Variable uenc : Uint160 -> option (list byte).
Variable Sha256 : list byte -> Uint256.
Variable BytesBE : Uint256 -> list byte.

Local Abbreviation Transaction := (Tx.Transaction Attribute Cosigner Witness).
Local Abbreviation encodeHashableFields := (Tx.encodeHashableFields Attribute Cosigner Witness aenc cenc uenc).
Local Abbreviation GetSignedPart := (Tx.GetSignedPart Attribute Cosigner Witness aenc cenc uenc).
Local Abbreviation updateHashes := (Tx.updateHashes Attribute Cosigner Witness Sha256 BytesBE).
Local Abbreviation createHash := (Tx.createHash Attribute Cosigner Witness aenc cenc uenc Sha256 BytesBE).
Local Abbreviation Hash := (Tx.Hash Attribute Cosigner Witness aenc cenc uenc Sha256 BytesBE).
Local Abbreviation VerificationHash := (Tx.VerificationHash Attribute Cosigner Witness aenc cenc uenc Sha256 BytesBE).
Local Abbreviation perform := (Tx.perform Attribute Cosigner Witness aenc cenc uenc Sha256 BytesBE).
Local Abbreviation after := (Tx.after Attribute Cosigner Witness aenc cenc uenc Sha256 BytesBE).
Local Abbreviation expected := (Tx.expected Sha256 BytesBE).
Local Abbreviation memo_ok := (Tx.memo_ok Attribute Cosigner Witness Sha256 BytesBE).

Lemma encodeHashableFields_prepend p (t : Transaction) w :
  encodeHashableFields t (prepend p w) = prepend p (encodeHashableFields t w).
Proof.
  unfold Tx.encodeHashableFields. case_match; [done|].
  unfold WriteB, WriteU32LE, WriteU64LE.
  by rewrite !WriteBytes_prepend, EncodeBinary_prepend, !WriteBytes_prepend,
    !WriteArray_prepend, WriteVarBytes_prepend.
Qed.

(** The signed part is the network magic followed by the hashable fields. *)
Lemma GetSignedPart_layout (t : Transaction) :
  GetSignedPart t =
  (fun fields => le_bytes 4 (Network t) ++ fields) <$>
    Bytes (encodeHashableFields t NewBufBinWriter).
Proof.
  unfold Tx.GetSignedPart.
  change (WriteU32LE (Network t) NewBufBinWriter)
    with (prepend (le_bytes 4 (Network t)) NewBufBinWriter).
  by rewrite encodeHashableFields_prepend, Bytes_prepend.
Qed.

Lemma GetSignedPart_no_script (t : Transaction) :
  Script t = [] -> GetSignedPart t = None.
Proof. intros H. unfold Tx.GetSignedPart, Tx.encodeHashableFields. by rewrite H. Qed.

Lemma GetSignedPart_updateHashes (t : Transaction) b :
  GetSignedPart (updateHashes t b) = GetSignedPart t.
Proof. reflexivity. Qed.

Lemma perform_memo c (t : Transaction) b :
  GetSignedPart t = Some b -> memo_ok b t ->
  exists t', perform c t = Ok (expected c b, t') /\
             GetSignedPart t' = Some b /\ memo_ok b t'.
Proof.
  intros Hb [Hh Hv].
  assert (Hnew : memo_ok b (updateHashes t b)) by (split; by right).
  destruct c; cbn [Tx.perform].
  - unfold Tx.Hash. destruct (Z.eqb_spec (hash t) zero256) as [Hz|Hz].
    + unfold Tx.createHash. rewrite Hb. eexists. split; [done|]. by split.
    + destruct Hh as [Hh|Hh]; [done|]. rewrite Hh. exists t. split; [done|].
      split; [done|]. split; [by right|done].
  - unfold Tx.VerificationHash.
    destruct (Z.eqb_spec (verificationHash t) zero256) as [Hz|Hz].
    + unfold Tx.createHash. rewrite Hb. eexists. split; [done|]. by split.
    + destruct Hv as [Hv|Hv]; [done|]. rewrite Hv. exists t. split; [done|].
      split; [done|]. split; [done|by right].
Qed.

Lemma after_memo cs : forall (t : Transaction) b,
  GetSignedPart t = Some b -> memo_ok b t ->
  exists t', after cs t = Ok t' /\ GetSignedPart t' = Some b /\ memo_ok b t'.
Proof.
  induction cs as [|c cs IH]; intros t b Hb Hm; cbn [Tx.after].
  - by exists t.
  - destruct (perform_memo c t b Hb Hm) as (t1 & -> & Hb1 & Hm1). by apply IH.
Qed.

(** C8, as the code has it. For a transaction whose signed part can be
    encoded (it has a script) and each of whose memo fields is unset or
    holds the hash of that signed part, as [New], [createHash] (which
    [DecodeBinary] ends with) and the accessors leave them: the signed part
    is the little-endian network magic followed by the hashable fields,
    and after any sequence of calls of the two accessors [Hash] returns
    SHA-256 applied twice to the signed part and [VerificationHash]
    SHA-256 applied once: the values never change. A transaction whose
    signed part cannot be encoded, such as one without a script or a
    trimmed one, has no hash computed: [Hash] panics if the hash field is
    unset and returns the field as it is otherwise, so a transaction built
    by [NewTrimmedTX] answers with the hash it was given unless that is
    zero. *)
Theorem hashes_memoised (t : Transaction) :
  (forall b cs,
     GetSignedPart t = Some b ->
     (hash t = zero256 \/ hash t = Sha256 (BytesBE (Sha256 b))) ->
     (verificationHash t = zero256 \/ verificationHash t = Sha256 b) ->
     (exists fields,
        Bytes (encodeHashableFields t NewBufBinWriter) = Some fields /\
        b = le_bytes 4 (Network t) ++ fields) /\
     exists t',
       after cs t = Ok t' /\
       (exists t'', Hash t' = Ok (Sha256 (BytesBE (Sha256 b)), t'')) /\
       (exists t'', VerificationHash t' = Ok (Sha256 b, t''))) /\
  (forall network script gas nonce,
     hash (Tx.New Attribute Cosigner Witness network script gas nonce) = zero256 /\
     verificationHash (Tx.New Attribute Cosigner Witness network script gas nonce) = zero256) /\
  (forall t1, createHash t = (None, t1) ->
     exists b, GetSignedPart t = Some b /\ GetSignedPart t1 = Some b /\
               hash t1 = Sha256 (BytesBE (Sha256 b)) /\ verificationHash t1 = Sha256 b) /\
  (Script t = [] -> GetSignedPart t = None) /\
  (GetSignedPart t = None ->
   (hash t = zero256 -> Hash t = Panic "failed to compute hash!") /\
   (hash t <> zero256 -> Hash t = Ok (hash t, t))) /\
  (forall h,
     GetSignedPart (NewTrimmedTX Attribute Cosigner Witness h) = None /\
     (h <> zero256 ->
      Hash (NewTrimmedTX Attribute Cosigner Witness h) =
        Ok (h, NewTrimmedTX Attribute Cosigner Witness h)) /\
     (h = zero256 ->
      Hash (NewTrimmedTX Attribute Cosigner Witness h) = Panic "failed to compute hash!")).
Proof.
  split; [|split; [|split; [|split; [|split]]]].
  - intros b cs Hb Hh Hv. split.
    + rewrite GetSignedPart_layout in Hb.
      destruct (Bytes _) as [fields|]; [|done]. exists fields. split; [done|].
      by injection Hb as <-.
    + destruct (after_memo cs t b Hb) as (t' & Hafter & Hb' & Hm'); [by split|].
      exists t'. split; [done|]. split.
      * destruct (perform_memo CallHash t' b Hb' Hm') as (t'' & H & _). by exists t''.
      * destruct (perform_memo CallVerificationHash t' b Hb' Hm') as (t'' & H & _).
        by exists t''.
  - done.
  - intros t1. unfold Tx.createHash. destruct (GetSignedPart t) as [b|] eqn:Hb; [|done].
    intros [= <-]. exists b. by rewrite GetSignedPart_updateHashes.
  - apply GetSignedPart_no_script.
  - intros Hnone. unfold Tx.Hash, Tx.createHash. rewrite Hnone. split.
    + by intros ->.
    + intros Hh. by destruct (Z.eqb_spec (hash t) zero256).
  - intros h. split; [done|]. split.
    + intros Hh. unfold Tx.Hash. cbn [hash NewTrimmedTX].
      by destruct (Z.eqb_spec h zero256).
    + by intros ->.
Qed.

(** Without a script there is nothing to hash. *)
Lemma Hash_no_script (t : Transaction) :
  Script t = [] -> hash t = zero256 -> Hash t = Panic "failed to compute hash!".
Proof.
  intros Hs Hh. unfold Tx.Hash, Tx.createHash.
  by rewrite Hh, GetSignedPart_no_script.
Qed.

(** A trimmed transaction answers with the hash it was built with. *)
Lemma Hash_trimmed (h : Uint256) :
  h <> zero256 -> Hash (NewTrimmedTX Attribute Cosigner Witness h) =
                  Ok (h, NewTrimmedTX Attribute Cosigner Witness h).
Proof.
  intros Hh. unfold Tx.Hash. cbn [hash NewTrimmedTX].
  by destruct (Z.eqb_spec h zero256).
Qed.
End TxFacts.

Section FindFacts.
Import StorageFind.

Variable DeserializeItem : list byte -> option Item.

Local Abbreviation Value := (StorageFind.Value DeserializeItem).

Lemma slice_tail (key : list byte) :
  key <> [] -> GoInt.slice key 1 (Z.of_nat (length key)) = Some (drop 1 key).
Proof.
  intros Hne. unfold GoInt.slice.
  destruct key as [|k key]; [done|]. cbn [length].
  destruct (Z.leb_spec 1 (Z.of_nat (S (length key)))); [|lia].
  rewrite Z.leb_refl. cbn [andb Z.leb Z.compare].
  replace (Z.to_nat (Z.of_nat (S (length key)) - 1)) with (length key) by lia.
  change (Z.to_nat 1) with 1%nat. cbn [drop]. by rewrite firstn_all.
Qed.

(** C9, as the code has it. On an entry whose key is a byte string (not
    empty if remove-prefix is set): with keys-only [Value] returns the key
    alone, whatever the other options; without keys-only, and without the
    deserialize and pick options, it returns the value alone if values-only
    is set and the pair of key and value otherwise. Where the key is
    exposed, remove-prefix has cut its first byte. *)
Theorem Value_options (s : Iterator) (e : MapElement) (key : list byte) :
  GoInt.index (m s) (index s) = Some e ->
  as_bytes (Key e) = Some key ->
  (has (opts s) FindRemovePrefix = true -> key <> []) ->
  let exposed := if has (opts s) FindRemovePrefix then drop 1 key else key in
  (has (opts s) FindKeysOnly = true -> Value s = Ok (ByteArray exposed)) /\
  (has (opts s) FindDeserialize = false -> has (opts s) FindPick0 = false ->
   has (opts s) FindPick1 = false ->
   (has (opts s) FindKeysOnly = false -> has (opts s) FindValuesOnly = true ->
    Value s = Ok (Value_ e)) /\
   (has (opts s) FindKeysOnly = false -> has (opts s) FindValuesOnly = false ->
    Value s = Ok (Struct [ByteArray exposed; Value_ e]))).
Proof.
  intros He Hk Hne exposed. unfold StorageFind.Value. rewrite He, Hk.
  assert (Hkey : (if has (opts s) FindRemovePrefix
                  then GoInt.slice key 1 (Z.of_nat (length key))
                  else Some key) = Some exposed).
  { unfold exposed. destruct (has (opts s) FindRemovePrefix); [|done].
    by apply slice_tail, Hne. }
  rewrite Hkey. split.
  - by intros ->.
  - intros -> -> ->. split; by intros -> ->.
Qed.
End FindFacts.

Section ArithFacts.
Import Vm Arith.

Variable W : Z.
Variables quotient remainder : Z -> Z -> Z.
Variable undefined_error : VMError.
Hypothesis W_positive : 1 <= W.
Hypothesis quotient_exact : forall a b, b <> 0 -> quotient (a * b) b = a.

Local Abbreviation executeOp := (Arith.executeOp W quotient remainder undefined_error).
Local Abbreviation TryInteger := (Arith.TryInteger W).
Local Abbreviation exact_or_overflow := (Arith.exact_or_overflow W).
Local Abbreviation settle := (Arith.settle W undefined_error).

(** The bit-width test is the test of the range. *)
Lemma fits_in_range (r : Z) : fits W r = true <-> in_range W r.
Proof.
  unfold fits, bitLen, in_range. rewrite Z.leb_le.
  destruct (Z.leb_spec 0 r) as [Hr|Hr].
  - assert (Z.log2_up (r + 1) + 1 <= W <-> r + 1 <= 2 ^ (W - 1)) as ->.
    { rewrite (Z.log2_up_le_pow2 (r + 1) (W - 1)) by lia. lia. }
    assert (0 < 2 ^ (W - 1)) by (apply Z.pow_pos_nonneg; lia). lia.
  - assert (Z.log2_up (- r) + 1 <= W <-> - r <= 2 ^ (W - 1)) as ->.
    { rewrite (Z.log2_up_le_pow2 (- r) (W - 1)) by lia. lia. }
    assert (0 < 2 ^ (W - 1)) by (apply Z.pow_pos_nonneg; lia). lia.
Qed.

Lemma settle_exact (r : Z) (rest : Estack) :
  exact_or_overflow (settle (Some r) rest) r rest.
Proof.
  unfold Arith.exact_or_overflow, Arith.settle.
  destruct (fits W r) eqn:Hf.
  - apply fits_in_range in Hf. by split.
  - split; [|done]. intros Hr. apply fits_in_range in Hr. congruence.
Qed.

Lemma settle_bounded (r : option Z) (rest : Estack) :
  bounded W rest -> bounded W (settle r rest).2.
Proof.
  intros Hb. unfold Arith.settle. destruct r as [r|]; [|done].
  destruct (fits W r) eqn:Hf; [|done]. cbn. constructor; [|done].
  intros z [= <-]. by apply fits_in_range.
Qed.

Lemma unop_bounded f (st : Estack) :
  bounded W st -> bounded W (unop W undefined_error f st).2.
Proof.
  intros Hb. unfold unop. destruct st as [|x rest]; [done|].
  apply Forall_cons in Hb as [_ Hb].
  destruct (Arith.TryInteger W x); [by apply settle_bounded|done].
Qed.

Lemma binop_bounded f (st : Estack) :
  bounded W st -> bounded W (binop W undefined_error f st).2.
Proof.
  intros Hb. unfold binop. destruct st as [|y [|x rest]]; [done..|].
  apply Forall_cons in Hb as [_ Hb]. apply Forall_cons in Hb as [_ Hb].
  destruct (Arith.TryInteger W y), (Arith.TryInteger W x);
    [by apply settle_bounded|done..].
Qed.

End ArithFacts.

Section Closed.
Import Mempool Samples.

Lemma difference_lt f g : difference f g < 0 <-> f < g.
Proof. unfold difference. lia. Qed.

Lemma difference_eq f g : difference f g = 0 <-> f = g.
Proof. unfold difference. lia. Qed.

Example Add_builds_poolA :
  Add difference difference (NewMemPool 1) txA feer 0 = Ok (None, poolA).
Proof. vm_compute. reflexivity. Qed.

Example Add_builds_poolAB :
  Add difference difference (mkPool {[ 501 := newItem txA feer 0 ]} [newItem txA feer 0] 2)
      txB feer 1 = Ok (None, poolAB).
Proof. vm_compute. reflexivity. Qed.

(** C5 fails on the code. Adding [txB] to the full pool [poolA] returns
    ErrOOM and leaves the slice and the count as they were, yet
    [ContainsKey] now answers true for [txB]: the item is put into the map
    before the capacity check and is not taken out again. *)
Lemma Add_out_of_memory_leaves_key :
  exists mp',
    Add difference difference poolA txB feer 1 = Ok (Some ErrOOM, mp') /\
    ContainsKey mp' (Hash txB) = true /\
    GetVerifiedTransactions mp' = [txA] /\
    Count mp' = Count poolA /\
    ContainsKey poolA (Hash txB) = false.
Proof. eexists. split; [vm_compute; reflexivity|]. vm_compute. auto. Qed.

(** C6 fails on the code. Removing [txB] from the pool that holds [txA]
    and [txB] deletes the key of [txB] from the map but cuts [txA], the
    first entry, out of the slice: [txB] is still among the verified
    transactions and [txA] is not. *)
Lemma Remove_cuts_the_first_item :
  ContainsKey (Remove poolAB (Hash txB)) (Hash txB) = false /\
  GetVerifiedTransactions (Remove poolAB (Hash txB)) = [txB] /\
  ContainsKey (Remove poolAB (Hash txB)) (Hash txA) = true /\
  GetVerifiedTransactions poolAB = [txA; txB].
Proof. vm_compute. auto. Qed.

(** C4 as stated fails: of two low-priority items the claim compares above
    the payment although the payment pays a hundred times the fee per
    byte. *)
Lemma claim_outranks_fee :
  isLowPrio claimItem = isLowPrio paymentItem /\
  perByteFee claimItem < perByteFee paymentItem /\
  CompareTo difference difference claimItem (Some paymentItem) = 1.
Proof. vm_compute. auto. Qed.

(** The claim above the payment, and [txB] (fee 3) below [txA] (fee 5). *)
Lemma CompareTo_order_witness :
  0 < CompareTo difference difference claimItem (Some paymentItem) /\
  CompareTo difference difference (newItem txB feer 1) (Some (newItem txA feer 0)) < 0.
Proof.
  destruct (CompareTo_order difference difference difference_lt difference_eq
              difference_lt difference_eq claimItem paymentItem) as (_ & _ & H & _).
  destruct (CompareTo_order difference difference difference_lt difference_eq
              difference_lt difference_eq (newItem txB feer 1) (newItem txA feer 0))
    as (_ & _ & _ & _ & H' & _).
  split.
  - apply H; reflexivity.
  - destruct (H' eq_refl) as (_ & Hlt & _). apply Hlt. vm_compute. reflexivity.
Defined.

Lemma sample_inputs_disjoint :
  conflict_free_txs [txA; txB; txC].
Proof.
  cbn. repeat split; repeat constructor;
    intros i Hi Hj; apply list_elem_of_singleton in Hi, Hj; subst; discriminate.
Qed.

(** [txB] does not fit the full [poolA]; of [txA], [txB] and [txC] a pool
    of capacity 2 keeps two. *)
Lemma Add_capacity_policy_witness :
  (exists mp', Add difference difference poolA txB feer 1 = Ok (Some ErrOOM, mp')) /\
  (exists mp dropped,
     AddAll difference difference (NewMemPool 2) feer [(txA, 0); (txB, 1); (txC, 2)] = Ok mp /\
     Count mp = 2 /\
     descending difference difference (verifiedTxes mp) /\
     GetVerifiedTransactions mp ++ dropped ≡ₚ [txA; txB; txC] /\
     (forall d k, d ∈ dropped -> k ∈ GetVerifiedTransactions mp -> outranks feer k d)).
Proof.
  destruct (Add_capacity_policy difference difference difference_lt difference_eq
              difference_lt difference_eq) as (Hfull & Hfill & _).
  split.
  - destruct (Hfull poolA txB feer 1) as (_ & [_ Hoom] & _).
    + repeat constructor.
    + reflexivity.
    + reflexivity.
    + reflexivity.
    + intros e He. apply list_elem_of_singleton in He as ->. vm_compute. discriminate.
    + apply Hoom. intros e He. apply list_elem_of_singleton in He as ->.
      right. split; [reflexivity|]. left. vm_compute. reflexivity.
  - apply (Hfill 2%nat feer [(txA, 0); (txB, 1); (txC, 2)]).
    + cbn. rewrite !NoDup_cons. repeat split; [| |by apply not_elem_of_nil|constructor].
      * intros H. apply elem_of_cons in H as [H|H]; [discriminate|].
        apply list_elem_of_singleton in H. discriminate.
      * intros H. apply list_elem_of_singleton in H. discriminate.
    + apply sample_inputs_disjoint.
    + cbn. lia.
Defined.

(** C3 as stated fails. Under a fee policy that makes both of low
    priority, a pool of capacity 1 that holds a claim paying 1 refuses a
    payment paying 100 with ErrOOM, and one that holds the payment evicts
    it for the claim: of the two, offered in either order, the pool keeps
    the one that the order of priority bucket, fee per byte, network fee
    and hash puts last. *)
Lemma pool_keeps_claim_over_fee :
  IsLowPriority lowFeer (NetworkFee lowFeer claimTx) = true /\
  IsLowPriority lowFeer (NetworkFee lowFeer paymentTx) = true /\
  FeePerByte lowFeer claimTx < FeePerByte lowFeer paymentTx /\
  (exists mp1 mp2,
     Add difference difference (NewMemPool 1) claimTx lowFeer 0 = Ok (None, mp1) /\
     Add difference difference mp1 paymentTx lowFeer 1 = Ok (Some ErrOOM, mp2) /\
     GetVerifiedTransactions mp2 = [claimTx]) /\
  (exists mp1 mp2,
     Add difference difference (NewMemPool 1) paymentTx lowFeer 0 = Ok (None, mp1) /\
     Add difference difference mp1 claimTx lowFeer 1 = Ok (None, mp2) /\
     GetVerifiedTransactions mp2 = [claimTx]).
Proof.
  split; [reflexivity|]. split; [reflexivity|]. split; [reflexivity|].
  split; eexists _, _; (split; [vm_compute; reflexivity|]);
    (split; [vm_compute; reflexivity|]); vm_compute; reflexivity.
Qed.

(** [txD] spends what [txB] spends. *)
Lemma Add_rejects_conflicts_witness :
  Add difference difference poolAB txD feer 2 = Ok (Some ErrConflict, poolAB) /\
  (exists mp,
     run difference difference
         [OpAdd txA feer 0; OpAdd txB feer 1; OpAdd txD feer 2; OpRemove 302]
         (NewMemPool 2) = Ok mp /\
     forall i j a b, i <> j ->
       verifiedTxes mp !! i = Some a -> verifiedTxes mp !! j = Some b ->
       inputs_disjoint (txn a) (txn b)).
Proof.
  destruct (Add_rejects_conflicts difference difference) as [Hconf Hinv].
  split.
  - apply Hconf. exists (newItem txB feer 1), in2.
    split; [|split]; [|apply list_elem_of_singleton; reflexivity..].
    apply elem_of_cons. right. by apply list_elem_of_singleton.
  - apply Hinv.
Defined.
(** C7 fails on the code. After [txA] and [txB] are added and [txB] is
    removed, [txA], which was never removed, is still answered by
    [ContainsKey] and [TryGetValue] but is no longer in the list that
    [verifyInputs] scans: [Remove] has cut the first entry, [txA], out of
    it. [txE], which spends the input [txA] spends, is then accepted, and
    the pool answers for both. *)
Lemma Add_accepts_conflict_after_Remove :
  exists mp mp',
    run difference difference
        [OpAdd txA feer 0; OpAdd txB feer 1; OpRemove (Hash txB)] (NewMemPool 2) = Ok mp /\
    ContainsKey mp (Hash txA) = true /\
    TryGetValue mp (Hash txA) = Some txA /\
    GetVerifiedTransactions mp = [txB] /\
    Inputs txA = [in1] /\ Inputs txE = [in1] /\
    Add difference difference mp txE feer 2 = Ok (None, mp') /\
    ContainsKey mp' (Hash txA) = true /\
    ContainsKey mp' (Hash txE) = true /\
    TryGetValue mp' (Hash txE) = Some txE.
Proof.
  eexists _, _. split; [vm_compute; reflexivity|].
  split; [vm_compute; reflexivity|]. split; [vm_compute; reflexivity|].
  split; [vm_compute; reflexivity|]. split; [reflexivity|]. split; [reflexivity|].
  split; [vm_compute; reflexivity|]. vm_compute. auto.
Qed.
End Closed.

Section ClosedTx.
Import BinIO Tx TxSamples.

(** A new transaction with the one-byte script PUSH1 on network 5. *)
Lemma hashes_memoised_witness :
  exists t',
    after unit unit unit no_encoding no_encoding uint160_bytes digest bytes_of
      [CallHash; CallVerificationHash] (New unit unit unit 5 [x51] 0 7) = Ok t' /\
    (exists t'', Hash unit unit unit no_encoding no_encoding uint160_bytes digest bytes_of t' =
       Ok (digest (bytes_of (digest
          (le_bytes 4 5 ++ [x00] ++ le_bytes 4 7 ++ le_bytes 20 0 ++ le_bytes 8 0 ++
           le_bytes 8 0 ++ le_bytes 4 0 ++ [x00] ++ [x00] ++ [x01; x51]))), t'')).
Proof.
  destruct (hashes_memoised unit unit unit no_encoding no_encoding uint160_bytes digest bytes_of
              (New unit unit unit 5 [x51] 0 7)) as [H _].
  destruct (H (le_bytes 4 5 ++ [x00] ++ le_bytes 4 7 ++ le_bytes 20 0 ++ le_bytes 8 0 ++
               le_bytes 8 0 ++ le_bytes 4 0 ++ [x00] ++ [x00] ++ [x01; x51])
              [CallHash; CallVerificationHash])
    as (_ & t' & Hafter & Hh & _); [reflexivity|by left|by left|].
  exists t'. split; [exact Hafter|exact Hh].
Defined.

(** C8 as stated fails: a trimmed transaction has no signed part and
    answers with the hash it was built with, and a new transaction without
    a script makes [Hash] panic. *)
Lemma Hash_of_trimmed_and_scriptless :
  Hash unit unit unit no_encoding no_encoding uint160_bytes digest bytes_of
    (NewTrimmedTX unit unit unit 7) = Ok (7, NewTrimmedTX unit unit unit 7) /\
  GetSignedPart unit unit unit no_encoding no_encoding uint160_bytes
    (NewTrimmedTX unit unit unit 7) = None /\
  Hash unit unit unit no_encoding no_encoding uint160_bytes digest bytes_of
    (New unit unit unit 5 [] 0 7) = Panic "failed to compute hash!".
Proof. repeat split; reflexivity. Qed.
End ClosedTx.

Section ClosedFind.
Import StorageFind FindSamples.

(** Remove-prefix with values-only, remove-prefix alone, keys-only. *)
Lemma Value_options_witness :
  Value no_items (mkIterator [entry] (Z.lor FindRemovePrefix FindValuesOnly) 0) =
    Ok (ByteArray [x2a]) /\
  Value no_items (mkIterator [entry] FindRemovePrefix 0) =
    Ok (Struct [ByteArray [x0b; x01]; ByteArray [x2a]]) /\
  Value no_items (mkIterator [entry] FindKeysOnly 0) = Ok (ByteArray [x0a; x0b; x01]).
Proof.
  destruct (Value_options no_items (mkIterator [entry] (Z.lor FindRemovePrefix FindValuesOnly) 0)
              entry [x0a; x0b; x01]) as [_ H1]; [reflexivity|reflexivity|discriminate|].
  destruct (Value_options no_items (mkIterator [entry] FindRemovePrefix 0)
              entry [x0a; x0b; x01]) as [_ H2]; [reflexivity|reflexivity|discriminate|].
  destruct (Value_options no_items (mkIterator [entry] FindKeysOnly 0)
              entry [x0a; x0b; x01]) as [H3 _]; [reflexivity|reflexivity|discriminate|].
  split; [|split].
  - apply H1; reflexivity.
  - apply H2; reflexivity.
  - apply H3; reflexivity.
Defined.

(** C9 as stated fails: with keys-only and values-only both set [Value]
    returns the key, remove-prefix cuts one byte of the key whatever the
    length of the prefix the entries were found under, and on an empty key
    it panics even though values-only hides the key. *)
Lemma Value_keys_only_wins :
  Value no_items (mkIterator [entry] (Z.lor FindKeysOnly FindValuesOnly) 0) =
    Ok (ByteArray [x0a; x0b; x01]) /\
  Value no_items (mkIterator [entry] FindRemovePrefix 0) =
    Ok (Struct [ByteArray [x0b; x01]; ByteArray [x2a]]) /\
  Value no_items (mkIterator [mkElement (ByteArray []) (ByteArray [x2a])]
                    (Z.lor FindRemovePrefix FindValuesOnly) 0) =
    Panic "slice bounds out of range".
Proof. repeat split; reflexivity. Qed.
End ClosedFind.

Section ClosedArith.
Import Vm Arith.

End ClosedArith.

(** * Further properties of the code *)

(** ** The execution context, further *)

Section ContextMore.
Import VmContext.

Lemma Next_step (c : Context) :
  -1 <= ip c < GoInt.maxInt ->
  Next c = Ok (default RET (prog c !! Z.to_nat (ip c + 1)), set_ip c (ip c + 1)).
Proof.
  intros Hip. unfold Next. unfold GoInt.maxInt in Hip.
  rewrite wrap_small by (unfold GoInt.minInt, GoInt.maxInt in *; lia).
  unfold len_prog. cbn [ip prog set_ip].
  destruct (Z.leb_spec (Z.of_nat (length (prog c))) (ip c + 1)).
  - by rewrite lookup_ge_None_2 by (unfold Instruction; lia).
  - destruct (index_Some (prog c) (ip c + 1)) as (b & Hb1 & Hb2); [lia|].
    rewrite Hb1. unfold Instruction. by rewrite Hb2.
Qed.

Lemma fetch_from (n : nat) : forall c : Context,
  -1 <= ip c -> ip c + Z.of_nat n <= GoInt.maxInt ->
  fetch n c =
    Ok (map (fun k => default RET (prog c !! (Z.to_nat (ip c + 1) + k)%nat)) (seq 0 n),
        set_ip c (ip c + Z.of_nat n)).
Proof.
  unfold GoInt.maxInt. induction n as [|n IH]; intros c Hlo Hhi.
  - cbn. destruct c. cbn. by rewrite Z.add_0_r.
  - cbn [fetch]. rewrite Next_step by (unfold GoInt.maxInt; lia).
    rewrite IH by (cbn [ip set_ip]; lia). cbn [ip prog set_ip seq map].
    rewrite Nat.add_0_r. f_equal. f_equal.
    + f_equal. rewrite <- seq_shift, map_map. apply map_ext. intros k.
      do 2 f_equal. lia.
    + unfold set_ip. cbn. f_equal. lia.
Qed.

(** X1. Stepping through a fresh context yields the bytes of the program in
    order and then RET for ever. *)
Theorem fetch_program (b : list byte) (n : nat) :
  Z.of_nat n <= GoInt.maxInt ->
  fetch n (NewContext b) =
    Ok (take n b ++ replicate (n - length b) RET,
        set_ip (NewContext b) (Z.of_nat n - 1)).
Proof.
  intros Hn. rewrite fetch_from by (cbn [ip NewContext]; unfold GoInt.maxInt in *; lia).
  cbn [ip prog NewContext]. unfold Instruction. f_equal. f_equal; [|f_equal; lia].
  change (Z.to_nat (-1 + 1)) with 0%nat.
  apply list_eq. intros i. rewrite list_lookup_fmap.
  destruct (decide (i < n)%nat) as [Hi|Hi].
  - rewrite lookup_seq_lt by done. cbn.
    destruct (decide (i < length b)%nat) as [Hb|Hb].
    + rewrite lookup_app_l by (rewrite length_take; lia).
      rewrite lookup_take_lt by done.
      by destruct (lookup_lt_is_Some_2 b i Hb) as [x ->].
    + rewrite lookup_ge_None_2 by lia. cbn.
      rewrite lookup_app_r by (rewrite length_take; lia).
      rewrite length_take. symmetry. apply lookup_replicate_2. lia.
  - rewrite lookup_seq_ge by lia. cbn. symmetry. apply lookup_ge_None_2.
    rewrite length_app, length_take, length_replicate. lia.
Qed.

Lemma fetch_program_witness :
  fetch 4 (NewContext [x51; x52]) =
    Ok ([x51; x52; RET; RET], set_ip (NewContext [x51; x52]) 3).
Proof.
  rewrite (fetch_program [x51; x52] 4); [reflexivity|].
  unfold GoInt.maxInt. lia.
Defined.

(** X2. [CurrInstr] after [Next]: the opcode just fetched while the pointer is
    inside the program, NOP before the first step, and a panic once [Next]
    has stepped past the end. *)
Theorem CurrInstr_after_Next (c c' : Context) (op : Instruction) :
  -1 <= ip c < GoInt.maxInt ->
  Next c = Ok (op, c') ->
  (ip c' < LenInstr c' -> CurrInstr c' = Ok (ip c', op)) /\
  (LenInstr c' <= ip c' -> op = RET /\ CurrInstr c' = Panic "index out of range") /\
  CurrInstr (NewContext (prog c)) = Ok (-1, NOP).
Proof.
  intros Hip HN. rewrite Next_step in HN by done. injection HN as <- <-.
  unfold GoInt.maxInt in Hip.
  unfold LenInstr, len_prog, CurrInstr. cbn [ip prog set_ip NewContext].
  split; [|split; [|done]].
  - intros Hin. destruct (Z.ltb_spec (ip c + 1) 0); [lia|].
    destruct (index_Some (prog c) (ip c + 1)) as (b & Hb1 & Hb2); [lia|].
    rewrite Hb1. unfold Instruction. by rewrite Hb2.
  - intros Hout. unfold Instruction. rewrite lookup_ge_None_2 by lia. split; [done|].
    destruct (Z.ltb_spec (ip c + 1) 0); [lia|].
    unfold GoInt.index. destruct (Z.ltb_spec (ip c + 1) 0); [lia|].
    by rewrite lookup_ge_None_2 by lia.
Qed.

Lemma CurrInstr_after_Next_witness :
  CurrInstr (set_ip (NewContext [x51]) 0) = Ok (0, x51) /\
  CurrInstr (set_ip (NewContext [x51]) 1) = Panic "index out of range".
Proof.
  destruct (CurrInstr_after_Next (NewContext [x51]) (set_ip (NewContext [x51]) 0) x51)
    as (H1 & _); [unfold GoInt.maxInt; cbn; lia | reflexivity |].
  destruct (CurrInstr_after_Next (set_ip (NewContext [x51]) 0)
              (set_ip (NewContext [x51]) 1) RET)
    as (_ & H2 & _); [unfold GoInt.maxInt; cbn; lia | reflexivity |].
  split; [apply H1; reflexivity|].
  apply H2. vm_compute. discriminate.
Defined.

(** X3. Two byte reads in a row read what one read of the joint length reads. *)
Theorem readBytes_twice (c : Context) (n k : Z) :
  -1 <= ip c < 2 ^ 31 -> 0 <= n < 2 ^ 31 -> 0 <= k < 2 ^ 31 ->
  IP c + n + k <= LenInstr c ->
  exists b1 b2 c1 c2,
    readBytes n c = Ok (Some b1, c1) /\
    readBytes k c1 = Ok (Some b2, c2) /\
    readBytes (n + k) c = Ok (Some (b1 ++ b2), c2).
Proof.
  intros Hip Hn Hk Hfit.
  assert (HIP : IP c = ip c + 1).
  { unfold IP. apply wrap_small. unfold GoInt.minInt, GoInt.maxInt. lia. }
  assert (HIP1 : IP (set_ip c (ip c + n)) = ip c + n + 1).
  { unfold IP. cbn [ip set_ip]. apply wrap_small. unfold GoInt.minInt, GoInt.maxInt. lia. }
  eexists _, _, _, _. split; [|split].
  - apply readBytes_in_bounds; lia.
  - apply readBytes_in_bounds; cbn [ip set_ip]; [lia..|].
    change (LenInstr (set_ip c (ip c + n))) with (LenInstr c). lia.
  - rewrite readBytes_in_bounds by lia. cbn [ip prog set_ip]. rewrite HIP, HIP1.
    f_equal. f_equal.
    + f_equal.
      replace (Z.to_nat (ip c + n + 1)) with (Z.to_nat (ip c + 1) + Z.to_nat n)%nat by lia.
      rewrite <- drop_drop, take_take_drop. f_equal. lia.
    + unfold set_ip. cbn. f_equal. lia.
Qed.

Lemma readBytes_twice_witness :
  exists b1 b2 c1 c2,
    readBytes 1 (NewContext [x01; x02; x03]) = Ok (Some b1, c1) /\
    readBytes 2 c1 = Ok (Some b2, c2) /\
    readBytes (1 + 2) (NewContext [x01; x02; x03]) = Ok (Some (b1 ++ b2), c2).
Proof.
  apply (readBytes_twice (NewContext [x01; x02; x03]) 1 2); [cbn; lia|lia|lia|].
  vm_compute. discriminate.
Defined.

(** X4. A length byte followed by that many bytes is read back by
    [readVarBytes], which leaves the pointer on the last byte read. *)
Theorem readVarBytes_payload (c : Context) (pre payload rest : list byte) (n : byte) :
  prog c = pre ++ n :: payload ++ rest ->
  ip c = Z.of_nat (length pre) - 1 ->
  Z.of_nat (length payload) = Z.of_N (Byte.to_N n) ->
  Z.of_nat (length pre) < 2 ^ 31 ->
  readVarBytes c = Ok (Some payload, set_ip c (ip c + 1 + Z.of_nat (length payload))).
Proof.
  intros Hprog Hip Hlen Hpre.
  pose proof (Byte.to_N_bounded n) as Hn.
  assert (Hl : LenInstr c = Z.of_nat (length pre) + 1 + Z.of_nat (length payload)
                            + Z.of_nat (length rest)).
  { unfold LenInstr, len_prog. rewrite Hprog, length_app. cbn [length].
    rewrite length_app. lia. }
  assert (HIP : IP c = ip c + 1).
  { unfold IP. apply wrap_small. unfold GoInt.minInt, GoInt.maxInt. lia. }
  assert (HIP1 : IP (set_ip c (ip c + 1)) = ip c + 2).
  { unfold IP. cbn [ip set_ip]. rewrite wrap_small; [lia|].
    unfold GoInt.minInt, GoInt.maxInt. lia. }
  unfold readVarBytes, readByte.
  rewrite readBytes_in_bounds by lia.
  rewrite HIP. replace (Z.to_nat (ip c + 1)) with (length pre) by lia.
  rewrite Hprog, drop_app_length. change (Z.to_nat 1) with 1%nat. cbn [take].
  rewrite <- Hlen. rewrite readBytes_in_bounds; cbn [ip set_ip]; [|lia|lia|].
  2:{ rewrite HIP1. change (LenInstr (set_ip c (ip c + 1))) with (LenInstr c). lia. }
  rewrite HIP1. cbn [prog set_ip]. rewrite Hprog.
  replace (Z.to_nat (ip c + 2)) with (length pre + 1)%nat by lia.
  rewrite <- drop_drop, drop_app_length. cbn [drop].
  rewrite Nat2Z.id, drop_0, take_app_length. reflexivity.
Qed.

Lemma readVarBytes_payload_witness :
  readVarBytes (NewContext [x02; x0a; x0b; x66]) =
    Ok (Some [x0a; x0b], set_ip (NewContext [x02; x0a; x0b; x66]) 2).
Proof.
  apply (readVarBytes_payload (NewContext [x02; x0a; x0b; x66]) [] [x0a; x0b] [x66] x02);
    [reflexivity..|cbn; lia].
Defined.
End ContextMore.

Section ReadsMore.
Import VmContext.

Lemma le_value_bound (bs : list byte) : 0 <= le_value bs < 256 ^ Z.of_nat (length bs).
Proof.
  induction bs as [|b bs IH]; [cbn; lia|].
  cbn [le_value length]. pose proof (Byte.to_N_bounded b) as Hb.
  rewrite Nat2Z.inj_succ, Z.pow_succ_r by lia. lia.
Qed.

Lemma le_value_app (b1 b2 : list byte) :
  le_value (b1 ++ b2) = le_value b1 + 256 ^ Z.of_nat (length b1) * le_value b2.
Proof.
  induction b1 as [|b b1 IH]; [cbn [app le_value length]; lia|].
  cbn [app le_value length]. rewrite IH, Nat2Z.inj_succ, Z.pow_succ_r by lia. lia.
Qed.

(** X5. A 32-bit operand is the two 16-bit operands in its place, low half
    first, and the reads return values of their width only. *)
Theorem readUint32_halves (c : Context) :
  -1 <= ip c < 2 ^ 31 -> IP c + 4 <= LenInstr c ->
  exists lo hi c1 c2,
    readUint16 c = Ok (lo, c1) /\ readUint16 c1 = Ok (hi, c2) /\
    readUint32 c = Ok (lo + 65536 * hi, c2) /\
    0 <= lo < 65536 /\ 0 <= hi < 65536 /\
    ip c2 = ip c + 4.
Proof.
  intros Hip Hfit.
  assert (HIP : IP c = ip c + 1).
  { unfold IP. apply wrap_small. unfold GoInt.minInt, GoInt.maxInt. lia. }
  assert (HIP1 : IP (set_ip c (ip c + 2)) = ip c + 3).
  { unfold IP. cbn [ip set_ip]. rewrite wrap_small; [lia|].
    unfold GoInt.minInt, GoInt.maxInt. lia. }
  set (tl := drop (Z.to_nat (ip c + 1)) (prog c)).
  assert (Hlen : (4 <= length tl)%nat).
  { unfold tl. rewrite length_drop. unfold LenInstr, len_prog in Hfit. lia. }
  pose proof (le_value_bound (take 2 tl)) as Hlo.
  pose proof (le_value_bound (take 2 (drop 2 tl))) as Hhi.
  rewrite length_take in Hlo, Hhi. rewrite length_drop in Hhi.
  rewrite Nat.min_l in Hlo, Hhi by lia.
  change (256 ^ Z.of_nat 2) with 65536 in Hlo, Hhi.
  exists (le_value (take 2 tl)), (le_value (take 2 (drop 2 tl))),
    (set_ip c (ip c + 2)), (set_ip c (ip c + 4)).
  unfold readUint16, readUint32. split; [|split; [|split]].
  - rewrite readUint_in_bounds by lia. by rewrite HIP.
  - rewrite readUint_in_bounds; cbn [ip set_ip]; [|lia|lia|].
    2:{ rewrite HIP1. change (LenInstr (set_ip c (ip c + 2))) with (LenInstr c). lia. }
    rewrite HIP1. cbn [prog set_ip].
    replace (Z.to_nat (ip c + 3)) with (Z.to_nat (ip c + 1) + 2)%nat by lia.
    rewrite <- drop_drop. fold tl. f_equal. f_equal. unfold set_ip. cbn. f_equal. lia.
  - rewrite readUint_in_bounds by lia. rewrite HIP. fold tl.
    change (Z.to_nat 4) with (2 + 2)%nat.
    rewrite <- (take_take_drop tl 2 2), le_value_app, length_take, Nat.min_l by lia.
    done.
  - cbn [ip set_ip]. lia.
Qed.

Lemma readUint32_halves_witness :
  exists lo hi c1 c2,
    readUint16 (NewContext [x01; x02; x03; x04]) = Ok (lo, c1) /\
    readUint16 c1 = Ok (hi, c2) /\
    readUint32 (NewContext [x01; x02; x03; x04]) = Ok (lo + 65536 * hi, c2) /\
    0 <= lo < 65536 /\ 0 <= hi < 65536 /\
    ip c2 = ip (NewContext [x01; x02; x03; x04]) + 4.
Proof.
  apply (readUint32_halves (NewContext [x01; x02; x03; x04])); [cbn; lia|].
  vm_compute. discriminate.
Defined.
End ReadsMore.

(** ** The memory pool, further *)

Section PoolMore.
Import Mempool.

Variable fcmp : Fixed8 -> Fixed8 -> Z.
Variable ucmp : Uint256 -> Uint256 -> Z.

Local Abbreviation Add := (Mempool.Add fcmp ucmp).
Local Abbreviation run := (Mempool.run fcmp ucmp).

(** X6. [Add] never panics. It reports a shared input before it looks for a
    duplicate, and a refusal for either reason leaves the pool as it was;
    a refusal for lack of room leaves the slice as it was. *)
Theorem Add_answers (mp : Pool) (t : Transaction) (fee : Feer) (now : Z) :
  exists err mp',
    Add mp t fee now = Ok (err, mp') /\
    capacity mp' = capacity mp /\
    (verifyInputs mp t = false -> err = Some ErrConflict /\ mp' = mp) /\
    (verifyInputs mp t = true -> containsKey mp (Hash t) = true ->
     err = Some ErrDup /\ mp' = mp) /\
    (verifyInputs mp t = true -> containsKey mp (Hash t) = false ->
     (err = None \/ err = Some ErrOOM) /\
     (err = Some ErrOOM ->
      verifiedTxes mp' = verifiedTxes mp /\
      length (verifiedTxes mp) = capacity mp)).
Proof.
  destruct (verifyInputs mp t) eqn:Hv.
  2:{ exists (Some ErrConflict), mp. unfold Mempool.Add. rewrite Hv. cbn.
      repeat split; done. }
  destruct (containsKey mp (Hash t)) eqn:Hc.
  { exists (Some ErrDup), mp. unfold Mempool.Add. rewrite Hv, Hc. cbn.
    repeat split; done. }
  destruct (Add_cases fcmp ucmp mp t fee now Hv Hc) as (n & Hn & Hle & Hadd).
  destruct (decide _) as [Hfull|Hroom].
  - destruct (decide _) as [->|Hne].
    + eexists _, _. split; [exact Hadd|]. cbn.
      repeat split; try done. by right.
    + destruct Hadd as (l' & u & Hl & Hadd).
      eexists _, _. split; [exact Hadd|]. cbn.
      repeat split; try done. by left.
  - eexists _, _. split; [exact Hadd|]. cbn.
    repeat split; try done. by left.
Qed.

(** X7. Below capacity an acceptable transaction gets in: the count grows by
    one, the transaction is found by its hash and listed, and nothing else
    in the pool changes. *)
Theorem Add_with_room (mp : Pool) (t : Transaction) (fee : Feer) (now : Z) :
  verifyInputs mp t = true -> containsKey mp (Hash t) = false ->
  length (verifiedTxes mp) <> capacity mp ->
  exists mp',
    Add mp t fee now = Ok (None, mp') /\
    Count mp' = Count mp + 1 /\
    ContainsKey mp' (Hash t) = true /\
    TryGetValue mp' (Hash t) = Some t /\
    GetVerifiedTransactions mp' ≡ₚ t :: GetVerifiedTransactions mp /\
    (forall h, h <> Hash t ->
       ContainsKey mp' h = ContainsKey mp h /\ TryGetValue mp' h = TryGetValue mp h).
Proof.
  intros Hv Hc Hroom.
  destruct (Add_cases fcmp ucmp mp t fee now Hv Hc) as (n & Hn & Hle & Hadd).
  destruct (decide _) as [|_]; [done|].
  eexists. split; [exact Hadd|].
  unfold Count, count, ContainsKey, containsKey, TryGetValue, GetVerifiedTransactions.
  cbn [verifiedTxes verifiedMap]. rewrite insert_at_length, lookup_insert_eq.
  split; [lia|]. split; [done|]. split; [done|]. split.
  - by rewrite insert_at_perm.
  - intros h Hh. by rewrite lookup_insert_ne.
Qed.



(** ** The capacity is never exceeded *)

Lemma apply_op_within_capacity (mp : Pool) (op : Op) :
  (length (verifiedTxes mp) <= capacity mp)%nat ->
  exists mp', apply_op fcmp ucmp mp op = Ok mp' /\
              capacity mp' = capacity mp /\
              (length (verifiedTxes mp') <= capacity mp')%nat.
Proof.
  intros Hle. destruct op as [t fee now|h|isOK]; cbn [apply_op].
  - destruct (verifyInputs mp t) eqn:Hv.
    2:{ exists mp. unfold Mempool.Add. by rewrite Hv. }
    destruct (containsKey mp (Hash t)) eqn:Hc.
    { exists mp. unfold Mempool.Add. by rewrite Hv, Hc. }
    destruct (Add_cases fcmp ucmp mp t fee now Hv Hc) as (n & Hn & _ & Hadd).
    destruct (decide _) as [Hfull|Hroom].
    + destruct (decide _) as [->|Hne].
      * rewrite Hadd. eexists. split; [done|]. cbn. split; [done|lia].
      * destruct Hadd as (l' & u & Hl & ->). eexists. split; [done|]. cbn.
        split; [done|]. rewrite insert_at_length.
        rewrite Hl, length_app in Hfull. cbn in Hfull. lia.
    + rewrite Hadd. eexists. split; [done|]. cbn. split; [done|].
      rewrite insert_at_length. lia.
  - eexists. split; [done|].
    pose proof (submseteq_length _ _ (Remove_submseteq mp h)) as Hlen.
    assert (Hcap : capacity (Remove mp h) = capacity mp).
    { unfold Remove. by repeat case_match. }
    rewrite Hcap. split; [done|lia].
  - eexists. split; [done|].
    pose proof (submseteq_length _ _ (RemoveStale_submseteq mp isOK)) as Hlen.
    cbn [RemoveStale capacity]. split; [done|lia].
Qed.

(** X10. Whatever is done to a pool made by [NewMemPool], it never holds more
    transactions than its capacity. *)
Theorem Count_within_capacity (C : nat) (ops : list Op) :
  exists mp, run ops (NewMemPool C) = Ok mp /\
             capacity mp = C /\ Count mp <= Z.of_nat C.
Proof.
  assert (H : forall mp, (length (verifiedTxes mp) <= capacity mp)%nat ->
            exists mp', run ops mp = Ok mp' /\ capacity mp' = capacity mp /\
                        (length (verifiedTxes mp') <= capacity mp')%nat).
  { induction ops as [|op ops IH]; intros mp Hle; cbn [Mempool.run].
    - by exists mp.
    - destruct (apply_op_within_capacity mp op Hle) as (mp1 & -> & Hcap & Hle1).
      destruct (IH mp1 Hle1) as (mp' & Hrun & Hcap' & Hle').
      exists mp'. split; [done|]. split; [congruence|done]. }
  destruct (H (NewMemPool C)) as (mp & Hrun & Hcap & Hle); [cbn; lia|].
  exists mp. split; [done|]. cbn in Hcap. split; [done|].
  unfold Count, count. lia.
Qed.

(** ** RemoveStale *)

Lemma RemoveStale_map_loop (isOK : Transaction -> bool) l : forall (vm : gmap Z item) acc h,
  (foldl (fun (acc : gmap Z item * list item) itm =>
            if isOK (txn itm) then (acc.1, acc.2 ++ [itm])
            else (delete (Hash (txn itm)) acc.1, acc.2)) (vm, acc) l).1 !! h =
  if existsb (fun itm => negb (isOK (txn itm)) && (Hash (txn itm) =? h)) l
  then None else vm !! h.
Proof.
  induction l as [|e l IH]; intros vm acc h; cbn [foldl existsb]; [done|].
  destruct (isOK (txn e)); cbn [fst snd negb andb orb]; rewrite IH; [done|].
  destruct (Z.eqb_spec (Hash (txn e)) h) as [->|Hne]; cbn [orb].
  - destruct (existsb _ l); [done|]. by rewrite lookup_delete_eq.
  - destruct (existsb _ l); [done|]. by rewrite lookup_delete_ne.
Qed.

(** X11. [RemoveStale] keeps, in order, exactly the transactions the predicate
    accepts; the hash of every transaction it drops is no longer a key, and
    no other key is touched. *)
Theorem RemoveStale_keeps (mp : Pool) (isOK : Transaction -> bool) :
  GetVerifiedTransactions (RemoveStale mp isOK) =
    List.filter isOK (GetVerifiedTransactions mp) /\
  capacity (RemoveStale mp isOK) = capacity mp /\
  (forall e, e ∈ verifiedTxes mp -> isOK (txn e) = false ->
     ContainsKey (RemoveStale mp isOK) (Hash (txn e)) = false) /\
  (forall h, (forall e, e ∈ verifiedTxes mp -> isOK (txn e) = false -> Hash (txn e) <> h) ->
     ContainsKey (RemoveStale mp isOK) h = ContainsKey mp h /\
     TryGetValue (RemoveStale mp isOK) h = TryGetValue mp h).
Proof.
  split; [|split; [done|split]].
  - unfold GetVerifiedTransactions. rewrite RemoveStale_txes.
    induction (verifiedTxes mp) as [|e l IH]; [done|]. cbn.
    destruct (isOK (txn e)); cbn; by rewrite IH.
  - intros e He Hok. unfold ContainsKey, containsKey, RemoveStale. cbn [verifiedMap].
    rewrite RemoveStale_map_loop.
    assert (existsb (fun itm => negb (isOK (txn itm)) && (Hash (txn itm) =? Hash (txn e)))
              (verifiedTxes mp) = true) as ->; [|done].
    apply existsb_exists. exists e. split; [by apply list_elem_of_In|].
    by rewrite Hok, Z.eqb_refl.
  - intros h Hh. unfold ContainsKey, containsKey, TryGetValue, RemoveStale.
    cbn [verifiedMap]. rewrite RemoveStale_map_loop.
    assert (existsb (fun itm => negb (isOK (txn itm)) && (Hash (txn itm) =? h))
              (verifiedTxes mp) = false) as ->; [|done].
    apply not_true_iff_false. intros Hex. apply existsb_exists in Hex as (e & He & Hcond).
    apply andb_true_iff in Hcond as [Hok Heq]. apply negb_true_iff in Hok.
    apply Z.eqb_eq in Heq. apply list_elem_of_In in He. by apply (Hh e He Hok).
Qed.

(** ** Remove *)

Lemma Remove_present (mp : Pool) (h : Uint256) (it : item) :
  verifiedMap mp !! h = Some it ->
  Remove mp h = mkPool (delete h (verifiedMap mp)) (drop 1 (verifiedTxes mp)) (capacity mp).
Proof.
  intros Hh. unfold Remove. rewrite Hh. cbv zeta.
  destruct (verifiedTxes mp) as [|e [|e' l]]; [reflexivity..|].
  replace (Z.of_nat 0 <? Z.of_nat (length (e :: e' :: l)) - 1) with true; [reflexivity|].
  symmetry. apply Z.ltb_lt. cbn [length]. lia.
Qed.

(** X12. [Remove] of a hash that is a key deletes the key, leaves the other keys
    alone and cuts the first entry out of the slice, whichever transaction
    that is; so it removes the transaction asked for when that is the first
    one. A hash that is no key changes nothing. *)
Theorem Remove_effect (mp : Pool) (h : Uint256) :
  (ContainsKey mp h = false -> Remove mp h = mp) /\
  (ContainsKey mp h = true ->
   ContainsKey (Remove mp h) h = false /\
   (forall h', h' <> h -> ContainsKey (Remove mp h) h' = ContainsKey mp h') /\
   GetVerifiedTransactions (Remove mp h) = drop 1 (GetVerifiedTransactions mp) /\
   capacity (Remove mp h) = capacity mp).
Proof.
  unfold ContainsKey, containsKey, GetVerifiedTransactions.
  destruct (verifiedMap mp !! h) as [it|] eqn:Hh; (split; [|done || intros _]).
  - done.
  - rewrite (Remove_present mp h it Hh). cbn [verifiedMap verifiedTxes capacity].
    rewrite lookup_delete_eq. split; [done|]. split; [|split; [|done]].
    + intros h' Hne. by rewrite lookup_delete_ne.
    + by destruct (verifiedTxes mp).
  - intros _. unfold Remove. by rewrite Hh.
Qed.
End PoolMore.

Section OrderMore.
Import Mempool.

Variable fcmp : Fixed8 -> Fixed8 -> Z.
Variable ucmp : Uint256 -> Uint256 -> Z.
Hypothesis fcmp_lt : forall f g, fcmp f g < 0 <-> f < g.
Hypothesis fcmp_eq : forall f g, fcmp f g = 0 <-> f = g.
Hypothesis ucmp_lt : forall u v, ucmp u v < 0 <-> u < v.
Hypothesis ucmp_eq : forall u v, ucmp u v = 0 <-> u = v.

Local Abbreviation cmp := (CompareTo fcmp ucmp).

(** X13. With three-way comparisons of fees and hashes, [CompareTo] is a total
    order on items up to their hash: swapping the arguments swaps the sign,
    the order is transitive, two items compare equal only if they carry
    the same hash, and every item compares above the nil item. *)
Theorem CompareTo_total_order (a b c : item) :
  (0 < cmp a (Some b) <-> cmp b (Some a) < 0) /\
  (cmp a (Some b) = 0 <-> cmp b (Some a) = 0) /\
  (0 <= cmp a (Some b) -> 0 <= cmp b (Some c) -> 0 <= cmp a (Some c)) /\
  (0 < cmp a (Some b) -> 0 <= cmp b (Some c) -> 0 < cmp a (Some c)) /\
  (cmp a (Some b) = 0 -> Hash (txn a) = Hash (txn b)) /\
  cmp a (Some a) = 0 /\
  cmp a None = 1.
Proof.
  pose proof (cmp_zero fcmp ucmp fcmp_lt fcmp_eq ucmp_lt ucmp_eq) as Hzero.
  split; [by apply cmp_flip|]. split.
  { rewrite !Hzero. split; by apply level_sym. }
  split; [by apply cmp_trans_ge|]. split; [by apply cmp_trans_gt|].
  split; [by apply cmp_zero_hash|]. split; [|done].
  apply Hzero. by unfold level.
Qed.
End OrderMore.

Section GroupingMore.
Import Mempool.

Variable ucmp : Uint256 -> Uint256 -> Z.
Variable sort_Slice : (Input -> Input -> bool) -> list Input -> list Input.
Hypothesis ucmp_lt : forall u v, ucmp u v < 0 <-> u < v.
Hypothesis sort_Slice_perm : forall l, sort_Slice (byPrevHash ucmp) l ≡ₚ l.
Hypothesis sort_Slice_sorted : forall l,
  StronglySorted (fun a b => byPrevHash ucmp b a = false) (sort_Slice (byPrevHash ucmp) l).

Lemma well_grouped_snoc gs cur h :
  well_grouped gs -> cur <> [] -> uniform cur h ->
  (forall g a, last gs = Some g -> a ∈ g -> PrevHash a <> h) ->
  well_grouped (gs ++ [cur]).
Proof.
  intros [Hall Hadj] Hne Hu Hlast. split.
  - apply Forall_app. split; [done|]. constructor; [|done]. split; [done|by exists h].
  - intros k g1 g2 a b H1 H2 Ha Hb.
    destruct (decide (S k < length gs)%nat) as [Hlt|Hge].
    + rewrite lookup_app_l in H1, H2 by lia. by apply (Hadj k g1 g2).
    + assert (length gs <= S k)%nat as Hle by lia.
      pose proof (lookup_lt_Some _ _ _ H2) as Hlen2. rewrite length_app in Hlen2.
      cbn in Hlen2. assert (S k = length gs) as Hk by lia.
      rewrite lookup_app_l in H1 by lia.
      rewrite lookup_app_r, Hk, Nat.sub_diag in H2 by lia. cbn in H2.
      injection H2 as <-.
      assert (Hg1 : last gs = Some g1).
      { rewrite last_lookup. rewrite <- Hk. exact H1. }
      unfold uniform in Hu. rewrite Forall_forall in Hu.
      rewrite (Hu b Hb). by apply (Hlast g1).
Qed.

Lemma group_loop_inv ptrs : forall rest res cur h i first first' res',
  ptrs = concat res ++ cur ++ rest ->
  first = length (concat res) -> i = (first + length cur)%nat ->
  uniform cur h ->
  (cur = [] -> exists p rest', rest = p :: rest' /\ PrevHash p = h) ->
  well_grouped res ->
  (forall g a, last res = Some g -> a ∈ g -> PrevHash a <> h) ->
  group_loop ptrs rest i first h res = (first', res') ->
  exists cur', ptrs = concat res' ++ cur' /\ first' = length (concat res') /\
               well_grouped (res' ++ [cur']).
Proof.
  induction rest as [|p rest IH];
    intros res cur h i first first' res' Hptrs Hfirst Hi Hu Hcur Hwg Hlast Hloop.
  - cbn in Hloop. injection Hloop as <- <-. exists cur.
    rewrite app_nil_r in Hptrs. split; [done|]. split; [done|].
    apply (well_grouped_snoc _ _ h); try done.
    intros ->. by destruct Hcur as (? & ? & ? & _).
  - cbn [group_loop] in Hloop.
    destruct (Z.eqb_spec h (PrevHash p)) as [Heq|Hneq]; cbn [negb] in Hloop.
    + apply (IH res (cur ++ [p]) h (S i) first first' res'); try done.
      * by rewrite <- (assoc_L (++)).
      * rewrite length_app. cbn. lia.
      * apply Forall_app. split; [done|]. by constructor.
      * intros Hnil. by destruct cur.
    + assert (Hcut : take (i - first) (drop first ptrs) = cur).
      { rewrite Hptrs, Hfirst, drop_app_length.
        replace (i - length (concat res))%nat with (length cur) by lia.
        by rewrite take_app_length. }
      rewrite Hcut in Hloop.
      assert (Hne : cur <> []).
      { intros ->. destruct Hcur as (p' & r' & [= <- _] & Hp'); [done|]. by subst. }
      apply (IH (res ++ [cur]) [p] (PrevHash p) (S i) i first' res'); try done.
      * rewrite concat_app. cbn. rewrite app_nil_r, Hptrs.
        by rewrite <- !(assoc_L (++)).
      * rewrite concat_app, length_app. cbn. rewrite app_nil_r. lia.
      * cbn. lia.
      * by repeat constructor.
      * by apply (well_grouped_snoc _ _ h).
      * intros g a Hg Ha. rewrite last_snoc in Hg. injection Hg as <-.
        unfold uniform in Hu. rewrite Forall_forall in Hu. rewrite (Hu a Ha).
        done.
Qed.

Lemma byPrevHash_le a b : byPrevHash ucmp b a = false <-> PrevHash a <= PrevHash b.
Proof.
  unfold byPrevHash. rewrite Z.ltb_ge. pose proof (ucmp_lt (PrevHash b) (PrevHash a)). lia.
Qed.

Lemma elem_of_concat {A} (x : A) (g : list A) (gs : list (list A)) :
  x ∈ g -> g ∈ gs -> x ∈ concat gs.
Proof.
  intros Hx Hg. induction gs as [|g' gs IH]; [by apply elem_of_nil in Hg|].
  cbn. apply elem_of_app. apply elem_of_cons in Hg as [<-|Hg]; [by left|right; by apply IH].
Qed.

Lemma concat_sorted_groups (gs : list (list Input)) j k g1 g2 a b :
  StronglySorted (fun a b => byPrevHash ucmp b a = false) (concat gs) ->
  (j < k)%nat -> gs !! j = Some g1 -> gs !! k = Some g2 -> a ∈ g1 -> b ∈ g2 ->
  PrevHash a <= PrevHash b.
Proof.
  intros Hs Hjk H1 H2 Ha Hb. apply byPrevHash_le.
  rewrite <- (take_drop_middle gs j g1 H1) in Hs, H2.
  rewrite concat_app, concat_cons, (assoc_L (++)) in Hs.
  apply (StronglySorted_app_1_elem_of _ _ _ a b Hs).
  - apply elem_of_app. by right.
  - pose proof (lookup_lt_Some _ _ _ H1) as Hj.
    rewrite lookup_app_r in H2 by (rewrite length_take; lia).
    rewrite length_take, Nat.min_l in H2 by lia.
    destruct (k - j)%nat as [|d] eqn:Hd; [lia|]. cbn in H2.
    apply (elem_of_concat _ g2); [done|].
    by apply list_elem_of_lookup_2 in H2.
Qed.

(** X14. [GroupInputsByPrevHash] returns nil for no inputs. Otherwise it returns
    the sorted inputs cut into groups: the groups put together are the
    sorted slice, so every input is in the result once; no group is empty;
    two inputs have the same previous hash exactly when they are in the
    same group, and the groups come in ascending order of that hash. *)
Theorem GroupInputsByPrevHash_groups (ins : list Input) :
  (ins = [] -> GroupInputsByPrevHash ucmp sort_Slice ins = Ok None) /\
  (ins <> [] ->
   exists gs,
     GroupInputsByPrevHash ucmp sort_Slice ins = Ok (Some gs) /\
     concat gs = sort_Slice (byPrevHash ucmp) ins /\
     concat gs ≡ₚ ins /\
     Forall (fun g => g <> []) gs /\
     forall j k g1 g2 a b,
       gs !! j = Some g1 -> gs !! k = Some g2 -> a ∈ g1 -> b ∈ g2 ->
       (PrevHash a = PrevHash b <-> j = k) /\
       ((j < k)%nat -> PrevHash a < PrevHash b)).
Proof.
  split; [by intros ->|]. intros Hne. unfold GroupInputsByPrevHash.
  destruct ins as [|i0 ins']; [done|]. cbn [length Nat.eqb].
  pose proof (sort_Slice_perm (i0 :: ins')) as Hperm.
  pose proof (sort_Slice_sorted (i0 :: ins')) as Hsorted.
  revert Hperm Hsorted. generalize (sort_Slice (byPrevHash ucmp) (i0 :: ins')).
  intros ptrs Hperm Hsorted. cbv zeta.
  destruct ptrs as [|p0 tl].
  { by apply Permutation_nil_l in Hperm. }
  cbv iota. remember (p0 :: tl) as ptrs eqn:Hptrs.
  destruct (group_loop ptrs ptrs 0 0 (PrevHash p0) []) as [first res] eqn:Hloop.
  destruct (group_loop_inv ptrs ptrs [] [] (PrevHash p0) 0%nat 0%nat first res)
    as (cur & Hcat & Hfirst & Hwg).
  { done. }
  { done. }
  { done. }
  { constructor. }
  { intros _. exists p0, tl. by rewrite Hptrs. }
  { split; [constructor|]. intros k g1 g2 a b H1. done. }
  { intros g a Hg. done. }
  { done. }
  assert (Hdrop : drop first ptrs = cur).
  { rewrite Hfirst. rewrite Hcat. by rewrite drop_app_length. }
  rewrite Hdrop. exists (res ++ [cur]).
  assert (Hconcat : concat (res ++ [cur]) = ptrs).
  { rewrite concat_app. cbn. by rewrite app_nil_r. }
  split; [done|]. split; [done|]. split; [by rewrite Hconcat|].
  destruct Hwg as [Hall Hadj]. split.
  { eapply Forall_impl; [exact Hall|]. by intros g [? _]. }
  set (gs := res ++ [cur]) in *.
  assert (Hsame : forall j g a b, gs !! j = Some g -> a ∈ g -> b ∈ g ->
                    PrevHash a = PrevHash b).
  { intros j g a b Hg Ha Hb. apply list_elem_of_lookup_2 in Hg.
    rewrite Forall_forall in Hall. destruct (Hall g Hg) as (_ & h & Hu).
    unfold uniform in Hu. rewrite Forall_forall in Hu.
    by rewrite (Hu a Ha), (Hu b Hb). }
  assert (Hlt : forall j k g1 g2 a b, (j < k)%nat ->
            gs !! j = Some g1 -> gs !! k = Some g2 -> a ∈ g1 -> b ∈ g2 ->
            PrevHash a < PrevHash b).
  { intros j k g1 g2 a b Hjk H1 H2 Ha Hb.
    rewrite <- Hconcat in Hsorted.
    pose proof (concat_sorted_groups gs j k g1 g2 a b Hsorted Hjk H1 H2 Ha Hb) as Hle.
    destruct (gs !! S j) as [g|] eqn:Hg.
    2:{ apply lookup_ge_None in Hg. apply lookup_lt_Some in H2. lia. }
    assert (Hgne : g <> []).
    { apply list_elem_of_lookup_2 in Hg. rewrite Forall_forall in Hall.
      by destruct (Hall g Hg). }
    destruct g as [|x g']; [done|].
    assert (Hx : x ∈ x :: g') by set_solver.
    pose proof (Hadj j g1 (x :: g') a x H1 Hg Ha Hx) as Hax.
    pose proof (concat_sorted_groups gs j (S j) g1 (x :: g') a x Hsorted
                  ltac:(lia) H1 Hg Ha Hx) as Hle1.
    assert (PrevHash x <= PrevHash b) as Hle2.
    { destruct (decide (S j = k)) as [Hk|Hk].
      - subst k. rewrite Hg in H2. injection H2 as <-.
        rewrite (Hsame (S j) (x :: g') x b Hg Hx Hb). lia.
      - apply (concat_sorted_groups gs (S j) k (x :: g') g2 x b Hsorted); try done. lia. }
    lia. }
  intros j k g1 g2 a b H1 H2 Ha Hb. split; [|intros Hjk; by apply (Hlt j k g1 g2)].
  split.
  - intros Heq. destruct (Nat.lt_trichotomy j k) as [Hjk|[Hjk|Hjk]]; [|done|].
    + pose proof (Hlt j k g1 g2 a b Hjk H1 H2 Ha Hb). lia.
    + pose proof (Hlt k j g2 g1 b a Hjk H2 H1 Hb Ha). lia.
  - intros <-. rewrite H1 in H2. injection H2 as <-. by apply (Hsame j g1).
Qed.
End GroupingMore.

Section ClosedPool.
Import Mempool Samples.

(** [txA] goes into an empty pool of capacity 2. *)
Lemma Add_with_room_witness :
  exists mp',
    Add difference difference (NewMemPool 2) txA feer 0 = Ok (None, mp') /\
    Count mp' = 1 /\
    TryGetValue mp' (Hash txA) = Some txA /\
    GetVerifiedTransactions mp' ≡ₚ [txA].
Proof.
  destruct (Add_with_room difference difference (NewMemPool 2) txA feer 0)
    as (mp' & Hadd & Hcount & _ & Hget & Hlist & _).
  - reflexivity.
  - reflexivity.
  - cbn. lia.
  - exists mp'. split; [exact Hadd|]. split; [exact Hcount|]. split; [exact Hget|exact Hlist].
Defined.


Lemma CompareTo_total_order_witness :
  (0 < CompareTo difference difference claimItem (Some paymentItem) <->
   CompareTo difference difference paymentItem (Some claimItem) < 0) /\
  CompareTo difference difference claimItem (Some claimItem) = 0.
Proof.
  destruct (CompareTo_total_order difference difference difference_lt difference_eq
              difference_lt difference_eq claimItem paymentItem claimItem)
    as (Hflip & _ & _ & _ & _ & Hrefl & _).
  split; [exact Hflip|exact Hrefl].
Defined.

Lemma merge_sort_Slice_perm less l : merge_sort_Slice less l ≡ₚ l.
Proof. unfold merge_sort_Slice. apply merge_sort_Permutation. Qed.

Lemma merge_sort_Slice_sorted l :
  StronglySorted (fun a b => byPrevHash difference b a = false)
                 (merge_sort_Slice (byPrevHash difference) l).
Proof.
  unfold merge_sort_Slice. apply StronglySorted_merge_sort.
  - intros a b c. unfold byPrevHash, difference. rewrite !Z.ltb_ge. lia.
  - intros a b. unfold byPrevHash, difference. rewrite !Z.ltb_ge. lia.
Qed.

(** Three inputs, two of which spend outputs of the same transaction. *)
Lemma GroupInputsByPrevHash_groups_witness :
  exists gs,
    GroupInputsByPrevHash difference merge_sort_Slice [in2; mkInput 11 3; in1] = Ok (Some gs) /\
    concat gs ≡ₚ [in2; mkInput 11 3; in1] /\
    Forall (fun g => g <> []) gs.
Proof.
  destruct (GroupInputsByPrevHash_groups difference merge_sort_Slice difference_lt
              (merge_sort_Slice_perm _) merge_sort_Slice_sorted [in2; mkInput 11 3; in1])
    as [_ H].
  destruct H as (gs & Hg & _ & Hperm & Hne & _); [discriminate|].
  exists gs. split; [exact Hg|]. split; [exact Hperm|exact Hne].
Defined.

End ClosedPool.

(** ** The storage iterator, further *)

Section FindMore.
Import StorageFind.

Variable DeserializeItem : list byte -> option Item.

Local Abbreviation Value := (StorageFind.Value DeserializeItem).
Local Abbreviation collect := (StorageFind.collect DeserializeItem).

Lemma Next_inside (s : Iterator) :
  -1 <= index s -> Z.of_nat (length (m s)) <= GoInt.maxInt ->
  Next s =
    if index s <? Z.of_nat (length (m s))
    then (index s + 1 <? Z.of_nat (length (m s)), mkIterator (m s) (opts s) (index s + 1))
    else (false, s).
Proof.
  intros Hlo Hlen. unfold Next.
  destruct (Z.ltb_spec (index s) (Z.of_nat (length (m s)))) as [Hlt|Hge].
  - rewrite wrap_small by (unfold GoInt.minInt, GoInt.maxInt in *; lia). done.
  - destruct (Z.ltb_spec (index s) (Z.of_nat (length (m s)))); [lia|done].
Qed.

Lemma advance_state (elems : list MapElement) (o : Z) (k : nat) :
  Z.of_nat (length elems) <= GoInt.maxInt ->
  advance k (NewIterator elems o) =
    mkIterator elems o (Z.of_nat (k `min` S (length elems)) - 1).
Proof.
  intros Hlen.
  assert (H : forall k i, -1 <= i <= Z.of_nat (length elems) ->
            advance k (mkIterator elems o i) =
            mkIterator elems o (Z.min (i + Z.of_nat k) (Z.of_nat (length elems)))).
  { clear k. induction k as [|k IH]; intros i Hi.
    - cbn. f_equal. lia.
    - cbn [advance]. rewrite Next_inside by (cbn; lia). cbn [m index opts].
      destruct (Z.ltb_spec i (Z.of_nat (length elems))).
      + cbn [snd]. rewrite IH by lia. f_equal. lia.
      + cbn [snd]. rewrite IH by lia. f_equal. lia. }
  unfold NewIterator. rewrite H by lia. f_equal. lia.
Qed.

(** X15. Of the calls of [Next] on a fresh iterator over [n] entries the first
    [n] return true, each having moved the iterator on to the next entry,
    and every later call returns false and moves nothing. *)
Theorem Next_protocol (elems : list MapElement) (o : Z) (k : nat) :
  Z.of_nat (length elems) <= GoInt.maxInt ->
  let s := advance k (NewIterator elems o) in
  m s = elems /\ opts s = o /\
  index s = Z.of_nat (k `min` S (length elems)) - 1 /\
  (Next s).1 = bool_decide (k < length elems)%nat /\
  ((length elems <= k)%nat -> (Next s).2 = mkIterator elems o (Z.of_nat (length elems))).
Proof.
  intros Hlen s. unfold s. rewrite advance_state by done.
  cbn [m opts index]. split; [done|]. split; [done|]. split; [done|].
  rewrite Next_inside by (cbn; lia). cbn [m opts index].
  destruct (Z.ltb_spec (Z.of_nat (k `min` S (length elems)) - 1) (Z.of_nat (length elems)))
    as [Hlt|Hge]; cbn [fst snd].
  - split.
    + case_bool_decide; [apply Z.ltb_lt|apply Z.ltb_ge]; lia.
    + intros Hk. f_equal. lia.
  - split.
    + case_bool_decide; [lia|done].
    + intros Hk. f_equal. lia.
Qed.

Lemma collect_from (elems : list MapElement) (o : Z) (vs : list Item) :
  Z.of_nat (length elems) <= GoInt.maxInt ->
  length vs = length elems ->
  (forall i v, vs !! i = Some v -> Value (mkIterator elems o (Z.of_nat i)) = Ok v) ->
  forall (n : nat) (i : nat) (fuel : nat),
    (i + n = length elems)%nat -> (n < fuel)%nat ->
    collect fuel (mkIterator elems o (Z.of_nat i - 1)) = Some (Ok (drop i vs)).
Proof.
  intros Hlen Hvs Hval. induction n as [|n IH]; intros i fuel Hi Hfuel.
  - destruct fuel as [|fuel]; [lia|]. cbn [StorageFind.collect].
    rewrite Next_inside by (cbn; lia). cbn [m opts index].
    destruct (Z.ltb_spec (Z.of_nat i - 1) (Z.of_nat (length elems))); [|lia].
    destruct (Z.ltb_spec (Z.of_nat i - 1 + 1) (Z.of_nat (length elems))); [lia|].
    by rewrite drop_ge by lia.
  - destruct fuel as [|fuel]; [lia|]. cbn [StorageFind.collect].
    rewrite Next_inside by (cbn; lia). cbn [m opts index].
    destruct (Z.ltb_spec (Z.of_nat i - 1) (Z.of_nat (length elems))); [|lia].
    destruct (Z.ltb_spec (Z.of_nat i - 1 + 1) (Z.of_nat (length elems))); [|lia].
    destruct (lookup_lt_is_Some_2 vs i) as [v Hv]; [lia|].
    replace (Z.of_nat i - 1 + 1) with (Z.of_nat i) by lia.
    rewrite (Hval i v Hv).
    replace (Z.of_nat i) with (Z.of_nat (S i) - 1) by lia.
    rewrite (IH (S i) fuel) by lia.
    by rewrite (drop_S vs v i Hv).
Qed.

Lemma collect_panic (elems : list MapElement) (o : Z) (k : nat) (msg : string) :
  Z.of_nat (length elems) <= GoInt.maxInt ->
  (k < length elems)%nat ->
  (forall j, (j < k)%nat -> exists v, Value (mkIterator elems o (Z.of_nat j)) = Ok v) ->
  Value (mkIterator elems o (Z.of_nat k)) = Panic msg ->
  forall (n : nat) (i : nat) (fuel : nat),
    (i + n = k)%nat -> (n < fuel)%nat ->
    collect fuel (mkIterator elems o (Z.of_nat i - 1)) = Some (Panic msg).
Proof.
  intros Hlen Hk Hbefore Hat. induction n as [|n IH]; intros i fuel Hi Hfuel.
  - destruct fuel as [|fuel]; [lia|]. cbn [StorageFind.collect].
    rewrite Next_inside by (cbn; lia). cbn [m opts index].
    destruct (Z.ltb_spec (Z.of_nat i - 1) (Z.of_nat (length elems))); [|lia].
    destruct (Z.ltb_spec (Z.of_nat i - 1 + 1) (Z.of_nat (length elems))); [|lia].
    replace (Z.of_nat i - 1 + 1) with (Z.of_nat k) by lia. by rewrite Hat.
  - destruct fuel as [|fuel]; [lia|]. cbn [StorageFind.collect].
    rewrite Next_inside by (cbn; lia). cbn [m opts index].
    destruct (Z.ltb_spec (Z.of_nat i - 1) (Z.of_nat (length elems))); [|lia].
    destruct (Z.ltb_spec (Z.of_nat i - 1 + 1) (Z.of_nat (length elems))); [|lia].
    destruct (Hbefore i) as [v Hv]; [lia|].
    replace (Z.of_nat i - 1 + 1) with (Z.of_nat i) by lia. rewrite Hv.
    replace (Z.of_nat i) with (Z.of_nat (S i) - 1) by lia.
    by rewrite (IH (S i) fuel) by lia.
Qed.

(** X16. The loop [for it.Next() { out = append(out, it.Value()) }] over a fresh
    iterator comes to its end after one call of [Next] more than there are
    entries. If [Value] succeeds on every entry the loop has collected
    their values in the order of the entries; if not, it panics with the
    message of the first entry on which [Value] panics. *)
Theorem collect_in_order (elems : list MapElement) (o : Z) (fuel : nat) :
  Z.of_nat (length elems) <= GoInt.maxInt ->
  (length elems < fuel)%nat ->
  (forall vs, length vs = length elems ->
     (forall i v, vs !! i = Some v -> Value (mkIterator elems o (Z.of_nat i)) = Ok v) ->
     collect fuel (NewIterator elems o) = Some (Ok vs)) /\
  (forall k msg, (k < length elems)%nat ->
     (forall j, (j < k)%nat -> exists v, Value (mkIterator elems o (Z.of_nat j)) = Ok v) ->
     Value (mkIterator elems o (Z.of_nat k)) = Panic msg ->
     collect fuel (NewIterator elems o) = Some (Panic msg)).
Proof.
  intros Hlen Hfuel. split.
  - intros vs Hvs Hval.
    apply (collect_from elems o vs Hlen Hvs Hval (length elems) 0%nat fuel); lia.
  - intros k msg Hk Hbefore Hat.
    apply (collect_panic elems o k msg Hlen Hk Hbefore Hat k 0%nat fuel); lia.
Qed.

(** X17. [Value] does not check where the iterator stands or what it finds
    there: before the first [Next], and after [Next] has returned false,
    it panics on the index; on an entry whose key is not a byte string it
    panics on the type assertion, and on an empty key with remove-prefix
    set it panics on the slice. *)
Theorem Value_panics (s : Iterator) :
  (index s < 0 \/ Z.of_nat (length (m s)) <= index s ->
   Value s = Panic "index out of range") /\
  Value (NewIterator (m s) (opts s)) = Panic "index out of range" /\
  ((Next s).1 = false -> -1 <= index s -> Z.of_nat (length (m s)) <= GoInt.maxInt ->
   Value (Next s).2 = Panic "index out of range") /\
  (forall e, GoInt.index (m s) (index s) = Some e ->
     (as_bytes (Key e) = None -> Value s = Panic "interface conversion") /\
     (as_bytes (Key e) = Some [] -> has (opts s) FindRemovePrefix = true ->
      Value s = Panic "slice bounds out of range")).
Proof.
  assert (Hout : forall s, index s < 0 \/ Z.of_nat (length (m s)) <= index s ->
            Value s = Panic "index out of range").
  { clear s. intros s H. unfold StorageFind.Value, GoInt.index.
    destruct (Z.ltb_spec (index s) 0); [done|].
    rewrite lookup_ge_None_2; [done|]. lia. }
  split; [apply Hout|]. split; [apply Hout; cbn; lia|]. split.
  - intros Hn Hlo Hlen. rewrite Next_inside in * by done.
    destruct (Z.ltb_spec (index s) (Z.of_nat (length (m s)))); cbn [fst snd] in *.
    + apply Z.ltb_ge in Hn. apply Hout. cbn. lia.
    + apply Hout. lia.
  - intros e He. unfold StorageFind.Value. rewrite He. split.
    + by intros ->.
    + intros -> ->. done.
Qed.

(** X18. On an entry with a byte-string key and without keys-only, [Value]
    takes the stored value, or what it deserializes to if deserialize is
    set, then the element 0 of it if pick-0 is set, else the element 1 if
    pick-1 is set, and returns the outcome alone if values-only is set and
    paired with the key otherwise. Deserializing what is no byte string or
    does not decode, and picking from what is no array or is too short,
    panic. *)
Theorem Value_deserialize_pick (s : Iterator) (e : MapElement) (key : list byte) :
  GoInt.index (m s) (index s) = Some e ->
  as_bytes (Key e) = Some key ->
  (has (opts s) FindRemovePrefix = true -> key <> []) ->
  has (opts s) FindKeysOnly = false ->
  let exposed := if has (opts s) FindRemovePrefix then drop 1 key else key in
  let result (v : Item) :=
    if has (opts s) FindValuesOnly then v else Struct [ByteArray exposed; v] in
  let pick (v : Item) : outcome Item :=
    let at_ (i : nat) :=
      match as_items v with
      | None => Panic "interface conversion"
      | Some items =>
          match items !! i with
          | None => Panic "index out of range"
          | Some x => Ok (result x)
          end
      end in
    if has (opts s) FindPick0 then at_ 0%nat
    else if has (opts s) FindPick1 then at_ 1%nat
    else Ok (result v) in
  (has (opts s) FindDeserialize = false -> Value s = pick (Value_ e)) /\
  (has (opts s) FindDeserialize = true ->
   (as_bytes (Value_ e) = None -> Value s = Panic "interface conversion") /\
   (forall bs, as_bytes (Value_ e) = Some bs ->
      (DeserializeItem bs = None -> Value s = Panic "deserialization error") /\
      (forall v, DeserializeItem bs = Some v -> Value s = pick v))).
Proof.
  intros He Hk Hne Hko exposed result pick. unfold StorageFind.Value. rewrite He, Hk.
  assert (Hkey : (if has (opts s) FindRemovePrefix
                  then GoInt.slice key 1 (Z.of_nat (length key))
                  else Some key) = Some exposed).
  { unfold exposed. destruct (has (opts s) FindRemovePrefix); [|done].
    by apply slice_tail, Hne. }
  rewrite Hkey, Hko. cbv zeta.
  assert (Hpick : forall v,
    match
      (if has (opts s) FindPick0
       then match as_items v with
            | None => Panic "interface conversion"
            | Some items => match GoInt.index items 0 with
                            | None => Panic "index out of range"
                            | Some x => Ok x
                            end
            end
       else if has (opts s) FindPick1
       then match as_items v with
            | None => Panic "interface conversion"
            | Some items => match GoInt.index items 1 with
                            | None => Panic "index out of range"
                            | Some x => Ok x
                            end
            end
       else Ok v)
    with
    | Panic msg => Panic msg
    | Ok value =>
        if has (opts s) FindValuesOnly then Ok value
        else Ok (Struct [ByteArray exposed; value])
    end = pick v).
  { intros v. unfold pick, result.
    destruct (has (opts s) FindPick0), (has (opts s) FindPick1),
      (has (opts s) FindValuesOnly), (as_items v) as [[|x [|y l]]|]; done. }
  split.
  - intros ->. apply Hpick.
  - intros ->. split.
    + intros ->. by destruct (has (opts s) FindPick0), (has (opts s) FindPick1).
    + intros bs ->. split.
      * intros ->. by destruct (has (opts s) FindPick0), (has (opts s) FindPick1).
      * intros v ->. apply Hpick.
Qed.
End FindMore.

(** ** The wire form of a transaction *)

Section WriterMore.
Import BinIO.

Lemma extends_refl w : extends w w.
Proof. unfold extends. destruct (Err w); [done|]. exists []. by rewrite app_nil_r. Qed.

Lemma extends_trans w1 w2 w3 : extends w1 w2 -> extends w2 w3 -> extends w1 w3.
Proof.
  unfold extends. destruct (Err w1) eqn:H1.
  - intros ->. by rewrite H1.
  - intros [bs Hbs]. destruct (Err w2).
    + intros ->. by exists bs.
    + intros [bs' Hbs']. exists (bs ++ bs'). by rewrite Hbs', Hbs, app_assoc.
Qed.

Lemma WriteBytes_extends bs w : extends w (WriteBytes bs w).
Proof.
  unfold extends, WriteBytes. destruct (Err w); [done|]. by exists bs.
Qed.

Lemma WriteVarUint_extends v w : extends w (WriteVarUint v w).
Proof.
  unfold WriteVarUint, WriteB, WriteU16LE, WriteU32LE, WriteU64LE.
  repeat case_match;
    repeat (eapply extends_trans; [|apply WriteBytes_extends]); apply extends_refl.
Qed.

Lemma EncodeBinary_extends {A} (enc : A -> option (list byte)) a w :
  extends w (EncodeBinary enc a w).
Proof.
  unfold extends, EncodeBinary. destruct (Err w); [done|].
  destruct (enc a) as [bs|]; [by exists bs|]. exists []. by rewrite app_nil_r.
Qed.

Lemma WriteArray_extends {A} (enc : A -> option (list byte)) arr w :
  extends w (WriteArray enc arr w).
Proof.
  unfold WriteArray.
  apply (extends_trans _ (WriteVarUint (Z.of_nat (length arr)) w)); [apply WriteVarUint_extends|].
  generalize (WriteVarUint (Z.of_nat (length arr)) w). clear w.
  induction arr as [|a arr IH]; intros w; cbn [foldl]; [apply extends_refl|].
  apply (extends_trans _ (EncodeBinary enc a w)); [apply EncodeBinary_extends|apply IH].
Qed.

Lemma Bytes_extends w w' b :
  extends w w' -> Bytes w' = Some b ->
  exists bs, Bytes w = Some (buf w) /\ b = buf w ++ bs.
Proof.
  unfold extends, Bytes. destruct (Err w) eqn:He.
  - intros ->. by rewrite He.
  - intros [bs Hbs]. destruct (Err w'); [done|]. intros [= <-]. by exists bs.
Qed.
End WriterMore.

Section TxMore.
Import BinIO Tx.

Variables Attribute Cosigner Witness : Type.
Variable aenc : Attribute -> option (list byte).
Variable cenc : Cosigner -> option (list byte).
Variable uenc : Uint160 -> option (list byte).
Variable wenc : Witness -> option (list byte).
Variable Sha256 : list byte -> Uint256.
Variable BytesBE : Uint256 -> list byte.

Local Abbreviation Transaction := (Tx.Transaction Attribute Cosigner Witness).
Local Abbreviation encodeHashableFields := (Tx.encodeHashableFields Attribute Cosigner Witness aenc cenc uenc).
Local Abbreviation GetSignedPart := (Tx.GetSignedPart Attribute Cosigner Witness aenc cenc uenc).
Local Abbreviation createHash := (Tx.createHash Attribute Cosigner Witness aenc cenc uenc Sha256 BytesBE).
Local Abbreviation Hash := (Tx.Hash Attribute Cosigner Witness aenc cenc uenc Sha256 BytesBE).
Local Abbreviation VerificationHash := (Tx.VerificationHash Attribute Cosigner Witness aenc cenc uenc Sha256 BytesBE).
Local Abbreviation TxBytes := (TxWire.Bytes Attribute Cosigner Witness aenc cenc uenc wenc).

(** X19. The wire form of a transaction is its hashable fields, that is
    its signed part less the four bytes of the network magic, followed by
    the witness array as [WriteArray] encodes it on its own; there is no
    wire form when either cannot be encoded. So a transaction that cannot
    be signed has no wire form, and one without a script has neither. *)
Theorem Bytes_extends_signed_part (t : Transaction) :
  TxBytes t =
    match Bytes (encodeHashableFields t NewBufBinWriter),
          Bytes (WriteArray wenc (Scripts Attribute Cosigner Witness t) NewBufBinWriter) with
    | Some fields, Some witnesses => Some (fields ++ witnesses)
    | _, _ => None
    end /\
  GetSignedPart t =
    (fun fields => le_bytes 4 (Network t) ++ fields) <$>
      Bytes (encodeHashableFields t NewBufBinWriter) /\
  (forall b, TxBytes t = Some b ->
     exists fields witnesses,
       GetSignedPart t = Some (le_bytes 4 (Network t) ++ fields) /\
       Bytes (WriteArray wenc (Scripts Attribute Cosigner Witness t) NewBufBinWriter)
         = Some witnesses /\
       b = fields ++ witnesses) /\
  (GetSignedPart t = None -> TxBytes t = None) /\
  (Script t = [] -> GetSignedPart t = None /\ TxBytes t = None).
Proof.
  assert (Hwire : TxBytes t =
    match Bytes (encodeHashableFields t NewBufBinWriter),
          Bytes (WriteArray wenc (Scripts Attribute Cosigner Witness t) NewBufBinWriter) with
    | Some fields, Some witnesses => Some (fields ++ witnesses)
    | _, _ => None
    end).
  { unfold TxWire.Bytes, TxWire.EncodeBinary.
    pose proof (WriteArray_extends wenc (Scripts _ _ _ t)
                  (encodeHashableFields t NewBufBinWriter)) as Hext.
    unfold extends in Hext. unfold Bytes at 2.
    destruct (encodeHashableFields t NewBufBinWriter) as [fields [e|]] eqn:Hw;
      cbn [Err buf] in *.
    - rewrite Hext. done.
    - clear Hext.
      assert (mkWriter fields None = prepend fields NewBufBinWriter) as ->.
      { unfold prepend. cbn. by rewrite app_nil_r. }
      rewrite WriteArray_prepend, Bytes_prepend.
      by destruct (Bytes (WriteArray wenc _ NewBufBinWriter)). }
  pose proof (GetSignedPart_layout _ _ _ aenc cenc uenc t) as Hsigned.
  split; [done|]. split; [done|].
  assert (Hb : forall b, TxBytes t = Some b ->
     exists fields witnesses,
       GetSignedPart t = Some (le_bytes 4 (Network t) ++ fields) /\
       Bytes (WriteArray wenc (Scripts Attribute Cosigner Witness t) NewBufBinWriter)
         = Some witnesses /\
       b = fields ++ witnesses).
  { intros b. rewrite Hwire, Hsigned.
    destruct (Bytes (encodeHashableFields t NewBufBinWriter)) as [fields|]; [|done].
    destruct (Bytes (WriteArray wenc _ NewBufBinWriter)) as [ws|]; [|done].
    intros [= <-]. by exists fields, ws. }
  assert (Hn : GetSignedPart t = None -> TxBytes t = None).
  { intros Hnone. destruct (TxBytes t) as [b|] eqn:Hbytes; [|done].
    destruct (Hb b eq_refl) as (? & ? & Hs & _). by rewrite Hs in Hnone. }
  split; [done|]. split; [done|]. intros Hs.
  pose proof (GetSignedPart_no_script _ _ _ aenc cenc uenc t Hs) as Hnone.
  split; [done|by apply Hn].
Qed.

(** X20. A transaction that cannot be signed (one without a script, such as a
    trimmed one) has no hash to compute: an accessor whose memo field is
    unset panics, one whose memo field is set returns it and leaves the
    transaction alone. [VerificationHash] of a trimmed transaction always
    panics. *)
Theorem hashes_of_unsignable (t : Transaction) :
  GetSignedPart t = None ->
  createHash t = (Some "failed to serialize hashable data", t) /\
  (hash t = zero256 -> Hash t = Panic "failed to compute hash!") /\
  (hash t <> zero256 -> Hash t = Ok (hash t, t)) /\
  (verificationHash t = zero256 -> VerificationHash t = Panic "failed to compute hash!") /\
  (verificationHash t <> zero256 -> VerificationHash t = Ok (verificationHash t, t)) /\
  (forall h, VerificationHash (NewTrimmedTX Attribute Cosigner Witness h) =
             Panic "failed to compute hash!").
Proof.
  intros Hnone. unfold Tx.Hash, Tx.VerificationHash, Tx.createHash. rewrite Hnone.
  split; [done|]. split; [by intros ->|]. split.
  { intros Hh. by destruct (Z.eqb_spec (hash t) zero256). }
  split; [by intros ->|]. split.
  { intros Hh. by destruct (Z.eqb_spec (verificationHash t) zero256). }
  done.
Qed.
End TxMore.

(** ** The memory store *)

Section StoreMore.
Import MemStore.

(** X21. What was put is what [Get] returns, a nil value included; a deleted
    key and a key of the empty store are answered with ErrKeyNotFound; no
    other key is affected by a [Put] or a [Delete]; and the latest of two
    writes to a key is the one that counts. *)
Theorem Put_Get_Delete (s : MemoryStore) (k : string) (v : bytes) :
  Get (Put s k v) k = (v, None) /\
  Get (Delete s k) k = (None, Some ErrKeyNotFound) /\
  Get NewMemoryStore k = (None, Some ErrKeyNotFound) /\
  (forall k', k' <> k ->
     Get (Put s k v) k' = Get s k' /\ Get (Delete s k) k' = Get s k') /\
  (forall v', Put (Put s k v') k v = Put s k v) /\
  Get (Delete (Put s k v) k) k = (None, Some ErrKeyNotFound) /\
  Get (Put (Delete s k) k v) k = (v, None).
Proof.
  unfold Get, Put, Delete. cbn [mem del].
  rewrite !lookup_insert_eq, !lookup_delete_eq.
  split; [done|]. split; [done|]. split; [done|]. split.
  { intros k' Hk. by rewrite lookup_insert_ne, lookup_delete_ne. }
  split; [|done]. intros v'. f_equal.
  - by rewrite insert_insert_eq.
  - set_solver.
Qed.

Lemma store_op_absent (s : MemoryStore) (op : StoreOp) :
  (forall k, k ∈ del s -> mem s !! k = None) ->
  forall k, k ∈ del (store_op s op) -> mem (store_op s op) !! k = None.
Proof.
  assert (HP : forall s k0 v, (forall k, k ∈ del s -> mem s !! k = None) ->
            forall k, k ∈ del (Put s k0 v) -> mem (Put s k0 v) !! k = None).
  { clear. intros s k0 v H k Hk. cbn in *.
    apply elem_of_difference in Hk as [Hk Hne].
    rewrite lookup_insert_ne by set_solver. by apply H. }
  assert (HD : forall s k0, (forall k, k ∈ del s -> mem s !! k = None) ->
            forall k, k ∈ del (Delete s k0) -> mem (Delete s k0) !! k = None).
  { clear. intros s k0 H k Hk. cbn in *.
    destruct (decide (k = k0)) as [->|Hne]; [apply lookup_delete_eq|].
    rewrite lookup_delete_ne by done. apply H. set_solver. }
  intros H. destruct op as [k0 v|k0|b]; cbn [store_op].
  - by apply HP.
  - by apply HD.
  - unfold PutBatch, PutBatch_in.
    assert (H1 : forall k, k ∈ del (foldl Delete s (elements (bdel b))) ->
                   mem (foldl Delete s (elements (bdel b))) !! k = None).
    { revert s H. induction (elements (bdel b)) as [|d l IH]; intros s H; cbn [foldl]; [done|].
      apply IH. by apply HD. }
    revert H1. generalize (foldl Delete s (elements (bdel b))). clear s H.
    induction (map_to_list (m b)) as [|[k0 v] l IH]; intros s H; cbn [foldl]; [done|].
    apply IH. by apply HP.
Qed.

(** X22. In a store built by [Put], [Delete] and [PutBatch], and in a batch
    built by its [Put] and [Delete], no key is both held and marked as
    deleted. *)
Theorem deleted_keys_are_absent (ops : list StoreOp) (bops : list BatchOp) (k : string) :
  (k ∈ del (foldl store_op NewMemoryStore ops) ->
   Get (foldl store_op NewMemoryStore ops) k = (None, Some ErrKeyNotFound)) /\
  (k ∈ bdel (foldl batch_op newMemoryBatch bops) ->
   m (foldl batch_op newMemoryBatch bops) !! k = None).
Proof.
  split.
  - assert (H : forall k, k ∈ del (foldl store_op NewMemoryStore ops) ->
                  mem (foldl store_op NewMemoryStore ops) !! k = None).
    { assert (H0 : forall k, k ∈ del NewMemoryStore -> mem NewMemoryStore !! k = None) by done.
      revert H0. generalize NewMemoryStore.
      induction ops as [|op ops IH]; intros s H0; cbn [foldl]; [done|].
      apply IH. by apply store_op_absent. }
    intros Hk. unfold Get. by rewrite (H k Hk).
  - assert (H0 : forall k, k ∈ bdel newMemoryBatch -> m newMemoryBatch !! k = None) by done.
    revert H0. generalize newMemoryBatch.
    induction bops as [|op bops IH]; intros b H0; cbn [foldl]; [by apply H0|].
    apply IH. intros k' Hk'. destruct op as [k0 v|k0]; cbn in *.
    + apply elem_of_difference in Hk' as [Hk' Hne].
      rewrite lookup_insert_ne by set_solver. by apply H0.
    + destruct (decide (k' = k0)) as [->|Hne]; [apply lookup_delete_eq|].
      rewrite lookup_delete_ne by done. apply H0. set_solver.
Qed.

Lemma foldl_Delete (dels : list string) : forall (s : MemoryStore),
  (forall k, mem (foldl Delete s dels) !! k =
             if decide (k ∈ dels) then None else mem s !! k) /\
  del (foldl Delete s dels) = del s ∪ list_to_set dels.
Proof.
  induction dels as [|d dels IH]; intros s; cbn [foldl].
  - split; [intros k; by rewrite decide_False by set_solver|set_solver].
  - destruct (IH (Delete s d)) as [Hm Hd]. split.
    + intros k. rewrite Hm. cbn [mem Delete].
      destruct (decide (k ∈ dels)); [by rewrite decide_True by set_solver|].
      destruct (decide (k = d)) as [->|Hne].
      * rewrite lookup_delete_eq. by rewrite decide_True by set_solver.
      * rewrite lookup_delete_ne by done. by rewrite decide_False by set_solver.
    + rewrite Hd. cbn. set_solver.
Qed.

Lemma foldl_Put (puts : list (string * bytes)) : forall (s : MemoryStore),
  NoDup puts.*1 ->
  (forall k, mem (foldl (fun s kv => Put s kv.1 kv.2) s puts) !! k =
             match (list_to_map puts : gmap string bytes) !! k with
             | Some v => Some v
             | None => mem s !! k
             end) /\
  del (foldl (fun s kv => Put s kv.1 kv.2) s puts) = del s ∖ list_to_set puts.*1.
Proof.
  induction puts as [|[k0 v0] puts IH]; intros s Hnd; cbn [foldl fst snd].
  - split; [done|set_solver].
  - cbn in Hnd. apply NoDup_cons in Hnd as [Hk0 Hnd].
    destruct (IH (Put s k0 v0) Hnd) as [Hm Hd]. split.
    + intros k. rewrite Hm. cbn [mem Put fst snd list_to_map foldr].
      destruct (decide (k = k0)) as [->|Hne].
      * rewrite !lookup_insert_eq.
        by rewrite (not_elem_of_list_to_map_1 _ _ Hk0).
      * by rewrite !lookup_insert_ne by done.
    + rewrite Hd. cbn. set_solver.
Qed.

Lemma PutBatch_in_spec (dels : list string) (puts : list (string * bytes)) (s : MemoryStore) :
  NoDup puts.*1 ->
  (forall k, mem (PutBatch_in dels puts s) !! k =
             match (list_to_map puts : gmap string bytes) !! k with
             | Some v => Some v
             | None => if decide (k ∈ dels) then None else mem s !! k
             end) /\
  del (PutBatch_in dels puts s) = (del s ∪ list_to_set dels) ∖ list_to_set puts.*1.
Proof.
  intros Hnd. unfold PutBatch_in.
  destruct (foldl_Put puts (foldl Delete s dels) Hnd) as [Hm Hd].
  destruct (foldl_Delete dels s) as [Hm' Hd']. split.
  - intros k. by rewrite Hm, Hm'.
  - by rewrite Hd, Hd'.
Qed.

Lemma store_eq (s1 s2 : MemoryStore) :
  (forall k, mem s1 !! k = mem s2 !! k) -> del s1 = del s2 -> s1 = s2.
Proof.
  destruct s1, s2. cbn. intros Hm ->. f_equal. by apply map_eq.
Qed.

(** X23. [PutBatch] does not depend on the order in which Go ranges over the
    two maps of the batch: afterwards a key the batch puts has the value
    of the batch, a key it deletes is gone, and every other key is as it
    was. *)
Theorem PutBatch_any_order (s : MemoryStore) (b : MemoryBatch)
    (dels : list string) (puts : list (string * bytes)) :
  dels ≡ₚ elements (bdel b) -> puts ≡ₚ map_to_list (m b) ->
  PutBatch_in dels puts s = PutBatch s b /\
  forall k,
    Get (PutBatch s b) k =
      match m b !! k with
      | Some v => (v, None)
      | None => if decide (k ∈ bdel b) then (None, Some ErrKeyNotFound) else Get s k
      end.
Proof.
  intros Hdels Hputs.
  assert (Hnd : NoDup (map_to_list (m b)).*1) by apply NoDup_fst_map_to_list.
  assert (Hnd' : NoDup puts.*1) by (by rewrite Hputs).
  assert (Hmap : (list_to_map puts : gmap string bytes) = m b).
  { rewrite (list_to_map_proper puts (map_to_list (m b))) by done.
    apply list_to_map_to_list. }
  destruct (PutBatch_in_spec dels puts s Hnd') as [Hm1 Hd1].
  destruct (PutBatch_in_spec (elements (bdel b)) (map_to_list (m b)) s Hnd) as [Hm2 Hd2].
  rewrite list_to_map_to_list in Hm2. rewrite Hmap in Hm1. split.
  - unfold PutBatch. apply store_eq.
    + intros k. rewrite Hm1, Hm2. destruct (m b !! k); [done|].
      destruct (decide (k ∈ dels)) as [Hk|Hk]; rewrite Hdels in Hk;
        [by rewrite decide_True|by rewrite decide_False].
    + rewrite Hd1, Hd2. apply set_eq. intros k.
      rewrite !elem_of_difference, !elem_of_union, !elem_of_list_to_set.
      by rewrite Hdels, Hputs.
  - intros k. unfold Get, PutBatch. rewrite Hm2.
    destruct (m b !! k); [done|].
    destruct (decide (k ∈ elements (bdel b))) as [Hk|Hk]; rewrite elem_of_elements in Hk;
      [by rewrite decide_True|by rewrite decide_False].
Qed.

Lemma foldl_Batch_Delete (dels : list string) : forall (b : MemoryBatch),
  (forall k, m (foldl Batch_Delete b dels) !! k =
             if decide (k ∈ dels) then None else m b !! k) /\
  bdel (foldl Batch_Delete b dels) = bdel b ∪ list_to_set dels.
Proof.
  induction dels as [|d dels IH]; intros b; cbn [foldl].
  - split; [intros k; by rewrite decide_False by set_solver|set_solver].
  - destruct (IH (Batch_Delete b d)) as [Hm Hd]. split.
    + intros k. rewrite Hm. cbn [m Batch_Delete].
      destruct (decide (k ∈ dels)); [by rewrite decide_True by set_solver|].
      destruct (decide (k = d)) as [->|Hne].
      * rewrite lookup_delete_eq. by rewrite decide_True by set_solver.
      * rewrite lookup_delete_ne by done. by rewrite decide_False by set_solver.
    + rewrite Hd. cbn. set_solver.
Qed.

Lemma foldl_Batch_Put (puts : list (string * bytes)) : forall (b : MemoryBatch),
  NoDup puts.*1 ->
  (forall k, m (foldl (fun b kv => Batch_Put b kv.1 kv.2) b puts) !! k =
             match (list_to_map puts : gmap string bytes) !! k with
             | Some v => Some (Some (default [] v))
             | None => m b !! k
             end) /\
  bdel (foldl (fun b kv => Batch_Put b kv.1 kv.2) b puts) = bdel b ∖ list_to_set puts.*1.
Proof.
  induction puts as [|[k0 v0] puts IH]; intros b Hnd; cbn [foldl fst snd].
  - split; [done|set_solver].
  - cbn in Hnd. apply NoDup_cons in Hnd as [Hk0 Hnd].
    destruct (IH (Batch_Put b k0 v0) Hnd) as [Hm Hd]. split.
    + intros k. rewrite Hm. cbn [m Batch_Put fst snd list_to_map foldr].
      destruct (decide (k = k0)) as [->|Hne].
      * rewrite !lookup_insert_eq.
        by rewrite (not_elem_of_list_to_map_1 _ _ Hk0).
      * by rewrite !lookup_insert_ne by done.
    + rewrite Hd. cbn. set_solver.
Qed.

Lemma batch_eq (b1 b2 : MemoryBatch) :
  (forall k, m b1 !! k = m b2 !! k) -> bdel b1 = bdel b2 -> b1 = b2.
Proof.
  destruct b1, b2. cbn. intros Hm ->. f_equal. by apply map_eq.
Qed.

Lemma Persist_in_spec (s ps : MemoryStore) (puts : list (string * bytes)) (dels : list string) :
  puts ≡ₚ map_to_list (mem s) -> dels ≡ₚ elements (del s) ->
  exists batch,
    Persist_in puts dels ps = (Z.of_nat (size (mem s)), NewMemoryStore, PutBatch ps batch) /\
    (forall k, m batch !! k =
       if decide (k ∈ del s) then None
       else (fun v => Some (default [] v)) <$> mem s !! k) /\
    bdel batch = del s.
Proof.
  intros Hputs Hdels.
  assert (Hnd : NoDup puts.*1) by (rewrite Hputs; apply NoDup_fst_map_to_list).
  assert (Hmap : (list_to_map puts : gmap string bytes) = mem s).
  { rewrite (list_to_map_proper puts (map_to_list (mem s))) by done.
    apply list_to_map_to_list. }
  destruct (foldl_Batch_Put puts newMemoryBatch Hnd) as [Hm1 Hd1].
  destruct (foldl_Batch_Delete dels
              (foldl (fun b kv => Batch_Put b kv.1 kv.2) newMemoryBatch puts)) as [Hm2 Hd2].
  set (batch := foldl Batch_Delete
                  (foldl (fun b kv => Batch_Put b kv.1 kv.2) newMemoryBatch puts) dels) in *.
  assert (Hm : forall k, m batch !! k =
       if decide (k ∈ del s) then None
       else (fun v => Some (default [] v)) <$> mem s !! k).
  { intros k. rewrite Hm2, Hm1, Hmap. cbn [m newMemoryBatch].
    destruct (decide (k ∈ dels)) as [Hk|Hk]; rewrite Hdels, elem_of_elements in Hk;
      [by rewrite decide_True|rewrite decide_False by done].
    by destruct (mem s !! k). }
  assert (Hd : bdel batch = del s).
  { rewrite Hd2, Hd1. cbn [bdel newMemoryBatch]. apply set_eq. intros k.
    rewrite elem_of_union, elem_of_difference, (elem_of_list_to_set k dels).
    rewrite Hdels, elem_of_elements. split; [|by right].
    intros [[Hk _]|Hk]; [|done]. by apply elem_of_empty in Hk. }
  exists batch. split; [|done].
  unfold Persist_in. fold batch. rewrite Hputs, length_map_to_list.
  f_equal. case_match; [done|].
  apply orb_false_iff in H as [H1 H2].
  apply negb_false_iff, Z.eqb_eq in H1, H2.
  assert (mem s = ∅) as Hme by (apply map_size_empty_iff; lia).
  assert (dels = []) as -> by (destruct dels; [done|cbn in H2; lia]).
  assert (del s = ∅) as Hde.
  { apply leibniz_equiv, elements_empty_iff. symmetry. by apply Permutation_nil_l. }
  symmetry. assert (batch = newMemoryBatch) as ->.
  { apply batch_eq; [|by rewrite Hd, Hde]. intros k. rewrite Hm, Hme, Hde.
    by rewrite decide_False by set_solver. }
  unfold PutBatch, PutBatch_in. cbn [m bdel newMemoryBatch].
  by rewrite elements_empty, map_to_list_empty.
Qed.

(** X24. [Persist] into another memory store returns the number of keys held,
    leaves the store empty and hands everything over, in whatever order Go
    ranges over the two maps: afterwards the target answers not found for
    a key that was marked as deleted, holds a copy of the value (empty
    rather than nil) for a key that was held, and is unchanged
    elsewhere. *)
Theorem Persist_transfers (s ps : MemoryStore) :
  exists ps',
    Persist s ps = (Z.of_nat (size (mem s)), NewMemoryStore, ps') /\
    (forall k,
       Get ps' k =
         if decide (k ∈ del s) then (None, Some ErrKeyNotFound)
         else match mem s !! k with
              | Some v => (Some (default [] v), None)
              | None => Get ps k
              end) /\
    (forall puts dels,
       puts ≡ₚ map_to_list (mem s) -> dels ≡ₚ elements (del s) ->
       Persist_in puts dels ps = Persist s ps).
Proof.
  destruct (Persist_in_spec s ps (map_to_list (mem s)) (elements (del s)))
    as (batch & Hp & Hm & Hd); [done..|].
  exists (PutBatch ps batch). split; [exact Hp|]. split.
  - intros k.
    destruct (PutBatch_in_spec (elements (bdel batch)) (map_to_list (m batch)) ps)
      as [Hget _]; [apply NoDup_fst_map_to_list|].
    unfold Get, PutBatch. rewrite Hget, list_to_map_to_list, Hm, Hd.
    destruct (decide (k ∈ del s)) as [Hk|Hk].
    + by rewrite decide_True by (by apply elem_of_elements).
    + rewrite decide_False by (by rewrite elem_of_elements).
      by destruct (mem s !! k).
  - intros puts dels Hputs Hdels.
    destruct (Persist_in_spec s ps puts dels Hputs Hdels) as (batch' & Hp' & Hm' & Hd').
    unfold Persist. rewrite Hp, Hp'. do 2 f_equal.
    apply batch_eq; [|by rewrite Hd, Hd']. intros k. by rewrite Hm, Hm'.
Qed.

(** X25. [Seek] calls [f] once for each entry whose key begins with the given
    key, with the value held, and for no other; the empty key selects
    every entry. The order of the calls is that of Go's range over the
    map. *)
Theorem Seek_finds (s : MemoryStore) (key : string) :
  (forall k v, (k, v) ∈ Seek s key <-> mem s !! k = Some v /\ String.prefix key k = true) /\
  NoDup (Seek s key).*1 /\
  Seek s EmptyString = map_to_list (mem s) /\
  (forall order, order ≡ₚ map_to_list (mem s) -> Seek_in order key ≡ₚ Seek s key).
Proof.
  unfold Seek, Seek_in. split; [|split; [|split]].
  - intros k v. rewrite list_elem_of_In, filter_In, <- list_elem_of_In, elem_of_map_to_list.
    done.
  - pose proof (NoDup_fst_map_to_list (mem s)) as Hnd. revert Hnd.
    induction (map_to_list (mem s)) as [|[k v] l IH]; cbn; [done|].
    intros Hnd. apply NoDup_cons in Hnd as [Hk Hnd].
    destruct (String.prefix key k); cbn; [|by apply IH].
    apply NoDup_cons. split; [|by apply IH].
    intros Hin. apply Hk. apply list_elem_of_fmap in Hin as ([k' v'] & -> & Hin).
    apply list_elem_of_In, filter_In in Hin as [Hin _]. apply list_elem_of_In in Hin.
    apply list_elem_of_fmap. by exists (k', v').
  - induction (map_to_list (mem s)) as [|[k v] l IH]; cbn; [done|].
    rewrite IH. by destruct k.
  - intros order Hperm. induction Hperm as [|x l l' Hp IH|x y l|l l' l'' H1 IH1 H2 IH2]; cbn.
    + done.
    + destruct (String.prefix key x.1); by rewrite IH.
    + destruct (String.prefix key x.1), (String.prefix key y.1); try done. apply perm_swap.
    + by rewrite IH1.
Qed.
End StoreMore.

Section ClosedMore.
Import StorageFind FindSamples.

Lemma Next_protocol_witness :
  index (advance 2 (NewIterator [entry] FindDefault)) = 1 /\
  (Next (advance 0 (NewIterator [entry] FindDefault))).1 = true /\
  (Next (advance 2 (NewIterator [entry] FindDefault))).1 = false.
Proof.
  destruct (Next_protocol [entry] FindDefault 2) as (_ & _ & Hi & Hn & _);
    [unfold GoInt.maxInt; cbn; lia|].
  destruct (Next_protocol [entry] FindDefault 0) as (_ & _ & _ & Hn0 & _);
    [unfold GoInt.maxInt; cbn; lia|].
  split; [exact Hi|]. split; [exact Hn0|exact Hn].
Defined.

Lemma collect_in_order_witness :
  collect no_items 2 (NewIterator [entry] FindValuesOnly) = Some (Ok [ByteArray [x2a]]).
Proof.
  destruct (collect_in_order no_items [entry] FindValuesOnly 2) as [H _];
    [unfold GoInt.maxInt; cbn; lia|cbn; lia|].
  apply H; [reflexivity|].
  intros i v Hv. destruct i as [|i]; [|by destruct i].
  injection Hv as <-. reflexivity.
Defined.

Lemma Value_deserialize_pick_witness :
  Value no_items
    (mkIterator [mkElement (ByteArray [x01]) (Array [Integer 7; Integer 8])] FindPick1 0) =
  Ok (Struct [ByteArray [x01]; Integer 8]).
Proof.
  destruct (Value_deserialize_pick no_items
              (mkIterator [mkElement (ByteArray [x01]) (Array [Integer 7; Integer 8])] FindPick1 0)
              (mkElement (ByteArray [x01]) (Array [Integer 7; Integer 8])) [x01])
    as [H _]; [reflexivity|reflexivity|discriminate|reflexivity|].
  exact (H eq_refl).
Defined.
End ClosedMore.

Section ClosedTxMore.
Import BinIO Tx TxSamples.

Lemma hashes_of_unsignable_witness :
  Hash unit unit unit no_encoding no_encoding uint160_bytes digest bytes_of
    (New unit unit unit 5 [] 0 7) = Panic "failed to compute hash!" /\
  VerificationHash unit unit unit no_encoding no_encoding uint160_bytes digest bytes_of
    (NewTrimmedTX unit unit unit 7) = Panic "failed to compute hash!".
Proof.
  destruct (hashes_of_unsignable unit unit unit no_encoding no_encoding uint160_bytes
              digest bytes_of (New unit unit unit 5 [] 0 7))
    as (_ & Hh & _ & _ & _ & Hv); [reflexivity|].
  split; [apply Hh; reflexivity|apply Hv].
Defined.
End ClosedTxMore.

Section ClosedStore.
Import MemStore.

Lemma PutBatch_any_order_witness :
  Get (PutBatch (Put NewMemoryStore "a" (Some [x07]))
         (Batch_Put (Batch_Delete newMemoryBatch "a") "b" (Some [x01]))) "b" =
    (Some [x01], None) /\
  Get (PutBatch (Put NewMemoryStore "a" (Some [x07]))
         (Batch_Put (Batch_Delete newMemoryBatch "a") "b" (Some [x01]))) "a" =
    (None, Some ErrKeyNotFound).
Proof.
  destruct (PutBatch_any_order (Put NewMemoryStore "a" (Some [x07]))
              (Batch_Put (Batch_Delete newMemoryBatch "a") "b" (Some [x01]))
              (elements (bdel (Batch_Put (Batch_Delete newMemoryBatch "a") "b" (Some [x01]))))
              (map_to_list (m (Batch_Put (Batch_Delete newMemoryBatch "a") "b" (Some [x01])))))
    as [_ H]; [reflexivity|reflexivity|].
  split; rewrite H; vm_compute; reflexivity.
Defined.
End ClosedStore.

